(** * A prefix tree with autocomplete and ranked fuzzy search

    Shallow embedding of [include/trie/trie.hpp] (namespace [trie]) and the
    properties its specification states about it.

    Conventions of the embedding:
    - [std::string] is a list of 8-bit code units ([ascii]); [operator<] on
      strings compares them lexicographically as unsigned bytes;
    - [std::uint32_t] is a [Z] reduced modulo [2^32] after each update;
      [int] is a [Z] reduced to the two's complement range after each
      conversion and addition;
    - [std::size_t] values that are only sizes of sequences are [nat];
    - [double] is the primitive binary64 type [float];
    - [std::unordered_map] is an association list in iteration order; where a
      new key is linked is left to a [MapLayout];
    - [std::mutex] is a boolean (held or free); an operation that would
      block forever has no result ([None]);
    - the member functions are given twice: as functions of the node
      store, and as operations that run against the node store through
      pointers (a [TrieNode*] is the path from the root), which is where
      reading and writing differ. *)

From Stdlib Require Import String.
From Stdlib Require Import List ZArith NArith Bool Ascii Lia Permutation.
From Stdlib Require Import Sorted.
From Stdlib Require Import Uint63 Floats.
From Stdlib Require Import QArith Qpower Lqa Zpower.
Close Scope Q_scope.
Import ListNotations.

Set Warnings "-inexact-float".

(** ** Strings *)

Definition str : Type := list ascii.

(** A string literal as a [str]. *)
Definition lit (s : string) : str := list_ascii_of_string s.

Definition str_eq_dec : forall a b : str, {a = b} + {a <> b} :=
  list_eq_dec ascii_dec.

(** [prefix.size() <= w.size() && equal(prefix, w[0..prefix.size()))]. *)
Fixpoint is_prefix (p w : str) : bool :=
  match p, w with
  | [], _ => true
  | _ :: _, [] => false
  | a :: p', b :: w' => Ascii.eqb a b && is_prefix p' w'
  end.

(** ** Machine integers *)

Definition uint32_modulus : Z := 4294967296.
Definition uint32_max : Z := 4294967295.

(** Arithmetic on [std::uint32_t] is modulo [2^32]. *)
Definition wrap_u32 (z : Z) : Z := (z mod uint32_modulus)%Z.

Definition int_min : Z := (-2147483648)%Z.
Definition int_max : Z := 2147483647.

(** Conversion to [int]: the value modulo [2^32] in the two's complement
    range (what [static_cast<int>] yields, and what an addition that leaves
    the range produces on the targets the library is built for). *)
Definition wrap_int (z : Z) : Z :=
  ((z + 2147483648) mod uint32_modulus - 2147483648)%Z.

(** ** The node store *)

(** [struct TrieNode]. *)
#[warnings="-register-all"]
Inductive TrieNode : Type :=
  mkTrieNode
    { children : list (ascii * TrieNode);
      is_terminal : bool;
      frequency : Z }.

(** [TrieNode{}]: the default member initialisers. *)
Definition new_node : TrieNode := mkTrieNode [] false 0%Z.

(** [children.find(c)]: [None] is [children.end()]. *)
Fixpoint find (c : ascii) (m : list (ascii * TrieNode)) : option TrieNode :=
  match m with
  | [] => None
  | (k, v) :: m' => if Ascii.eqb k c then Some v else find c m'
  end.

(** A write through the reference [children[c]] of a key that is present:
    the entry keeps its place in the iteration order. *)
Fixpoint update (c : ascii) (f : TrieNode -> TrieNode)
    (m : list (ascii * TrieNode)) : list (ascii * TrieNode) :=
  match m with
  | [] => []
  | (k, v) :: m' =>
      if Ascii.eqb k c then (k, f v) :: m' else (k, v) :: update c f m'
  end.

(** [children[c]] of a key that is absent links a new entry, which [insert]
    at once fills with [std::make_unique<TrieNode>()].  Where the entry
    lands in the iteration order (and whether the others are moved by a
    rehash) is not fixed by the container: a layout is any function that
    yields a rearrangement of the old entries and the new one. *)
Class MapLayout : Type :=
  { link : ascii -> list (ascii * TrieNode) -> list (ascii * TrieNode);
    link_perm : forall c m, Permutation (link c m) ((c, new_node) :: m) }.

(** A new key becomes the first entry iterated (a node-based hash table
    whose new bucket is hooked at the head of its element list). *)
Definition front_layout : MapLayout.
Proof.
  refine {| link := fun c m => (c, new_node) :: m |}.
  intros c m. apply Permutation_refl.
Defined.

(** A new key becomes the last entry iterated. *)
Definition back_layout : MapLayout.
Proof.
  refine {| link := fun c m => m ++ [(c, new_node)] |}.
  intros c m. apply Permutation_sym, Permutation_cons_append.
Defined.

(** ** Edit distance *)

(** [v[j]] on a [std::vector<int>]; every index the code uses is below the
    vector's size. *)
Definition vget (v : list Z) (j : nat) : Z := nth j v 0%Z.

(** [v[j] = x]. *)
Fixpoint vset (v : list Z) (j : nat) (x : Z) : list Z :=
  match v, j with
  | [], _ => []
  | _ :: v', O => x :: v'
  | y :: v', S j' => y :: vset v' j' x
  end.

(** [s[i]] on a [std::string]. *)
Definition char_at (s : str) (i : nat) : ascii := nth i s Ascii.zero.

(** [std::min({x, y, z})]. *)
Definition min3 (x y z : Z) : Z := Z.min (Z.min x y) z.

(** The inner loop of [levenshtein_distance] over [j = 1 .. n] for the
    row of [a[i-1]]. *)
Definition fill_row (ai : ascii) (b : str) (n : nat) (prev cur : list Z)
    : list Z :=
  fold_left
    (fun cur j =>
       let cost := if Ascii.eqb ai (char_at b (j - 1)) then 0%Z else 1%Z in
       vset cur j
         (min3 (wrap_int (vget prev j + 1)%Z)
               (wrap_int (vget cur (j - 1) + 1)%Z)
               (wrap_int (vget prev (j - 1) + cost)%Z)))
    (seq 1 n) cur.

(** The outer loop over [i = 1 .. m]; the state is the pair of rows
    [(prev, cur)], exchanged by [std::swap] at the end of each round. *)
Definition fill_rows (a b : str) (m n : nat) (rows : list Z * list Z)
    : list Z * list Z :=
  fold_left
    (fun rows i =>
       let '(prev, cur) := rows in
       let cur := vset cur 0 (wrap_int (Z.of_nat i)) in
       let cur := fill_row (char_at a (i - 1)) b n prev cur in
       (cur, prev))
    (seq 1 m) rows.

(** [Trie::levenshtein_distance]. *)
Definition levenshtein_distance (a b : str) : Z :=
  let m := length a in
  let n := length b in
  if Nat.eqb m 0 then wrap_int (Z.of_nat n)
  else if Nat.eqb n 0 then wrap_int (Z.of_nat m)
  else
    let prev := repeat 0%Z (n + 1) in
    let cur := repeat 0%Z (n + 1) in
    let prev :=
      fold_left (fun prev j => vset prev j (wrap_int (Z.of_nat j)))
                (seq 0 (n + 1)) prev in
    let '(prev, _) := fill_rows a b m n (prev, cur) in
    vget prev n.

(** ** Scoring *)

(** [static_cast<double>] of an [int]. *)
Definition double_of_int (d : Z) : float :=
  if (d <? 0)%Z then (- of_uint63 (Uint63.of_Z (- d)))%float
  else of_uint63 (Uint63.of_Z d).

(** [static_cast<double>] of a [std::size_t] that is the size of a string
    and of a [std::uint32_t]. *)
Definition double_of_size (n : nat) : float :=
  of_uint63 (Uint63.of_Z (Z.of_nat n)).
Definition double_of_u32 (f : Z) : float := of_uint63 (Uint63.of_Z f).

(** [Trie::score_word]. *)
Definition score_word (query w : str) (frequency : Z) : float :=
  let d := levenshtein_distance query w in
  let sim := (1.0 / (1.0 + double_of_int d))%float in
  let len_bonus := (double_of_size (length w) * 0.02)%float in
  let freq_bonus := (double_of_u32 frequency * 0.05)%float in
  (sim + len_bonus + freq_bonus)%float.

(** [struct ScoredWord]. *)
Record ScoredWord : Type := mkScoredWord { word : str; score : float }.

(** [a < b] on [std::string]: lexicographic on the code units taken as
    unsigned bytes, a proper prefix first. *)
Fixpoint str_ltb (a b : str) : bool :=
  match a, b with
  | _, [] => false
  | [], _ :: _ => true
  | x :: a', y :: b' =>
      if (N_of_ascii x <? N_of_ascii y)%N then true
      else if (N_of_ascii y <? N_of_ascii x)%N then false
      else str_ltb a' b'
  end.

(** The comparator [search_ranked] hands to [std::sort]. *)
Definition ranked_before (a b : ScoredWord) : bool :=
  if negb (score a =? score b)%float then (score b <? score a)%float
  else str_ltb (word a) (word b).

(** [std::sort(first, last, comp)] as a sort by insertion.  The order
    [std::sort] leaves equivalent elements in is unspecified; the elements
    [search_ranked] sorts are pairwise inequivalent (see
    [ranking_strict_unique]), so the sorted sequence is the same for every
    sorting algorithm. *)
Fixpoint sort_insert (comp : ScoredWord -> ScoredWord -> bool)
    (x : ScoredWord) (l : list ScoredWord) : list ScoredWord :=
  match l with
  | [] => [x]
  | y :: l' => if comp x y then x :: l else y :: sort_insert comp x l'
  end.

Definition std_sort (comp : ScoredWord -> ScoredWord -> bool)
    (l : list ScoredWord) : list ScoredWord :=
  fold_right (sort_insert comp) [] l.

(** ** The engine *)

(** A loop over the entries of [node->children] in iteration order, left
    by [return] as soon as [stop] holds after an entry's [body]. *)
Section ChildLoop.

Variable A : Type.
Variable body : ascii -> TrieNode -> A -> A.
Variable stop : A -> bool.

Fixpoint for_children (kvs : list (ascii * TrieNode)) (out : A) : A :=
  match kvs with
  | [] => out
  | (k, child) :: kvs' =>
      let out' := body k child out in
      if stop out' then out' else for_children kvs' out'
  end.

End ChildLoop.

Arguments for_children {A} body stop kvs out.

Section Engine.

Context {layout : MapLayout}.

(** The map after [auto &next = node->children[c]; if (!next) next =
    std::make_unique<TrieNode>();]: a key that is present leaves the map as
    it is, a key that is absent is linked with a new node. *)
Definition ensured (c : ascii) (m : list (ascii * TrieNode))
    : list (ascii * TrieNode) :=
  match find c m with
  | Some _ => m
  | None => link c m
  end.

(** The body of [Trie::insert] below the lock: the loop walks down from
    [node], creating the missing edges, and marks the node it ends on. *)
Fixpoint insert_node (w : str) (node : TrieNode) : TrieNode :=
  match w with
  | [] =>
      mkTrieNode (children node) true (wrap_u32 (frequency node + 1)%Z)
  | c :: rest =>
      mkTrieNode (update c (insert_node rest) (ensured c (children node)))
                 (is_terminal node) (frequency node)
  end.

(** The body of [Trie::contains]. *)
Fixpoint contains_node (w : str) (node : TrieNode) : bool :=
  match w with
  | [] => is_terminal node
  | c :: rest =>
      match find c (children node) with
      | None => false
      | Some next => contains_node rest next
      end
  end.

(** The loop of [Trie::suggest] that resolves the node of [prefix]. *)
Fixpoint descend (prefix : str) (node : TrieNode) : option TrieNode :=
  match prefix with
  | [] => Some node
  | c :: rest =>
      match find c (children node) with
      | None => None
      | Some next => descend rest next
      end
  end.

(** [limit != 0 && out.size() >= limit]. *)
Definition reached (limit : nat) (out : list str) : bool :=
  negb (Nat.eqb limit 0) && Nat.leb limit (length out).

(** [Trie::collect_suggestions]; [out] is passed in and returned, [current]
    is the string the caller extends and restores around each call. *)
Fixpoint collect_suggestions (node : TrieNode) (current : str)
    (out : list str) (limit : nat) {struct node} : list str :=
  match node with
  | mkTrieNode kids terminal _ =>
      let out1 := if terminal then out ++ [current] else out in
      if terminal && reached limit out1 then out1
      else
        for_children
          (fun k child out =>
             collect_suggestions child (current ++ [k]) out limit)
          (reached limit) kids out1
  end.

(** The body of [Trie::suggest]. *)
Definition suggest_node (prefix : str) (limit : nat) (root : TrieNode)
    : list str :=
  match descend prefix root with
  | None => []
  | Some node => collect_suggestions node prefix [] limit
  end.

(** [Trie::collect_scored]. *)
Fixpoint collect_scored (node : TrieNode) (current : str)
    (out : list ScoredWord) (query : str) {struct node} : list ScoredWord :=
  match node with
  | mkTrieNode kids terminal freq =>
      let out1 :=
        if terminal
        then out ++ [mkScoredWord current (score_word query current freq)]
        else out in
      for_children
        (fun k child out => collect_scored child (current ++ [k]) out query)
        (fun _ => false) kids out1
  end.

(** The body of [Trie::search_ranked]. *)
Definition search_ranked_node (query : str) (limit : nat) (root : TrieNode)
    : list str :=
  let scored := collect_scored root [] [] query in
  let scored := std_sort ranked_before scored in
  let take :=
    if Nat.eqb limit 0 then length scored
    else Nat.min limit (length scored) in
  map word (firstn take scored).

(** [class Trie]: the root, the mode flag and the mutex ([true]: held). *)
Record Trie : Type :=
  mkTrie { root_ : TrieNode; thread_safe_ : bool; mtx_ : bool }.

(** [Trie::Trie(bool thread_safe)]. *)
Definition Trie_new (thread_safe : bool) : Trie :=
  mkTrie new_node thread_safe false.

(** [LockGuard::LockGuard]: locks the mutex of a thread-safe trie and
    records that it did; locking a mutex that is held never returns. *)
Definition LockGuard_enter (t : Trie) : option (Trie * bool) :=
  if thread_safe_ t then
    if mtx_ t then None
    else Some (mkTrie (root_ t) (thread_safe_ t) true, true)
  else Some (t, false).

(** [LockGuard::~LockGuard]. *)
Definition LockGuard_leave (locked_ : bool) (t : Trie) : Trie :=
  if locked_ then mkTrie (root_ t) (thread_safe_ t) false else t.

(** A member function whose first statement declares a [LockGuard] on the
    trie: the guard is released on every path out of [body]. *)
Definition guarded {A : Type} (body : Trie -> Trie * A) (t : Trie)
    : option (Trie * A) :=
  match LockGuard_enter t with
  | None => None
  | Some (t1, locked_) =>
      let '(t2, r) := body t1 in Some (LockGuard_leave locked_ t2, r)
  end.

(** [Trie::insert]. *)
Definition insert (w : str) : Trie -> option (Trie * unit) :=
  guarded (fun t =>
    (mkTrie (insert_node w (root_ t)) (thread_safe_ t) (mtx_ t), tt)).

(** [Trie::contains]. *)
Definition contains (w : str) : Trie -> option (Trie * bool) :=
  guarded (fun t => (t, contains_node w (root_ t))).

(** [Trie::suggest]. *)
Definition suggest (prefix : str) (limit : nat)
    : Trie -> option (Trie * list str) :=
  guarded (fun t => (t, suggest_node prefix limit (root_ t))).

(** [Trie::search_ranked]. *)
Definition search_ranked (query : str) (limit : nat)
    : Trie -> option (Trie * list str) :=
  guarded (fun t => (t, search_ranked_node query limit (root_ t))).

(** A caller's use of the trie: calls made one after the other. *)
Inductive call : Type :=
  | Insert (w : str)
  | Contains (w : str)
  | Suggest (prefix : str) (limit : nat)
  | SearchRanked (query : str) (limit : nat).

Inductive reply : Type :=
  | Done
  | Flag (b : bool)
  | Words (ws : list str).

Definition perform (c : call) (t : Trie) : option (Trie * reply) :=
  match c with
  | Insert w => option_map (fun r => (fst r, Done)) (insert w t)
  | Contains w => option_map (fun r => (fst r, Flag (snd r))) (contains w t)
  | Suggest p l =>
      option_map (fun r => (fst r, Words (snd r))) (suggest p l t)
  | SearchRanked q l =>
      option_map (fun r => (fst r, Words (snd r))) (search_ranked q l t)
  end.

Fixpoint run (cs : list call) (t : Trie) : option (Trie * list reply) :=
  match cs with
  | [] => Some (t, [])
  | c :: cs' =>
      match perform c t with
      | None => None
      | Some (t1, r) =>
          match run cs' t1 with
          | None => None
          | Some (t2, rs) => Some (t2, r :: rs)
          end
      end
  end.

(** The words a sequence of calls inserts, in order. *)
Fixpoint inserted (cs : list call) : list str :=
  match cs with
  | [] => []
  | Insert w :: cs' => w :: inserted cs'
  | _ :: cs' => inserted cs'
  end.

(** The root after inserting [ws] one after the other into an empty trie. *)
Definition build (ws : list str) : TrieNode :=
  fold_left (fun node w => insert_node w node) ws new_node.

End Engine.

(** ** The member functions as operations on the node store

    The same member functions written as the code runs them: statement by
    statement against the node store, through pointers, so that an
    operation that writes and an operation that only reads have the same
    form.  A [TrieNode*] is the path of edges from the root to the node
    (every node but the root is owned by one entry of its parent's map,
    and the root by the trie).  An operation takes the store and returns
    the store it leaves with its result. *)

Definition node_ptr : Type := list ascii.

Definition Store (A : Type) : Type := TrieNode -> TrieNode * A.

Definition store_ret {A : Type} (a : A) : Store A := fun s => (s, a).

Definition store_bind {A B : Type} (m : Store A) (k : A -> Store B)
    : Store B :=
  fun s => let '(s1, a) := m s in k a s1.

Notation "x <- m ;; k" := (store_bind m (fun x => k))
  (at level 61, m at next level, right associativity).

(** [*p]: the node a pointer refers to. *)
Definition deref (p : node_ptr) (s : TrieNode) : TrieNode :=
  match descend p s with
  | Some node => node
  | None => new_node
  end.

(** A write to the node [p] refers to. *)
Fixpoint modify_at (p : node_ptr) (f : TrieNode -> TrieNode) (s : TrieNode)
    : TrieNode :=
  match p with
  | [] => f s
  | c :: p' =>
      mkTrieNode (update c (modify_at p' f) (children s))
                 (is_terminal s) (frequency s)
  end.

Section StoreAccess.

Context {layout : MapLayout}.

(** [node->children.find(c)], then [it->second.get()] unless it is
    [end()]: a read. *)
Definition children_find (node : node_ptr) (c : ascii)
    : Store (option node_ptr) :=
  fun s =>
    (s, match find c (children (deref node s)) with
        | Some _ => Some (node ++ [c])
        | None => None
        end).

(** [auto &next = node->children[c]; if (!next) next =
    std::make_unique<TrieNode>(); next.get()]: a write when the key is
    absent. *)
Definition children_index (node : node_ptr) (c : ascii) : Store node_ptr :=
  fun s =>
    (modify_at node
       (fun n => mkTrieNode (ensured c (children n))
                            (is_terminal n) (frequency n)) s,
     node ++ [c]).

(** The entries [for (const auto &kv : node->children)] visits, in
    iteration order, with [kv.second.get()]: a read. *)
Definition children_entries (node : node_ptr)
    : Store (list (ascii * node_ptr)) :=
  fun s =>
    (s, map (fun kv => (fst kv, node ++ [fst kv])) (children (deref node s))).

(** [node->is_terminal] and [node->frequency] read. *)
Definition get_is_terminal (node : node_ptr) : Store bool :=
  fun s => (s, is_terminal (deref node s)).

Definition get_frequency (node : node_ptr) : Store Z :=
  fun s => (s, frequency (deref node s)).

(** [node->is_terminal = true] and [node->frequency += 1]. *)
Definition set_is_terminal (node : node_ptr) : Store unit :=
  fun s =>
    (modify_at node
       (fun n => mkTrieNode (children n) true (frequency n)) s, tt).

Definition increment_frequency (node : node_ptr) : Store unit :=
  fun s =>
    (modify_at node
       (fun n => mkTrieNode (children n) (is_terminal n)
                            (wrap_u32 (frequency n + 1)%Z)) s, tt).

(** The loop of [Trie::insert], from [node] on. *)
Fixpoint insert_walk (w : str) (node : node_ptr) : Store node_ptr :=
  match w with
  | [] => store_ret node
  | c :: rest =>
      next <- children_index node c ;;
      insert_walk rest next
  end.

(** [Trie::insert] below the lock. *)
Definition insert_store (w : str) : Store unit :=
  node <- insert_walk w [] ;;
  _ <- set_is_terminal node ;;
  increment_frequency node.

(** The loop of [Trie::contains] and of [Trie::suggest], from [node] on:
    [None] when an edge is missing. *)
Fixpoint find_walk (w : str) (node : node_ptr) : Store (option node_ptr) :=
  match w with
  | [] => store_ret (Some node)
  | c :: rest =>
      it <- children_find node c ;;
      match it with
      | None => store_ret None
      | Some next => find_walk rest next
      end
  end.

(** [Trie::contains] below the lock. *)
Definition contains_store (w : str) : Store bool :=
  r <- find_walk w [] ;;
  match r with
  | None => store_ret false
  | Some node => get_is_terminal node
  end.

(** The loop over the entries of a node, left as soon as [stop] holds;
    [None] when a call in the body has not returned. *)
Fixpoint for_entries {A : Type}
    (body : ascii -> node_ptr -> A -> Store (option A)) (stop : A -> bool)
    (kvs : list (ascii * node_ptr)) (out : A) : Store (option A) :=
  match kvs with
  | [] => store_ret (Some out)
  | (k, child) :: kvs' =>
      r <- body k child out ;;
      match r with
      | None => store_ret None
      | Some out' =>
          if stop out' then store_ret (Some out')
          else for_entries body stop kvs' out'
      end
  end.

(** [Trie::collect_suggestions]; [depth] bounds the nesting of the calls,
    and the result is [None] when that is not enough. *)
Fixpoint collect_suggestions_store (depth : nat) (node : node_ptr)
    (current : str) (out : list str) (limit : nat)
    : Store (option (list str)) :=
  match depth with
  | O => store_ret None
  | S depth' =>
      terminal <- get_is_terminal node ;;
      let out1 := if terminal then out ++ [current] else out in
      if terminal && reached limit out1 then store_ret (Some out1)
      else
        kvs <- children_entries node ;;
        for_entries
          (fun k child out =>
             collect_suggestions_store depth' child (current ++ [k]) out limit)
          (reached limit) kvs out1
  end.

(** [Trie::suggest] below the lock. *)
Definition suggest_store (depth : nat) (prefix : str) (limit : nat)
    : Store (option (list str)) :=
  r <- find_walk prefix [] ;;
  match r with
  | None => store_ret (Some [])
  | Some node => collect_suggestions_store depth node prefix [] limit
  end.

(** [Trie::collect_scored]. *)
Fixpoint collect_scored_store (depth : nat) (node : node_ptr)
    (current : str) (out : list ScoredWord) (query : str)
    : Store (option (list ScoredWord)) :=
  match depth with
  | O => store_ret None
  | S depth' =>
      terminal <- get_is_terminal node ;;
      out1 <- (if terminal
               then
                 freq <- get_frequency node ;;
                 store_ret
                   (out ++
                    [mkScoredWord current (score_word query current freq)])
               else store_ret out) ;;
      kvs <- children_entries node ;;
      for_entries
        (fun k child out =>
           collect_scored_store depth' child (current ++ [k]) out query)
        (fun _ => false) kvs out1
  end.

(** [Trie::search_ranked] below the lock. *)
Definition search_ranked_store (depth : nat) (query : str) (limit : nat)
    : Store (option (list str)) :=
  r <- collect_scored_store depth [] [] [] query ;;
  match r with
  | None => store_ret None
  | Some scored =>
      let scored := std_sort ranked_before scored in
      let take :=
        if Nat.eqb limit 0 then length scored
        else Nat.min limit (length scored) in
      store_ret (Some (map word (firstn take scored)))
  end.

(** A member function whose first statement declares a [LockGuard], with
    the body an operation on the node store. *)
Definition guarded_store {A : Type} (body : Store A) (t : Trie)
    : option (Trie * A) :=
  guarded (fun t1 =>
    let '(root', r) := body (root_ t1) in
    (mkTrie root' (thread_safe_ t1) (mtx_ t1), r)) t.

End StoreAccess.



(** ** Specification-side definitions *)

(** The keys of a [children] map, in iteration order. *)
Definition keys (m : list (ascii * TrieNode)) : list ascii := map fst m.

(** The representation invariant of a node: the keys of every [children]
    map are unique (it is a map), every counter is a [std::uint32_t], and a
    node that is not terminal has not been counted. *)
#[warnings="-register-all"]
Inductive wf : TrieNode -> Prop :=
  | wf_node : forall kids terminal freq,
      NoDup (keys kids) ->
      Forall (fun kv => wf (snd kv)) kids ->
      (0 <= freq < uint32_modulus)%Z ->
      (terminal = false -> freq = 0%Z) ->
      wf (mkTrieNode kids terminal freq).

(** Induction on a node with the hypothesis for every child. *)
Section TrieNodeInduction.

Variable P : TrieNode -> Prop.
Hypothesis step : forall kids terminal freq,
  Forall (fun kv => P (snd kv)) kids -> P (mkTrieNode kids terminal freq).

Fixpoint TrieNode_nested_ind (node : TrieNode) : P node :=
  match node with
  | mkTrieNode kids terminal freq =>
      step kids terminal freq
        ((fix each (l : list (ascii * TrieNode))
            : Forall (fun kv => P (snd kv)) l :=
            match l with
            | [] => Forall_nil _
            | kv :: l' =>
                Forall_cons kv (TrieNode_nested_ind (snd kv)) (each l')
            end) kids)
  end.

End TrieNodeInduction.

(** Every word stored at or below [node], each prefixed by [current], in
    the order of a complete depth-first traversal. *)
Fixpoint all_words (node : TrieNode) (current : str) : list str :=
  match node with
  | mkTrieNode kids terminal _ =>
      (if terminal then [current] else []) ++
      flat_map (fun kv => all_words (snd kv) (current ++ [fst kv])) kids
  end.

(** Every stored word with the counter of its node, in the same order. *)
Fixpoint all_entries (node : TrieNode) (current : str) : list (str * Z) :=
  match node with
  | mkTrieNode kids terminal freq =>
      (if terminal then [(current, freq)] else []) ++
      flat_map (fun kv => all_entries (snd kv) (current ++ [fst kv])) kids
  end.

(** [limit] as [suggest] reads it: [0] keeps everything. *)
Definition take (limit : nat) (l : list str) : list str :=
  match limit with
  | O => l
  | S _ => firstn limit l
  end.

(** The counter of the node [w] leads to ([0] when the path is missing). *)
Definition frequency_at (w : str) (root : TrieNode) : Z :=
  match descend w root with
  | Some node => frequency node
  | None => 0%Z
  end.

(** How often [w] occurs in a list of words. *)
Definition occurrences (w : str) (ws : list str) : nat :=
  count_occ str_eq_dec ws w.

(** [w] without its prefix [p], when [p] is a prefix of [w]. *)
Fixpoint strip_prefix (p w : str) : option str :=
  match p, w with
  | [], _ => Some w
  | _ :: _, [] => None
  | a :: p', b :: w' => if Ascii.eqb a b then strip_prefix p' w' else None
  end.

(** The words [suggest] has to choose from: those below the node of
    [prefix], in traversal order. *)
Definition completions (prefix : str) (root : TrieNode) : list str :=
  match descend prefix root with
  | None => []
  | Some node => all_words node prefix
  end.

(** The inserted words that start with [prefix], each once. *)
Definition matches (prefix : str) (ws : list str) : list str :=
  nodup str_eq_dec (filter (is_prefix prefix) ws).

(** What a call answers on a trie whose root is [root], and the root it
    leaves behind: the bodies of the member functions without the lock. *)
Definition answer {layout : MapLayout} (c : call) (root : TrieNode) : reply :=
  match c with
  | Insert _ => Done
  | Contains w => Flag (contains_node w root)
  | Suggest p l => Words (suggest_node p l root)
  | SearchRanked q l => Words (search_ranked_node q l root)
  end.

Definition next_root {layout : MapLayout} (c : call) (root : TrieNode)
    : TrieNode :=
  match c with
  | Insert w => insert_node w root
  | _ => root
  end.

Fixpoint answers {layout : MapLayout} (cs : list call) (root : TrieNode)
    : list reply :=
  match cs with
  | [] => []
  | c :: cs' => answer c root :: answers cs' (next_root c root)
  end.

(** What one operation may do to the node store of [t], leaving [t']:
    every node stays where it is, keeps a set [is_terminal], and keeps its
    [frequency] or, when the operation inserts the word of its path, has it
    advanced by one modulo [2^32]; a counter is non-zero only on a terminal
    node; and a node that appears is new, with [frequency] 0, or the new
    end of the inserted word, with [frequency] 1. *)
Definition grows (c : call) (t t' : Trie) : Prop :=
  (forall path node,
      descend path (root_ t) = Some node ->
      exists node',
        descend path (root_ t') = Some node' /\
        (is_terminal node = true -> is_terminal node' = true) /\
        (frequency node' = frequency node \/
         c = Insert path /\
         frequency node' = wrap_u32 (frequency node + 1)) /\
        (frequency node < uint32_max -> frequency node <= frequency node') /\
        (0 <= frequency node) /\
        (0 < frequency node -> is_terminal node = true))%Z /\
  (forall path node',
      descend path (root_ t) = None ->
      descend path (root_ t') = Some node' ->
      frequency node' = 0%Z /\ is_terminal node' = false \/
      c = Insert path /\ frequency node' = 1%Z /\ is_terminal node' = true).

(** The recurrence of the edit distance, cell by cell: [cell a b i j] is
    the distance between the first [i] units of [a] and the first [j]
    units of [b], over unbounded integers. *)
Definition cost (x y : ascii) : Z := if Ascii.eqb x y then 0%Z else 1%Z.

Fixpoint cell (a b : str) (i : nat) : nat -> Z :=
  match i with
  | O => fun j => Z.of_nat j
  | S i' =>
      fix row (j : nat) : Z :=
        match j with
        | O => Z.of_nat (S i')
        | S j' =>
            min3 (cell a b i' (S j') + 1)%Z
                 (row j' + 1)%Z
                 (cell a b i' j' + cost (char_at a i') (char_at b j'))%Z
        end
  end.

(** A row of the table: [n + 1] entries, the cells of line [i]. *)
Definition row_ok (a b : str) (n i : nat) (row : list Z) : Prop :=
  length row = n + 1 /\ forall j, j <= n -> vget row j = cell a b i j.

(** The order of the binary64 values that are numbers, as a key compared
    lexicographically: the sign class, then the exponent, then the
    mantissa (both negated below zero). *)
Definition sf_key (x : spec_float) : Z * Z * Z :=
  match x with
  | S754_infinity true => (-2, 0, 0)%Z
  | S754_finite true m e => (-1, - e, Z.neg m)%Z
  | S754_zero _ => (0, 0, 0)%Z
  | S754_nan => (0, 0, 0)%Z
  | S754_finite false m e => (1, e, Z.pos m)%Z
  | S754_infinity false => (2, 0, 0)%Z
  end.

Definition lt3 (a b : Z * Z * Z) : Prop :=
  (fst (fst a) < fst (fst b) \/
   fst (fst a) = fst (fst b) /\
   (snd (fst a) < snd (fst b) \/
    snd (fst a) = snd (fst b) /\ snd a < snd b))%Z.

(** [a] may stand before [b] in the ranking: [a]'s score is not the lower
    one, and if the scores are equal [b]'s word is not the smaller one. *)
Definition in_rank_order (a b : ScoredWord) : Prop :=
  (score a <? score b)%float = false /\
  ((score a =? score b)%float = true -> str_ltb (word b) (word a) = false).

(** [a] stands strictly before [b]: a higher score, or an equal score and
    the smaller word. *)
Definition outranks (a b : ScoredWord) : Prop :=
  (score b <? score a)%float = true \/
  (score a =? score b)%float = true /\ str_ltb (word a) (word b) = true.

(** A stored word with its counter, scored against [query]. *)
Definition score_entry (query : str) (e : str * Z) : ScoredWord :=
  mkScoredWord (fst e) (score_word query (fst e) (snd e)).

(** A binary64 value that is a number with sign bit [s]. *)
Definition sf_signed (s : bool) (x : spec_float) : Prop :=
  match x with
  | S754_zero s' | S754_infinity s' | S754_finite s' _ _ => s' = s
  | S754_nan => False
  end.

(** The structure of a node store: the nodes, their edges in iteration
    order and their [is_terminal] flags, without the counters. *)
Fixpoint shape (node : TrieNode) : TrieNode :=
  match node with
  | mkTrieNode kids terminal _ =>
      mkTrieNode (map (fun kv => (fst kv, shape (snd kv))) kids) terminal 0%Z
  end.

(** The store below a node once the loop of [insert] has walked [w]: the
    missing edges are there, nothing is marked yet. *)
Fixpoint ensure_path {layout : MapLayout} (w : str) (node : TrieNode)
    : TrieNode :=
  match w with
  | [] => node
  | c :: rest =>
      mkTrieNode (update c (ensure_path rest) (ensured c (children node)))
                 (is_terminal node) (frequency node)
  end.

(** The number of nodes on the longest path down from a node: how deep
    the calls of a traversal nest. *)
Fixpoint height (node : TrieNode) : nat :=
  match node with
  | mkTrieNode kids _ _ => S (list_max (map (fun kv => height (snd kv)) kids))
  end.

(** The number of nodes of a node store: what the trie holds in memory. *)
Fixpoint node_count (node : TrieNode) : nat :=
  match node with
  | mkTrieNode kids _ _ =>
      S (list_sum (map (fun kv => node_count (snd kv)) kids))
  end.

(** The code units of [w] beyond the longest prefix of [w] that has a
    path below [node]. *)
Fixpoint missing (w : str) (node : TrieNode) : nat :=
  match w with
  | [] => 0
  | c :: rest =>
      match find c (children node) with
      | Some next => missing rest next
      | None => length w
      end
  end.

(** The edit distance of the specification: the cell of the recurrence
    that stands for the whole of [a] and the whole of [b]. *)
Definition edit_distance (a b : str) : Z := cell a b (length a) (length b).

(** The score of the specification for a word [w] with counter [f] against
    the query [q], from the edit distance of the specification, evaluated
    in binary64 arithmetic. *)
Definition formula_score (q w : str) (f : Z) : float :=
  (1.0 / (1.0 + double_of_int (edit_distance q w))
   + double_of_size (length w) * 0.02
   + double_of_u32 f * 0.05)%float.

(** ** Rounding to binary64 *)

(** What [shr_1] applied [k] times to the record of the number [twoM / 2]
    holds: the bits shifted out are the round bit and, below it, [t], of
    which the sticky bit records whether it is zero. *)
Definition shr_inv (k twoM : Z) (mrs : shr_record) : Prop :=
  exists t : Z,
    (twoM = 2 ^ (k + 1) * shr_m mrs + 2 ^ k * Z.b2z (shr_r mrs) + t /\
     0 <= t < 2 ^ k /\
     (shr_s mrs = true <-> 0 < t) /\
     0 <= shr_m mrs)%Z.

(** A mantissa of exactly 53 bits: that of a normal number. *)
Definition mant53 (m : positive) : Prop := (2 ^ 52 <= Z.pos m < 2 ^ 53)%Z.

(** The rational number a finite positive binary64 value stands for. *)
Definition sf_val (m : positive) (e : Z) : Q := (inject_Z (Z.pos m) * 2 ^ e)%Q.

(** Half the distance between [1.0] and the next binary64 number. *)
Definition unit_roundoff : Q := (1 # 9007199254740992)%Q.

(** [v] is within a relative distance of [2^-53] of [x]. *)
Definition near (x v : Q) : Prop :=
  (x * (1 - unit_roundoff) <= v /\ v <= x * (1 + unit_roundoff))%Q.

(** The constants of [score_word] as binary64 values: [1.0], [0.02] and
    [0.05] rounded to nearest. *)
Definition sf_one : spec_float := S754_finite false 4503599627370496 (-52).
Definition sf_len_weight : spec_float :=
  S754_finite false 5764607523034235 (-58).
Definition sf_freq_weight : spec_float :=
  S754_finite false 7205759403792794 (-57).

(** The score of a word against itself, term by term: [1.0 + len_bonus]
    for a word of [n] code units, and [freq_bonus] for the counter [f]. *)
Definition size_part (n : Z) : spec_float :=
  SF64add sf_one (SF64mul (Prim2SF (of_uint63 (Uint63.of_Z n))) sf_len_weight).
Definition freq_part (f : Z) : spec_float :=
  SF64mul (Prim2SF (of_uint63 (Uint63.of_Z f))) sf_freq_weight.

(** ** The maps of the node store *)

Section MapLemmas.

Lemma find_none_keys : forall c m, find c m = None <-> ~ In c (keys m).
Proof.
  induction m as [|[k v] m IH]; simpl.
  - tauto.
  - destruct (Ascii.eqb k c) eqn:E.
    + apply Ascii.eqb_eq in E. split; [discriminate | intros H; exfalso; auto].
    + apply Ascii.eqb_neq in E. rewrite IH. tauto.
Qed.

Lemma find_some_in : forall c v m, find c m = Some v -> In (c, v) m.
Proof.
  induction m as [|[k x] m IH]; simpl; [discriminate|].
  destruct (Ascii.eqb k c) eqn:E.
  - apply Ascii.eqb_eq in E. intros [= ->]. subst. now left.
  - auto.
Qed.

Lemma in_find_some : forall c v m,
  NoDup (keys m) -> In (c, v) m -> find c m = Some v.
Proof.
  induction m as [|[k x] m IH]; simpl; [tauto|].
  intros ND [H|H].
  - injection H as -> ->. now rewrite Ascii.eqb_refl.
  - inversion ND as [|? ? Hk ND']; subst.
    destruct (Ascii.eqb k c) eqn:E.
    + apply Ascii.eqb_eq in E. subst. exfalso. apply Hk.
      change c with (fst (c, v)). now apply in_map.
    + auto.
Qed.

Lemma find_permutation : forall c m m',
  NoDup (keys m) -> Permutation m m' -> find c m = find c m'.
Proof.
  intros c m m' ND HP.
  assert (ND' : NoDup (keys m')).
  { eapply Permutation_NoDup; [apply Permutation_map, HP | exact ND]. }
  destruct (find c m) as [v|] eqn:E.
  - symmetry. apply in_find_some; [exact ND'|].
    eapply Permutation_in; [exact HP|]. now apply find_some_in.
  - symmetry. apply find_none_keys. apply find_none_keys in E.
    intros H. apply E. eapply Permutation_in; [|exact H].
    apply Permutation_map, Permutation_sym, HP.
Qed.

Lemma find_update_same : forall c f m,
  find c (update c f m) = option_map f (find c m).
Proof.
  induction m as [|[k v] m IH]; simpl; [reflexivity|].
  destruct (Ascii.eqb k c) eqn:E; simpl; rewrite E; auto.
Qed.

Lemma find_update_other : forall c c' f m,
  c' <> c -> find c' (update c f m) = find c' m.
Proof.
  induction m as [|[k v] m IH]; simpl; intros Hn; [reflexivity|].
  destruct (Ascii.eqb k c) eqn:E; simpl.
  - apply Ascii.eqb_eq in E. subst.
    destruct (Ascii.eqb c c') eqn:E'; [|reflexivity].
    apply Ascii.eqb_eq in E'. congruence.
  - rewrite IH by assumption. reflexivity.
Qed.

Lemma keys_update : forall c f m, keys (update c f m) = keys m.
Proof.
  induction m as [|[k v] m IH]; simpl; [reflexivity|].
  destruct (Ascii.eqb k c); simpl; [reflexivity|]. now rewrite IH.
Qed.

Lemma Forall_update : forall (P : TrieNode -> Prop) c f m,
  (forall v, P v -> P (f v)) ->
  Forall (fun kv => P (snd kv)) m ->
  Forall (fun kv => P (snd kv)) (update c f m).
Proof.
  intros P c f m Hf. induction 1 as [|[k v] m Hv Hm IH]; simpl.
  - constructor.
  - destruct (Ascii.eqb k c); constructor; simpl in *; auto.
Qed.

Context {layout : MapLayout}.

Lemma ensured_keys_nodup : forall c m,
  NoDup (keys m) -> NoDup (keys (ensured c m)).
Proof.
  intros c m ND. unfold ensured. destruct (find c m) eqn:E; [exact ND|].
  eapply Permutation_NoDup.
  - apply Permutation_map, Permutation_sym, link_perm.
  - simpl. constructor; [now apply find_none_keys | exact ND].
Qed.

Lemma ensured_Forall : forall (P : TrieNode -> Prop) c m,
  P new_node ->
  Forall (fun kv => P (snd kv)) m ->
  Forall (fun kv => P (snd kv)) (ensured c m).
Proof.
  intros P c m H0 Hm. unfold ensured. destruct (find c m); [exact Hm|].
  eapply Permutation_Forall.
  - apply Permutation_sym, link_perm.
  - constructor; assumption.
Qed.

Lemma find_ensured_same : forall c m,
  NoDup (keys m) ->
  find c (ensured c m) =
  Some (match find c m with Some v => v | None => new_node end).
Proof.
  intros c m ND. unfold ensured. destruct (find c m) eqn:E; [exact E|].
  rewrite <- (@find_permutation c ((c, new_node) :: m) (link c m)).
  - simpl. now rewrite Ascii.eqb_refl.
  - simpl. constructor; [now apply find_none_keys | exact ND].
  - apply Permutation_sym, link_perm.
Qed.

Lemma find_ensured_other : forall c c' m,
  NoDup (keys m) -> c' <> c -> find c' (ensured c m) = find c' m.
Proof.
  intros c c' m ND Hn. unfold ensured. destruct (find c m) eqn:E; [reflexivity|].
  rewrite <- (@find_permutation c' ((c, new_node) :: m) (link c m)).
  - simpl. destruct (Ascii.eqb c c') eqn:E'; [|reflexivity].
    apply Ascii.eqb_eq in E'. congruence.
  - simpl. constructor; [now apply find_none_keys | exact ND].
  - apply Permutation_sym, link_perm.
Qed.

End MapLemmas.

(** ** Insertion and lookup on nodes *)

Section NodeLemmas.

Context {layout : MapLayout}.

Lemma wf_new_node : wf new_node.
Proof.
  constructor; simpl;
    [constructor | constructor | unfold uint32_modulus; lia | reflexivity].
Qed.

Lemma wf_find : forall c node next,
  wf node -> find c (children node) = Some next -> wf next.
Proof.
  intros c node next Hwf Hfind. inversion Hwf as [kids t f ND Hall Hf Ht]; subst.
  simpl in Hfind. apply find_some_in in Hfind.
  rewrite Forall_forall in Hall. exact (Hall _ Hfind).
Qed.

Lemma wf_insert_node : forall w node, wf node -> wf (insert_node w node).
Proof.
  induction w as [|c rest IH]; intros node Hwf;
    inversion Hwf as [kids t f ND Hall Hf Ht]; subst; simpl.
  - constructor; try assumption; [|discriminate].
    unfold wrap_u32, uint32_modulus. apply Z.mod_pos_bound. lia.
  - constructor; try assumption.
    + rewrite keys_update. now apply ensured_keys_nodup.
    + apply Forall_update; [exact IH|].
      apply ensured_Forall; [exact wf_new_node | exact Hall].
Qed.

Lemma wf_fold_insert : forall ws node,
  wf node -> wf (fold_left (fun n w => insert_node w n) ws node).
Proof.
  induction ws as [|w ws IH]; intros node Hwf; simpl; [exact Hwf|].
  apply IH, wf_insert_node, Hwf.
Qed.

Lemma wf_build : forall ws, wf (build ws).
Proof. intros ws. apply wf_fold_insert, wf_new_node. Qed.

Lemma wf_descend : forall p node x,
  wf node -> descend p node = Some x -> wf x.
Proof.
  induction p as [|c p IH]; intros node x Hwf; simpl.
  - intros [= ->]. exact Hwf.
  - destruct (find c (children node)) as [next|] eqn:E; [|discriminate].
    apply IH. eapply wf_find; eassumption.
Qed.

Lemma contains_new_node : forall v, contains_node v new_node = false.
Proof. destruct v; reflexivity. Qed.

(** After [insert(w)] the node store contains [w] and what it contained. *)
Lemma contains_insert_node : forall w v node,
  wf node ->
  (contains_node v (insert_node w node) = true <->
   v = w \/ contains_node v node = true).
Proof.
  induction w as [|c rest IH]; intros v node Hwf;
    inversion Hwf as [kids t f ND Hall Hf Ht]; subst; simpl.
  - destruct v as [|a v']; simpl.
    + tauto.
    + split; [auto | intros [H|H]; [discriminate | exact H]].
  - destruct v as [|a v']; simpl.
    + split; [auto | intros [H|H]; [discriminate | exact H]].
    + destruct (ascii_dec a c) as [->|Hac].
      * rewrite find_update_same, find_ensured_same by exact ND. simpl.
        destruct (find c kids) as [next|] eqn:E.
        -- rewrite IH by (eapply wf_find; [exact Hwf | exact E]).
           split; (intros [H|H]; [left | right; exact H]); congruence.
        -- rewrite IH by exact wf_new_node. rewrite contains_new_node.
           split; (intros [H|H]; [left | discriminate]); congruence.
      * rewrite find_update_other, find_ensured_other by assumption.
        split; [auto | intros [H|H]; [congruence | exact H]].
Qed.

Lemma contains_fold_insert : forall ws v node,
  wf node ->
  (contains_node v (fold_left (fun n w => insert_node w n) ws node) = true <->
   In v ws \/ contains_node v node = true).
Proof.
  induction ws as [|w ws IH]; intros v node Hwf; simpl.
  - tauto.
  - rewrite IH by (apply wf_insert_node, Hwf).
    rewrite contains_insert_node by exact Hwf.
    split; [intros [H|[H|H]] | intros [[H|H]|H]]; auto.
Qed.

(** The words a trie contains are the words that were inserted. *)
Lemma contains_build : forall ws v,
  contains_node v (build ws) = true <-> In v ws.
Proof.
  intros ws v. unfold build. rewrite contains_fold_insert by exact wf_new_node.
  rewrite contains_new_node. split; [intros [H|H]; [exact H | discriminate] | auto].
Qed.

Lemma descend_contains : forall p node x q,
  descend p node = Some x ->
  contains_node (p ++ q) node = contains_node q x.
Proof.
  induction p as [|c p IH]; intros node x q; simpl.
  - now intros [= ->].
  - destruct (find c (children node)); [apply IH | discriminate].
Qed.

Lemma descend_none_contains : forall p node q,
  descend p node = None -> contains_node (p ++ q) node = false.
Proof.
  induction p as [|c p IH]; intros node q; simpl; [discriminate|].
  destruct (find c (children node)); [apply IH | reflexivity].
Qed.

Lemma is_prefix_app : forall p w,
  is_prefix p w = true <-> exists q, w = p ++ q.
Proof.
  induction p as [|a p IH]; intros w; simpl.
  - split; [intros _; now exists w | reflexivity].
  - destruct w as [|b w].
    + split; [discriminate | intros [q [=]]].
    + rewrite andb_true_iff, Ascii.eqb_eq, IH. split.
      * intros [-> [q ->]]. now exists q.
      * intros [q [= -> ->]]. split; [reflexivity | now exists q].
Qed.

End NodeLemmas.

(** ** The depth-first traversal of [suggest] *)

Section Traversal.

Lemma reached_true : forall limit out,
  reached limit out = true <-> limit <> 0 /\ limit <= length out.
Proof.
  intros limit out. unfold reached.
  rewrite andb_true_iff, negb_true_iff, Nat.eqb_neq, Nat.leb_le. tauto.
Qed.

Lemma reached_false : forall limit out,
  reached limit out = false <-> limit = 0 \/ length out < limit.
Proof.
  intros limit out. unfold reached.
  rewrite andb_false_iff, negb_false_iff, Nat.eqb_eq, Nat.leb_gt. tauto.
Qed.

Lemma take_all : forall limit l,
  limit = 0 \/ length l <= limit -> take limit l = l.
Proof.
  intros [|k] l H; simpl; [reflexivity|].
  change (firstn (S k) l = l). apply firstn_all2. lia.
Qed.

Lemma take_app_reached : forall limit l r,
  limit <> 0 -> limit <= length l -> take limit (l ++ r) = take limit l.
Proof.
  intros [|k] l r H0 Hlen; [congruence|]. unfold take.
  rewrite firstn_app. replace (S k - length l) with 0 by lia.
  simpl. apply app_nil_r.
Qed.

Lemma length_take : forall limit l,
  length (take limit l) =
  if Nat.eqb limit 0 then length l else Nat.min limit (length l).
Proof.
  intros [|k] l; [reflexivity|]. unfold take. now rewrite length_firstn.
Qed.

Lemma take_incl : forall limit l w, In w (take limit l) -> In w l.
Proof.
  intros [|k] l w; unfold take; [auto|]. intros H.
  rewrite <- (firstn_skipn (S k) l). apply in_or_app. now left.
Qed.

Lemma NoDup_take : forall limit l, NoDup l -> NoDup (take limit l).
Proof.
  intros [|k] l H; unfold take; [exact H|].
  rewrite <- (firstn_skipn (S k) l) in H. eapply NoDup_app_remove_r, H.
Qed.

(** The loop over the children in [collect_suggestions], given what the
    recursive calls return. *)
Lemma for_children_take : forall limit current kids,
  Forall (fun kv => forall current out,
            limit = 0 \/ length out < limit ->
            collect_suggestions (snd kv) current out limit =
            take limit (out ++ all_words (snd kv) current)) kids ->
  forall out,
    limit = 0 \/ length out < limit ->
    for_children
      (fun k child out => collect_suggestions child (current ++ [k]) out limit)
      (reached limit) kids out =
    take limit
      (out ++ flat_map (fun kv => all_words (snd kv) (current ++ [fst kv])) kids).
Proof.
  intros limit current kids Hkids.
  induction Hkids as [|[k child] kids Hchild Hkids IH]; intros out Hout; simpl.
  - rewrite app_nil_r. symmetry. apply take_all. lia.
  - simpl in Hchild. rewrite Hchild by exact Hout.
    set (A := all_words child (current ++ [k])).
    destruct (reached limit (take limit (out ++ A))) eqn:R.
    + apply reached_true in R. destruct R as [H0 Hlen].
      rewrite length_take in Hlen.
      destruct (Nat.eqb limit 0) eqn:E0; [apply Nat.eqb_eq in E0; congruence|].
      rewrite app_assoc. symmetry. apply take_app_reached; [exact H0 | lia].
    + apply reached_false in R. rewrite length_take in R.
      assert (Hall : take limit (out ++ A) = out ++ A).
      { apply take_all. destruct (Nat.eqb limit 0) eqn:E0.
        - apply Nat.eqb_eq in E0. now left.
        - apply Nat.eqb_neq in E0. right. lia. }
      rewrite Hall, IH, app_assoc; [reflexivity|].
      destruct (Nat.eqb limit 0) eqn:E0.
      * apply Nat.eqb_eq in E0. now left.
      * apply Nat.eqb_neq in E0. right.
        assert (length (out ++ A) <= limit) by lia. lia.
Qed.

(** [collect_suggestions] appends the words below [node] in traversal order
    and stops when [out] holds [limit] of them. *)
Lemma collect_suggestions_take : forall node current out limit,
  limit = 0 \/ length out < limit ->
  collect_suggestions node current out limit =
  take limit (out ++ all_words node current).
Proof.
  intros node current out limit. revert node current out.
  induction node as [kids terminal freq IH] using TrieNode_nested_ind.
  intros current out Hout. simpl.
  destruct terminal; simpl.
  - destruct (reached limit (out ++ [current])) eqn:R.
    + apply reached_true in R. destruct R as [H0 Hlen].
      rewrite length_app in Hlen. simpl in Hlen.
      match goal with
      | |- _ = take _ (out ++ current :: ?r) =>
          change (out ++ current :: r) with (out ++ [current] ++ r)
      end.
      rewrite (app_assoc out [current]).
      rewrite take_app_reached;
        [| exact H0 | rewrite length_app; simpl; exact Hlen].
      symmetry. apply take_all. rewrite length_app. simpl. lia.
    + rewrite for_children_take; [now rewrite <- app_assoc | exact IH |].
      now apply reached_false.
  - apply for_children_take; assumption.
Qed.

End Traversal.

(** ** What the traversal enumerates *)

Section Enumeration.

Lemma in_all_words : forall node current w,
  wf node ->
  (In w (all_words node current) <->
   exists p, w = current ++ p /\ contains_node p node = true).
Proof.
  intros node. induction node as [kids terminal freq IH] using TrieNode_nested_ind.
  intros current w Hwf. inversion Hwf as [? ? ? ND Hall Hf Ht]; subst.
  rewrite Forall_forall in IH, Hall.
  simpl. rewrite in_app_iff, in_flat_map. split.
  - intros [H|[[k child] [Hin H]]].
    + destruct terminal; [|contradiction]. destruct H as [<-|[]].
      exists []. now rewrite app_nil_r.
    + simpl in H. apply (IH _ Hin) in H; [|exact (Hall _ Hin)].
      destruct H as [p [-> Hp]]. exists (k :: p). split.
      * now rewrite <- app_assoc.
      * simpl. now rewrite (@in_find_some k child kids ND Hin).
  - intros [[|k p] [-> Hp]]; simpl in Hp.
    + left. rewrite Hp, app_nil_r. now left.
    + right. destruct (find k kids) as [child|] eqn:E; [|discriminate].
      apply find_some_in in E. exists (k, child). split; [exact E|].
      simpl. apply (IH _ E); [exact (Hall _ E)|].
      exists p. split; [now rewrite <- app_assoc | exact Hp].
Qed.

Lemma all_words_extend : forall node current w,
  In w (all_words node current) -> exists p, w = current ++ p.
Proof.
  intros node. induction node as [kids terminal freq IH] using TrieNode_nested_ind.
  intros current w. rewrite Forall_forall in IH.
  simpl. rewrite in_app_iff, in_flat_map.
  intros [H|[[k child] [Hin H]]].
  - destruct terminal; [|contradiction]. destruct H as [<-|[]].
    exists []. now rewrite app_nil_r.
  - simpl in H. apply (IH _ Hin) in H. destruct H as [p ->].
    exists (k :: p). now rewrite <- app_assoc.
Qed.

Lemma NoDup_all_words : forall node current,
  wf node -> NoDup (all_words node current).
Proof.
  intros node. induction node as [kids terminal freq IH] using TrieNode_nested_ind.
  intros current Hwf. inversion Hwf as [? ? ? ND Hall Hf Ht]; subst. simpl.
  apply NoDup_app.
  - destruct terminal; repeat constructor. intros [].
  - clear Hwf Hf. induction kids as [|[k child] kids IHk]; simpl; [constructor|].
    inversion ND as [|? ? Hk ND']; inversion Hall as [|? ? Hc Hall'];
      inversion IH as [|? ? IHc IH']; subst.
    apply NoDup_app.
    + apply IHc. exact Hc.
    + apply IHk; assumption.
    + intros w Hw Hw'. apply all_words_extend in Hw. destruct Hw as [p ->].
      apply in_flat_map in Hw'. destruct Hw' as [[k' child'] [Hin Hw']].
      apply all_words_extend in Hw'. destruct Hw' as [p' Heq]. simpl in Heq.
      rewrite <- !app_assoc in Heq. apply app_inv_head in Heq.
      injection Heq as -> _. apply Hk.
      change k' with (fst (k', child')). now apply in_map.
  - intros w Hw Hw'. destruct terminal; [|contradiction].
    destruct Hw as [<-|[]]. apply in_flat_map in Hw'.
    destruct Hw' as [[k child] [_ Hw']]. apply all_words_extend in Hw'.
    destruct Hw' as [p Heq]. simpl in Heq.
    apply (f_equal (@length ascii)) in Heq.
    rewrite !length_app in Heq. simpl in Heq. lia.
Qed.

Lemma suggest_node_take : forall prefix limit root,
  suggest_node prefix limit root = take limit (completions prefix root).
Proof.
  intros prefix limit root. unfold suggest_node, completions.
  destruct (descend prefix root) as [node|].
  - rewrite collect_suggestions_take; [reflexivity|].
    destruct limit; [now left | right; simpl; lia].
  - now destruct limit.
Qed.

Lemma in_completions : forall prefix root w,
  wf root ->
  (In w (completions prefix root) <->
   is_prefix prefix w = true /\ contains_node w root = true).
Proof.
  intros prefix root w Hwf. unfold completions. rewrite is_prefix_app.
  destruct (descend prefix root) as [node|] eqn:E.
  - rewrite in_all_words by (eapply wf_descend; eassumption). split.
    + intros [p [-> Hp]]. split; [now exists p|].
      now rewrite (@descend_contains prefix root node p E).
    + intros [[p ->] Hc]. exists p. split; [reflexivity|].
      now rewrite <- (@descend_contains prefix root node p E).
  - split; [intros [] | intros [[p ->] Hc]].
    now rewrite descend_none_contains in Hc.
Qed.

Lemma NoDup_completions : forall prefix root,
  wf root -> NoDup (completions prefix root).
Proof.
  intros prefix root Hwf. unfold completions.
  destruct (descend prefix root) as [node|] eqn:E; [|constructor].
  apply NoDup_all_words. eapply wf_descend; eassumption.
Qed.

Context {layout : MapLayout}.

Lemma in_matches : forall prefix ws w,
  In w (matches prefix ws) <-> is_prefix prefix w = true /\ In w ws.
Proof.
  intros prefix ws w. unfold matches. rewrite nodup_In, filter_In. tauto.
Qed.

(** On a trie built by insertions, the candidates of [suggest] are the
    inserted words that start with the prefix, each once. *)
Lemma completions_matches : forall prefix ws,
  Permutation (completions prefix (build ws)) (matches prefix ws).
Proof.
  intros prefix ws. apply NoDup_Permutation.
  - apply NoDup_completions, wf_build.
  - apply NoDup_nodup.
  - intros w. rewrite in_completions by apply wf_build.
    rewrite contains_build, in_matches. tauto.
Qed.

End Enumeration.

(** ** The public operations in sequential use *)

Section Sequential.

Context {layout : MapLayout}.

Lemma insert_free : forall w root ts,
  insert w (mkTrie root ts false) =
  Some (mkTrie (insert_node w root) ts false, tt).
Proof. intros w root [|]; reflexivity. Qed.

Lemma contains_free : forall w root ts,
  contains w (mkTrie root ts false) =
  Some (mkTrie root ts false, contains_node w root).
Proof. intros w root [|]; reflexivity. Qed.

Lemma suggest_free : forall p l root ts,
  suggest p l (mkTrie root ts false) =
  Some (mkTrie root ts false, suggest_node p l root).
Proof. intros p l root [|]; reflexivity. Qed.

Lemma search_ranked_free : forall q l root ts,
  search_ranked q l (mkTrie root ts false) =
  Some (mkTrie root ts false, search_ranked_node q l root).
Proof. intros q l root [|]; reflexivity. Qed.

Lemma perform_free : forall c root ts,
  perform c (mkTrie root ts false) =
  Some (mkTrie (next_root c root) ts false, answer c root).
Proof.
  intros [w|w|p l|q l] root ts; simpl.
  - now rewrite insert_free.
  - now rewrite contains_free.
  - now rewrite suggest_free.
  - now rewrite search_ranked_free.
Qed.

Lemma fold_next_root : forall cs root,
  fold_left (fun r c => next_root c r) cs root =
  fold_left (fun n w => insert_node w n) (inserted cs) root.
Proof.
  induction cs as [|[w|w|p l|q l] cs IH]; intros root; simpl; auto.
Qed.

Lemma run_free : forall cs root ts,
  run cs (mkTrie root ts false) =
  Some (mkTrie (fold_left (fun r c => next_root c r) cs root) ts false,
        answers cs root).
Proof.
  induction cs as [|c cs IH]; intros root ts; simpl; [reflexivity|].
  rewrite perform_free, IH. reflexivity.
Qed.

(** Calls made one after the other on a new trie all return, and leave the
    trie of the words inserted so far with its mutex free. *)
Lemma run_new : forall ts cs,
  run cs (Trie_new ts) =
  Some (mkTrie (build (inserted cs)) ts false, answers cs new_node).
Proof.
  intros ts cs. unfold Trie_new. rewrite run_free, fold_next_root. reflexivity.
Qed.

Lemma run_new_inv : forall ts cs t rs,
  run cs (Trie_new ts) = Some (t, rs) ->
  t = mkTrie (build (inserted cs)) ts false.
Proof. intros ts cs t rs H. rewrite run_new in H. now injection H as <- _. Qed.

Lemma inserted_app : forall cs cs',
  inserted (cs ++ cs') = inserted cs ++ inserted cs'.
Proof.
  induction cs as [|[w|w|p l|q l] cs IH]; intros cs'; simpl; rewrite ?IH; auto.
Qed.

Lemma contains_node_bool : forall ws v,
  contains_node v (build ws) = if in_dec str_eq_dec v ws then true else false.
Proof.
  intros ws v. destruct (in_dec str_eq_dec v ws) as [H|H].
  - now apply contains_build.
  - destruct (contains_node v (build ws)) eqn:E; [|reflexivity].
    now apply contains_build in E.
Qed.

(** C1. On the trie [t] reached from a new trie by any calls [cs]:
    [insert(W)] followed by [contains(W)] returns true; [contains(V)]
    returns true for every word an earlier call inserted, and false for
    every word no call inserted (a proper prefix of an inserted word
    included). *)
Theorem insert_contains_round_trip : forall ts cs t rs,
  run cs (Trie_new ts) = Some (t, rs) ->
  (forall W, exists t',
      insert W t = Some (t', tt) /\ contains W t' = Some (t', true)) /\
  (forall V, In V (inserted cs) -> contains V t = Some (t, true)) /\
  (forall V, ~ In V (inserted cs) -> contains V t = Some (t, false)).
Proof.
  intros ts cs t rs H. apply run_new_inv in H. subst t. repeat split.
  - intros W. eexists. split; [apply insert_free|].
    rewrite contains_free. do 2 f_equal.
    apply contains_insert_node; [apply wf_build | now left].
  - intros V HV. rewrite contains_free, contains_node_bool.
    now destruct (in_dec str_eq_dec V (inserted cs)).
  - intros V HV. rewrite contains_free, contains_node_bool.
    now destruct (in_dec str_eq_dec V (inserted cs)).
Qed.

(** C2. On the trie reached by any calls, [suggest(P, L)] returns nothing
    when no inserted word starts with [P]; with [L = 0] it returns the
    inserted words that start with [P], each once; with [L > 0] it returns
    [min(L, number of such words)] of them, each once. *)
Theorem suggest_returns_matches : forall ts cs P L t rs,
  run cs (Trie_new ts) = Some (t, rs) ->
  exists out,
    suggest P L t = Some (t, out) /\
    ((forall w, In w (inserted cs) -> is_prefix P w = false) -> out = []) /\
    (L = 0 ->
     NoDup out /\
     forall w, In w out <-> In w (inserted cs) /\ is_prefix P w = true) /\
    (0 < L ->
     length out = Nat.min L (length (matches P (inserted cs))) /\
     NoDup out /\
     forall w, In w out -> In w (inserted cs) /\ is_prefix P w = true).
Proof.
  intros ts cs P L t rs H. apply run_new_inv in H. subst t.
  exists (suggest_node P L (build (inserted cs))).
  split; [apply suggest_free|]. rewrite suggest_node_take.
  pose proof (completions_matches P (inserted cs)) as HP.
  pose proof (@NoDup_completions P _ (wf_build (inserted cs))) as ND.
  assert (Hin : forall w, In w (completions P (build (inserted cs))) <->
                          In w (inserted cs) /\ is_prefix P w = true).
  { intros w. rewrite in_completions by apply wf_build.
    rewrite contains_build. tauto. }
  split; [|split].
  - intros Hnone.
    destruct (completions P (build (inserted cs))) as [|w l] eqn:E.
    + now destruct L.
    + assert (Hw : In w (w :: l)) by now left.
      apply Hin in Hw. destruct Hw as [Hw Hp].
      rewrite (Hnone w Hw) in Hp. discriminate.
  - intros ->. simpl. split; [exact ND | exact Hin].
  - intros HL. split; [|split].
    + rewrite length_take, (Permutation_length HP).
      destruct (Nat.eqb L 0) eqn:E; [apply Nat.eqb_eq in E; lia | reflexivity].
    + now apply NoDup_take.
    + intros w Hw. apply Hin. eapply take_incl. eassumption.
Qed.




End Sequential.

(** ** Instances on the tries of the test suite *)

(** [test_insert_and_contains]: alice, alicia and bob are contained, the
    prefix ali and the longer bobby are not (until inserted). *)
Lemma insert_contains_round_trip_witness :
  exists t rs,
    run (layout := front_layout)
        [Insert (lit "alice"); Insert (lit "alicia"); Insert (lit "bob")]
        (Trie_new false) = Some (t, rs) /\
    (exists t',
        insert (layout := front_layout) (lit "bobby") t = Some (t', tt) /\
        contains (lit "bobby") t' = Some (t', true)) /\
    contains (lit "alice") t = Some (t, true) /\
    contains (lit "ali") t = Some (t, false).
Proof.
  eexists. eexists. split; [vm_compute; reflexivity|].
  destruct (insert_contains_round_trip (layout := front_layout) false
              [Insert (lit "alice"); Insert (lit "alicia"); Insert (lit "bob")]
              _ _ eq_refl) as [H1 [H2 H3]].
  split; [apply H1 | split].
  - apply H2. vm_compute. tauto.
  - apply H3. vm_compute. intros [H|[H|[H|[]]]]; discriminate.
Defined.

(** [test_suggest_limit]: of a, aa, aaa and aaaa, [suggest("a", 2)] returns
    two. *)
Lemma suggest_returns_matches_witness :
  exists t rs out,
    run (layout := front_layout)
        [Insert (lit "a"); Insert (lit "aa"); Insert (lit "aaa");
         Insert (lit "aaaa")]
        (Trie_new false) = Some (t, rs) /\
    suggest (lit "a") 2 t = Some (t, out) /\
    length out = 2 /\ NoDup out.
Proof.
  eexists. eexists.
  destruct (suggest_returns_matches (layout := front_layout) false
              [Insert (lit "a"); Insert (lit "aa"); Insert (lit "aaa");
               Insert (lit "aaaa")] (lit "a") 2 _ _ eq_refl)
    as [out [Hs [_ [_ Hpos]]]].
  exists out. split; [vm_compute; reflexivity|].
  split; [exact Hs|].
  destruct (Hpos (Nat.lt_0_succ 1)) as [Hlen [ND _]].
  split; [exact Hlen | exact ND].
Defined.

(** ** How an insertion changes the node store *)

Section Growth.

Context {layout : MapLayout}.

Lemma strip_prefix_app : forall p w rest,
  strip_prefix p w = Some rest <-> w = p ++ rest.
Proof.
  induction p as [|a p IH]; intros w rest; simpl.
  - split; [now intros [= ->] | now intros ->].
  - destruct w as [|b w].
    + split; [discriminate | intros [=]].
    + destruct (Ascii.eqb a b) eqn:E.
      * apply Ascii.eqb_eq in E. subst b. rewrite IH.
        split; [now intros -> | now intros [= ->]].
      * apply Ascii.eqb_neq in E. split; [discriminate | intros [= ? ?]; congruence].
Qed.

Lemma descend_new_node : forall p,
  match descend p new_node with Some x => x | None => new_node end = new_node.
Proof. destruct p; reflexivity. Qed.

(** The node a path leads to after [insert(w)]: along the path of [w] the
    rest of the insertion applied to the node that was there (or to a new
    node), everywhere else the node that was there. *)
Lemma descend_insert_node : forall p w node,
  wf node ->
  descend p (insert_node w node) =
  match strip_prefix p w with
  | Some rest =>
      Some (insert_node rest
              match descend p node with Some x => x | None => new_node end)
  | None => descend p node
  end.
Proof.
  induction p as [|c p IH]; intros w node Hwf; simpl; [reflexivity|].
  inversion Hwf as [kids t f ND Hall Hf Ht]; subst.
  destruct w as [|a w]; simpl; [reflexivity|].
  destruct (Ascii.eqb c a) eqn:E.
  - apply Ascii.eqb_eq in E. subst a.
    rewrite find_update_same, find_ensured_same by exact ND. simpl.
    destruct (find c kids) as [next|] eqn:F.
    + rewrite IH by (eapply wf_find; [exact Hwf | exact F]). reflexivity.
    + rewrite IH by exact wf_new_node.
      destruct (strip_prefix p w) as [rest|] eqn:S.
      * now rewrite descend_new_node.
      * destruct p; [discriminate | reflexivity].
  - apply Ascii.eqb_neq in E.
    rewrite find_update_other, find_ensured_other by assumption. reflexivity.
Qed.

Lemma is_terminal_insert_node : forall rest x,
  is_terminal (insert_node rest x) =
  match rest with [] => true | _ => is_terminal x end.
Proof. destruct rest; reflexivity. Qed.

Lemma frequency_insert_node : forall rest x,
  frequency (insert_node rest x) =
  match rest with [] => wrap_u32 (frequency x + 1) | _ => frequency x end.
Proof. destruct rest; reflexivity. Qed.

Lemma wf_frequency : forall node,
  wf node ->
  (0 <= frequency node < uint32_modulus)%Z /\
  (is_terminal node = false -> frequency node = 0%Z).
Proof. intros node Hwf. inversion Hwf; subst; simpl. auto. Qed.

Lemma frequency_at_range : forall v node,
  wf node -> (0 <= frequency_at v node < uint32_modulus)%Z.
Proof.
  intros v node Hwf. unfold frequency_at.
  destruct (descend v node) as [x|] eqn:E.
  - apply wf_frequency. eapply wf_descend; eassumption.
  - unfold uint32_modulus. lia.
Qed.

Lemma frequency_at_insert_node : forall w v node,
  wf node ->
  frequency_at v (insert_node w node) =
  if str_eq_dec v w then wrap_u32 (frequency_at v node + 1)
  else frequency_at v node.
Proof.
  intros w v node Hwf. unfold frequency_at.
  rewrite descend_insert_node by exact Hwf.
  destruct (strip_prefix v w) as [rest|] eqn:S.
  - apply strip_prefix_app in S. rewrite frequency_insert_node.
    destruct rest as [|a rest].
    + rewrite app_nil_r in S.
      destruct (str_eq_dec v w) as [_|N]; [|congruence].
      now destruct (descend v node).
    + destruct (str_eq_dec v w) as [->|N].
      * apply (f_equal (@length ascii)) in S. rewrite length_app in S.
        simpl in S. lia.
      * now destruct (descend v node).
  - destruct (str_eq_dec v w) as [->|N]; [|reflexivity].
    assert (H : strip_prefix w w = Some []).
    { apply strip_prefix_app. now rewrite app_nil_r. }
    congruence.
Qed.

Lemma frequency_at_fold_insert : forall ws v node,
  wf node ->
  frequency_at v (fold_left (fun n w => insert_node w n) ws node) =
  wrap_u32 (frequency_at v node + Z.of_nat (occurrences v ws)).
Proof.
  induction ws as [|w ws IH]; intros v node Hwf; simpl.
  - rewrite Z.add_0_r. unfold wrap_u32. symmetry.
    apply Z.mod_small, frequency_at_range, Hwf.
  - rewrite IH by (apply wf_insert_node, Hwf).
    rewrite frequency_at_insert_node by exact Hwf. unfold occurrences. simpl.
    destruct (str_eq_dec v w) as [E|N];
      destruct (str_eq_dec w v) as [E'|N']; try congruence.
    unfold wrap_u32. rewrite Zplus_mod_idemp_l. f_equal. lia.
Qed.

(** The counter of a word is the number of its insertions modulo [2^32]. *)
Lemma frequency_at_build : forall ws v,
  frequency_at v (build ws) = wrap_u32 (Z.of_nat (occurrences v ws)).
Proof.
  intros ws v. unfold build. rewrite frequency_at_fold_insert by exact wf_new_node.
  f_equal. unfold frequency_at. now destruct v.
Qed.

End Growth.

(** ** Growth of the node store *)

Section Monotone.

Context {layout : MapLayout}.

Lemma grows_insert : forall w root ts,
  wf root ->
  grows (Insert w) (mkTrie root ts false)
        (mkTrie (insert_node w root) ts false).
Proof.
  intros w root ts Hwf. split; simpl.
  - intros path node Hd. rewrite descend_insert_node by exact Hwf. rewrite Hd.
    pose proof (@wf_frequency node (@wf_descend path root node Hwf Hd)) as [Hr Ht].
    assert (Hpos : (0 < frequency node)%Z -> is_terminal node = true).
    { intros H. destruct (is_terminal node); [reflexivity|].
      rewrite Ht in H by reflexivity. lia. }
    destruct (strip_prefix path w) as [rest|] eqn:S.
    + apply strip_prefix_app in S. eexists. split; [reflexivity|].
      rewrite is_terminal_insert_node, frequency_insert_node.
      destruct rest as [|a rest].
      * rewrite app_nil_r in S. subst w.
        repeat split; auto; try lia.
        intros Hlt. unfold wrap_u32, uint32_max, uint32_modulus in *.
        rewrite Z.mod_small; lia.
      * repeat split; auto; lia.
    + exists node. repeat split; auto; lia.
  - intros path node' Hd. rewrite descend_insert_node by exact Hwf. rewrite Hd.
    destruct (strip_prefix path w) as [rest|] eqn:S; [|discriminate].
    apply strip_prefix_app in S. intros [= <-].
    rewrite is_terminal_insert_node, frequency_insert_node.
    destruct rest as [|a rest].
    + rewrite app_nil_r in S. subst w. right. repeat split.
    + left. split; reflexivity.
Qed.

Lemma grows_query : forall c root ts,
  wf root -> next_root c root = root ->
  grows c (mkTrie root ts false) (mkTrie root ts false).
Proof.
  intros c root ts Hwf _. split; simpl.
  - intros path node Hd.
    pose proof (@wf_frequency node (@wf_descend path root node Hwf Hd)) as [Hr Ht].
    exists node. repeat split; auto; try lia.
    intros H. destruct (is_terminal node); [reflexivity|].
    rewrite Ht in H by reflexivity. lia.
  - intros path node' Hd Hd'. congruence.
Qed.

(** C8, as the code has it. Every operation on a trie reached by any calls
    leaves every node in place, never clears an [is_terminal] flag, and
    never lowers a [frequency] that is below [2^32 - 1]; a [frequency] is
    non-zero only on a terminal node, and a node starts with [frequency] 0
    (1 when it ends the word whose insertion creates it). *)
Theorem node_store_grows : forall ts cs c t rs t' r,
  run cs (Trie_new ts) = Some (t, rs) ->
  perform c t = Some (t', r) ->
  grows c t t'.
Proof.
  intros ts cs c t rs t' r H Hc. apply run_new_inv in H. subst t.
  rewrite perform_free in Hc. injection Hc as <- _.
  destruct c as [w|w|p l|q l]; simpl.
  - apply grows_insert, wf_build.
  - apply grows_query; [apply wf_build | reflexivity].
  - apply grows_query; [apply wf_build | reflexivity].
  - apply grows_query; [apply wf_build | reflexivity].
Qed.

Lemma inserted_repeat : forall w k,
  inserted (repeat (Insert w) k) = repeat w k.
Proof. induction k as [|k IH]; simpl; [reflexivity | now rewrite IH]. Qed.

Lemma fold_insert_empty_word : forall k terminal freq,
  fold_left (fun n w => insert_node w n) (repeat [] k)
            (mkTrieNode [] terminal freq) =
  mkTrieNode [] (terminal || negb (Nat.eqb k 0))
             (if Nat.eqb k 0 then freq else wrap_u32 (freq + Z.of_nat k)).
Proof.
  induction k as [|k IH]; intros terminal freq.
  - simpl. now rewrite orb_false_r.
  - change (repeat [] (S k)) with (@nil ascii :: repeat [] k).
    cbn [fold_left insert_node children frequency]. rewrite IH.
    rewrite orb_true_r. cbn [orb Nat.eqb negb]. f_equal.
    destruct (Nat.eqb k 0) eqn:E.
    + apply Nat.eqb_eq in E. subst k. reflexivity.
    + unfold wrap_u32. rewrite Zplus_mod_idemp_l. f_equal. lia.
Qed.

Lemma build_repeat_empty_word : forall k,
  0 < k ->
  build (repeat [] k) = mkTrieNode [] true (wrap_u32 (Z.of_nat k)).
Proof.
  intros k Hk. unfold build, new_node. rewrite fold_insert_empty_word.
  destruct (Nat.eqb k 0) eqn:E; [apply Nat.eqb_eq in E; lia | reflexivity].
Qed.

End Monotone.

(** [test_thread_safe_flag_smoke] continued: a second [insert("abc")]. *)
Lemma node_store_grows_witness :
  exists t rs t' r,
    run (layout := front_layout) [Insert (lit "abc")] (Trie_new true) =
      Some (t, rs) /\
    perform (layout := front_layout) (Insert (lit "abc")) t = Some (t', r) /\
    grows (Insert (lit "abc")) t t'.
Proof.
  eexists. eexists. eexists. eexists.
  split; [vm_compute; reflexivity|].
  split; [vm_compute; reflexivity|].
  exact (node_store_grows (layout := front_layout) true
           [Insert (lit "abc")] (Insert (lit "abc")) _ _ _ _ eq_refl eq_refl).
Defined.

(** C8, as stated, fails: after [2^32 - 1] calls of [insert("")] the root's
    [frequency] is [2^32 - 1], and one more call lowers it to 0. *)
Lemma frequency_wraps_counterexample :
  exists rs,
    run (layout := front_layout)
        (repeat (Insert []) (Z.to_nat 4294967295)) (Trie_new false) =
      Some (mkTrie (mkTrieNode [] true 4294967295) false false, rs) /\
    perform (layout := front_layout) (Insert [])
        (mkTrie (mkTrieNode [] true 4294967295) false false) =
      Some (mkTrie (mkTrieNode [] true 0) false false, Done).
Proof.
  exists (answers (layout := front_layout)
            (repeat (Insert []) (Z.to_nat 4294967295)) new_node).
  split; [|reflexivity].
  rewrite run_new, inserted_repeat.
  rewrite build_repeat_empty_word by lia.
  rewrite Z2Nat.id by lia.
  replace (wrap_u32 4294967295) with 4294967295%Z by reflexivity.
  reflexivity.
Qed.



(** ** The order of suggestions *)

Lemma matches_same_words : forall P ws1 ws2,
  (forall w, In w ws1 <-> In w ws2) ->
  Permutation (matches P ws1) (matches P ws2).
Proof.
  intros P ws1 ws2 H. apply NoDup_Permutation.
  - apply NoDup_nodup.
  - apply NoDup_nodup.
  - intros w. rewrite !in_matches, H. tauto.
Qed.

(** C5, as the code has it. The order of [suggest]'s results is the
    iteration order of the [children] maps, which the container's layout
    and the order of the insertions decide.  Two tries that hold the same
    words (under any two layouts, after any two histories) return the same
    number of results, without repetition, all of them inserted words that
    start with [P]; with [limit = 0] the two results are rearrangements of
    each other. *)
Theorem suggest_is_determined_up_to_order :
  forall (l1 l2 : MapLayout) ts1 ts2 cs1 cs2 P L t1 rs1 t2 rs2,
  run (layout := l1) cs1 (Trie_new ts1) = Some (t1, rs1) ->
  run (layout := l2) cs2 (Trie_new ts2) = Some (t2, rs2) ->
  (forall w, In w (inserted cs1) <-> In w (inserted cs2)) ->
  exists out1 out2,
    suggest P L t1 = Some (t1, out1) /\
    suggest P L t2 = Some (t2, out2) /\
    length out1 = length out2 /\
    NoDup out1 /\ NoDup out2 /\
    (L = 0 -> Permutation out1 out2) /\
    (forall w, In w out1 \/ In w out2 ->
               In w (inserted cs1) /\ is_prefix P w = true).
Proof.
  intros l1 l2 ts1 ts2 cs1 cs2 P L t1 rs1 t2 rs2 H1 H2 Hsame.
  apply run_new_inv in H1. apply run_new_inv in H2. subst t1 t2.
  exists (suggest_node P L (build (layout := l1) (inserted cs1))).
  exists (suggest_node P L (build (layout := l2) (inserted cs2))).
  split; [apply suggest_free|]. split; [apply suggest_free|].
  rewrite !suggest_node_take.
  pose proof (completions_matches (layout := l1) P (inserted cs1)) as HP1.
  pose proof (completions_matches (layout := l2) P (inserted cs2)) as HP2.
  pose proof (matches_same_words P _ _ Hsame) as HM.
  assert (HP : Permutation
                 (completions P (build (layout := l1) (inserted cs1)))
                 (completions P (build (layout := l2) (inserted cs2)))).
  { eapply Permutation_trans; [exact HP1|].
    eapply Permutation_trans; [exact HM|]. apply Permutation_sym, HP2. }
  split; [|split; [|split; [|split]]].
  - rewrite !length_take, (Permutation_length HP). reflexivity.
  - apply NoDup_take, NoDup_completions, wf_build.
  - apply NoDup_take, NoDup_completions, wf_build.
  - intros ->. exact HP.
  - intros w [Hw|Hw]; apply take_incl in Hw.
    + apply in_completions in Hw; [|apply wf_build].
      rewrite contains_build in Hw. tauto.
    + apply in_completions in Hw; [|apply wf_build].
      rewrite contains_build, <- Hsame in Hw. tauto.
Qed.

(** The tries of a and b, inserted in the two orders, under two layouts. *)
Lemma suggest_is_determined_up_to_order_witness :
  exists t1 rs1 t2 rs2 out1 out2,
    run (layout := front_layout) [Insert (lit "a"); Insert (lit "b")]
        (Trie_new false) = Some (t1, rs1) /\
    run (layout := back_layout) [Insert (lit "b"); Insert (lit "a")]
        (Trie_new true) = Some (t2, rs2) /\
    suggest (lit "") 0 t1 = Some (t1, out1) /\
    suggest (lit "") 0 t2 = Some (t2, out2) /\
    length out1 = length out2 /\ Permutation out1 out2.
Proof.
  eexists. eexists. eexists. eexists.
  destruct (suggest_is_determined_up_to_order front_layout back_layout
              false true
              [Insert (lit "a"); Insert (lit "b")]
              [Insert (lit "b"); Insert (lit "a")]
              (lit "") 0 _ _ _ _ eq_refl eq_refl)
    as [out1 [out2 [H1 [H2 [Hlen [_ [_ [HP _]]]]]]]].
  { intros w. simpl. tauto. }
  exists out1, out2.
  split; [vm_compute; reflexivity|].
  split; [vm_compute; reflexivity|].
  split; [exact H1|]. split; [exact H2|].
  split; [exact Hlen | exact (HP eq_refl)].
Defined.

(** C5, as stated, fails: the tries of a then b and of b then a hold the
    same words with the same counters, and [suggest("", 1)] returns b on
    the first and a on the second; without a limit the two results list
    the same words in opposite orders. *)
Lemma suggest_order_counterexample :
  exists t1 rs1 t2 rs2,
    run (layout := front_layout) [Insert (lit "a"); Insert (lit "b")]
        (Trie_new false) = Some (t1, rs1) /\
    run (layout := front_layout) [Insert (lit "b"); Insert (lit "a")]
        (Trie_new false) = Some (t2, rs2) /\
    (forall w,
        contains_node w (root_ t1) = contains_node w (root_ t2) /\
        frequency_at w (root_ t1) = frequency_at w (root_ t2)) /\
    suggest (lit "") 1 t1 = Some (t1, [lit "b"]) /\
    suggest (lit "") 1 t2 = Some (t2, [lit "a"]) /\
    suggest (lit "") 0 t1 = Some (t1, [lit "b"; lit "a"]) /\
    suggest (lit "") 0 t2 = Some (t2, [lit "a"; lit "b"]).
Proof.
  eexists. eexists. eexists. eexists.
  split; [apply run_new|]. split; [apply run_new|].
  split.
  - intros w. cbn [root_ inserted].
    rewrite !contains_node_bool, !frequency_at_build. unfold occurrences.
    cbn [count_occ].
    destruct (in_dec str_eq_dec w [lit "a"; lit "b"]) as [H1|H1];
      destruct (in_dec str_eq_dec w [lit "b"; lit "a"]) as [H2|H2];
      try (exfalso; simpl in H1, H2; tauto).
    + split; [reflexivity|].
      destruct (str_eq_dec (lit "a") w); destruct (str_eq_dec (lit "b") w);
        reflexivity.
    + split; [reflexivity|].
      destruct (str_eq_dec (lit "a") w); destruct (str_eq_dec (lit "b") w);
        reflexivity.
  - repeat split; vm_compute; reflexivity.
Qed.

(** ** The edit distance *)

Section EditDistance.

Open Scope Z_scope.

Lemma wrap_int_small : forall z, int_min <= z <= int_max -> wrap_int z = z.
Proof.
  intros z H. unfold wrap_int, uint32_modulus, int_min, int_max in *.
  rewrite Z.mod_small; lia.
Qed.

Lemma length_vset : forall v j x, length (vset v j x) = length v.
Proof.
  induction v as [|y v IH]; intros [|j] x; simpl; auto.
Qed.

Lemma vget_vset_same : forall v j x,
  (j < length v)%nat -> vget (vset v j x) j = x.
Proof.
  unfold vget. induction v as [|y v IH]; intros [|j] x H; simpl in *;
    try lia; try reflexivity. apply IH. lia.
Qed.

Lemma vget_vset_other : forall v j k x,
  j <> k -> vget (vset v j x) k = vget v k.
Proof.
  unfold vget. induction v as [|y v IH]; intros [|j] [|k] x H; simpl;
    try reflexivity; try congruence. apply IH. congruence.
Qed.

Lemma cell_S_S : forall a b i j,
  cell a b (S i) (S j) =
  min3 (cell a b i (S j) + 1) (cell a b (S i) j + 1)
       (cell a b i j + cost (char_at a i) (char_at b j)).
Proof. reflexivity. Qed.

Lemma cell_S_0 : forall a b i, cell a b (S i) 0 = Z.of_nat (S i).
Proof. reflexivity. Qed.

Lemma cell_0 : forall a b j, cell a b 0 j = Z.of_nat j.
Proof. reflexivity. Qed.

Lemma cell_n_0 : forall a b i, cell a b i 0 = Z.of_nat i.
Proof. intros a b [|i]; reflexivity. Qed.

Lemma cost_range : forall x y, 0 <= cost x y <= 1.
Proof. intros x y. unfold cost. destruct (Ascii.eqb x y); lia. Qed.

Lemma cost_sym : forall x y, cost x y = cost y x.
Proof. intros x y. unfold cost. now rewrite Ascii.eqb_sym. Qed.

Lemma cost_refl : forall x, cost x x = 0.
Proof. intros x. unfold cost. now rewrite Ascii.eqb_refl. Qed.

Lemma cell_bounds : forall a b i j,
  0 <= cell a b i j <= Z.max (Z.of_nat i) (Z.of_nat j).
Proof.
  intros a b. induction i as [|i IHi]; intros j.
  - rewrite cell_0. lia.
  - induction j as [|j IHj].
    + rewrite cell_S_0. lia.
    + rewrite cell_S_S. unfold min3.
      pose proof (IHi (S j)). pose proof (IHi j).
      pose proof (cost_range (char_at a i) (char_at b j)). lia.
Qed.

Lemma cell_sym : forall a b i j, cell a b i j = cell b a j i.
Proof.
  intros a b. induction i as [|i IHi]; intros j.
  - destruct j; reflexivity.
  - induction j as [|j IHj]; [reflexivity|].
    rewrite !cell_S_S, IHj, (IHi (S j)), (IHi j).
    rewrite (cost_sym (char_at a i)). unfold min3. lia.
Qed.

Lemma cell_diag : forall a i, cell a a i i = 0.
Proof.
  intros a. induction i as [|i IH]; [reflexivity|].
  rewrite cell_S_S, IH, cost_refl. unfold min3.
  pose proof (cell_bounds a a i (S i)). pose proof (cell_bounds a a (S i) i).
  lia.
Qed.

Section Table.

Variables (a b : str) (n : nat).
Hypothesis n_small : Z.of_nat n < int_max.

Lemma initial_row_ok : forall k, (k <= n + 1)%nat ->
  let row := fold_left (fun prev j => vset prev j (wrap_int (Z.of_nat j)))
                       (seq 0 k) (repeat 0 (n + 1)) in
  length row = (n + 1)%nat /\
  forall j, (j < k)%nat -> vget row j = Z.of_nat j.
Proof.
  induction k as [|k IH]; intros Hk row.
  - subst row. simpl. rewrite repeat_length. split; [reflexivity | lia].
  - subst row. rewrite seq_S, fold_left_app. simpl.
    destruct IH as [Hlen Hget]; [lia|]. split.
    + now rewrite length_vset.
    + intros j Hj. destruct (Nat.eq_dec j k) as [->|Hne].
      * rewrite vget_vset_same by lia. apply wrap_int_small.
        unfold int_min, int_max in *. lia.
      * rewrite vget_vset_other by congruence. apply Hget. lia.
Qed.

Lemma fill_row_steps : forall i prev cur,
  Z.of_nat (S i) < int_max ->
  row_ok a b n i prev ->
  length cur = (n + 1)%nat ->
  vget cur 0 = Z.of_nat (S i) ->
  forall k, (k <= n)%nat ->
  let cur' := fill_row (char_at a i) b k prev cur in
  length cur' = (n + 1)%nat /\
  forall j, (j <= k)%nat -> vget cur' j = cell a b (S i) j.
Proof.
  intros i prev cur Hi [Hplen Hprev] Hclen Hc0.
  induction k as [|k IH]; intros Hk cur'; subst cur'; unfold fill_row in *.
  - simpl. split; [exact Hclen|]. intros j Hj.
    replace j with 0%nat by lia. now rewrite Hc0.
  - rewrite seq_S, fold_left_app. simpl.
    destruct IH as [Hlen Hget]; [lia|].
    split; [now rewrite length_vset|].
    intros j Hj. destruct (Nat.eq_dec j (S k)) as [->|Hne].
    + rewrite vget_vset_same by lia.
      rewrite Nat.sub_0_r, (Hprev (S k)), (Hprev k), (Hget k) by lia.
      pose proof (cell_bounds a b i (S k)). pose proof (cell_bounds a b i k).
      pose proof (cell_bounds a b (S i) k).
      pose proof (cost_range (char_at a i) (char_at b k)).
      fold (cost (char_at a i) (char_at b k)).
      rewrite !wrap_int_small by (unfold int_min, int_max in *; lia).
      reflexivity.
    + rewrite vget_vset_other by congruence. apply Hget. lia.
Qed.

Lemma fill_rows_steps : forall m prev cur,
  Z.of_nat m < int_max ->
  row_ok a b n 0 prev ->
  length cur = (n + 1)%nat ->
  forall k, (k <= m)%nat ->
  row_ok a b n k (fst (fill_rows a b k n (prev, cur))) /\
  length (snd (fill_rows a b k n (prev, cur))) = (n + 1)%nat.
Proof.
  intros m prev cur Hm Hprev Hcur.
  induction k as [|k IH]; intros Hk; unfold fill_rows in *.
  - simpl. split; assumption.
  - rewrite seq_S, fold_left_app. simpl.
    destruct IH as [Hrow Hlen]; [lia|].
    destruct (fold_left _ (seq 1 k) (prev, cur)) as [p c]. simpl in *.
    rewrite Nat.sub_0_r. split; [|apply Hrow].
    apply fill_row_steps; try assumption; try lia.
    + now rewrite length_vset.
    + rewrite vget_vset_same by lia. apply wrap_int_small.
      unfold int_min, int_max in *. lia.
Qed.

End Table.

(** Below the range of [int] the function computes the recurrence. *)
Lemma levenshtein_distance_cell : forall a b,
  Z.of_nat (length a) < int_max ->
  Z.of_nat (length b) < int_max ->
  levenshtein_distance a b = cell a b (length a) (length b).
Proof.
  intros a b Ha Hb. unfold levenshtein_distance.
  destruct (Nat.eqb (length a) 0) eqn:Ea.
  - apply Nat.eqb_eq in Ea. rewrite Ea, cell_0. apply wrap_int_small.
    unfold int_min, int_max in *. lia.
  - destruct (Nat.eqb (length b) 0) eqn:Eb.
    + apply Nat.eqb_eq in Eb. rewrite Eb.
      destruct (length a) as [|m]; [discriminate|]. rewrite cell_S_0.
      apply wrap_int_small. unfold int_min, int_max in *. lia.
    + set (n := length b) in *. set (m := length a) in *.
      destruct (@initial_row_ok n Hb (n + 1)%nat (Nat.le_refl _))
        as [H0len H0get].
      assert (Hrow0 : row_ok a b n 0
                (fold_left (fun prev j => vset prev j (wrap_int (Z.of_nat j)))
                           (seq 0 (n + 1)) (repeat 0 (n + 1)))).
      { split; [exact H0len|]. intros j Hj. rewrite cell_0. apply H0get. lia. }
      destruct (@fill_rows_steps a b n Hb m _ (repeat 0 (n + 1)) Ha Hrow0
                  (repeat_length _ _) m (Nat.le_refl _))
        as [[_ Hget] _].
      destruct (fill_rows a b m n _) as [p c]. simpl in Hget.
      apply Hget. lia.
Qed.

Lemma levenshtein_distance_nil_l : forall y,
  levenshtein_distance [] y = wrap_int (Z.of_nat (length y)).
Proof. reflexivity. Qed.

Lemma levenshtein_distance_nil_r : forall x,
  levenshtein_distance x [] = wrap_int (Z.of_nat (length x)).
Proof.
  intros x. unfold levenshtein_distance.
  destruct (Nat.eqb (length x) 0) eqn:E; [|reflexivity].
  apply Nat.eqb_eq in E. now rewrite E.
Qed.

(** Below the range of [int] the code's distance and score are those of
    the specification. *)
Lemma levenshtein_distance_edit_distance : forall a b,
  Z.of_nat (length a) < int_max ->
  Z.of_nat (length b) < int_max ->
  levenshtein_distance a b = edit_distance a b.
Proof. exact levenshtein_distance_cell. Qed.

Lemma score_word_formula_score : forall q w f,
  Z.of_nat (length q) < int_max ->
  Z.of_nat (length w) < int_max ->
  score_word q w f = formula_score q w f.
Proof.
  intros q w f Hq Hw. unfold score_word, formula_score.
  now rewrite levenshtein_distance_edit_distance by assumption.
Qed.

End EditDistance.

(** C4, as the code has it. For all byte sequences [x] and [y] shorter than
    [2^31 - 1] (so that every distance and every intermediate sum is an
    [int]): [distance(x, x) = 0]; [distance(x, y) = distance(y, x)]; the
    result is not negative; and [distance("", x) = length(x)]. *)
Theorem levenshtein_distance_identities : forall x y,
  (Z.of_nat (length x) < int_max)%Z ->
  (Z.of_nat (length y) < int_max)%Z ->
  levenshtein_distance x x = 0%Z /\
  levenshtein_distance x y = levenshtein_distance y x /\
  (0 <= levenshtein_distance x y)%Z /\
  levenshtein_distance [] x = Z.of_nat (length x).
Proof.
  intros x y Hx Hy.
  assert (H0 : (Z.of_nat (length (@nil ascii)) < int_max)%Z) by reflexivity.
  rewrite !levenshtein_distance_cell by assumption.
  split; [apply cell_diag|]. split; [apply cell_sym|].
  split; [apply cell_bounds | reflexivity].
Qed.

(** The distances of kitten and sitting. *)
Lemma levenshtein_distance_identities_witness :
  levenshtein_distance (lit "kitten") (lit "kitten") = 0%Z /\
  levenshtein_distance (lit "kitten") (lit "sitting") =
    levenshtein_distance (lit "sitting") (lit "kitten") /\
  (0 <= levenshtein_distance (lit "kitten") (lit "sitting"))%Z /\
  levenshtein_distance [] (lit "kitten") = Z.of_nat (length (lit "kitten")).
Proof.
  apply (levenshtein_distance_identities (lit "kitten") (lit "sitting"));
    vm_compute; reflexivity.
Defined.

(** C4, as stated, fails: the distance between the empty string and a
    string of [2^31] bytes is the length converted to [int], which is
    negative and is not the length. *)
Lemma levenshtein_int_overflow_counterexample :
  levenshtein_distance [] (repeat "a"%char (Z.to_nat 2147483648)) =
    (-2147483648)%Z /\
  Z.of_nat (length (repeat "a"%char (Z.to_nat 2147483648))) = 2147483648%Z.
Proof.
  rewrite levenshtein_distance_nil_l, repeat_length, Z2Nat.id by lia.
  split; reflexivity.
Qed.

(** ** The order of the ranking *)

Section FloatOrder.

Lemma spec_float_is_nan : forall x : spec_float,
  x = S754_nan \/ x <> S754_nan.
Proof. destruct x; [right | right | left | right]; congruence. Qed.

Lemma SFcompare_key : forall x y,
  x <> S754_nan -> y <> S754_nan ->
  SFcompare x y =
  Some (match (fst (fst (sf_key x)) ?= fst (fst (sf_key y)))%Z with
        | Eq => match (snd (fst (sf_key x)) ?= snd (fst (sf_key y)))%Z with
                | Eq => (snd (sf_key x) ?= snd (sf_key y))%Z
                | c => c
                end
        | c => c
        end).
Proof.
  intros [sx|sx| |sx mx ex] [sy|sy| |sy my ey] Hx Hy; try congruence;
    try destruct sx; try destruct sy; try reflexivity.
  cbn. rewrite Z.compare_opp, (Z.compare_antisym ey ex).
  destruct (ey ?= ex)%Z; reflexivity.
Qed.

Lemma SFltb_lt3 : forall x y,
  SFltb x y = true <->
  x <> S754_nan /\ y <> S754_nan /\ lt3 (sf_key x) (sf_key y).
Proof.
  intros x y. unfold SFltb.
  destruct (spec_float_is_nan x) as [->|Hx].
  { split; [discriminate | intros [H _]; congruence]. }
  destruct (spec_float_is_nan y) as [->|Hy].
  { destruct x; split; try discriminate; intros [_ [H _]]; congruence. }
  rewrite (@SFcompare_key x y Hx Hy). unfold lt3.
  destruct (sf_key x) as [[a1 a2] a3]. destruct (sf_key y) as [[b1 b2] b3].
  cbn [fst snd].
  destruct (Z.compare_spec a1 b1); [destruct (Z.compare_spec a2 b2);
    [destruct (Z.compare_spec a3 b3)|..]|..];
    (split; [intros H'; try discriminate; repeat split; auto; lia
            | intros [_ [_ H']]; try reflexivity; exfalso; lia]).
Qed.

Lemma SFeqb_key : forall x y,
  SFeqb x y = true <->
  x <> S754_nan /\ y <> S754_nan /\ sf_key x = sf_key y.
Proof.
  intros x y. unfold SFeqb.
  destruct (spec_float_is_nan x) as [->|Hx].
  { split; [discriminate | intros [H _]; congruence]. }
  destruct (spec_float_is_nan y) as [->|Hy].
  { destruct x; split; try discriminate; intros [_ [H _]]; congruence. }
  rewrite (@SFcompare_key x y Hx Hy).
  destruct (sf_key x) as [[a1 a2] a3]. destruct (sf_key y) as [[b1 b2] b3].
  cbn [fst snd].
  destruct (Z.compare_spec a1 b1); [destruct (Z.compare_spec a2 b2);
    [destruct (Z.compare_spec a3 b3)|..]|..];
    (split; [intros H'; try discriminate; repeat split; auto; congruence
            | intros [_ [_ H']]; try reflexivity; exfalso;
              injection H' as ? ? ?; lia]).
Qed.

End FloatOrder.

Section RankOrder.

Ltac keys x y z :=
  destruct (sf_key x) as [[?a1 ?a2] ?a3];
  destruct (sf_key y) as [[?b1 ?b2] ?b3];
  destruct (sf_key z) as [[?c1 ?c2] ?c3];
  cbn [fst snd] in *.

Lemma SFltb_trans : forall x y z,
  SFltb x y = true -> SFltb y z = true -> SFltb x z = true.
Proof.
  intros x y z. rewrite !SFltb_lt3. unfold lt3.
  intros [Hx [Hy H1]] [_ [Hz H2]]. repeat split; try assumption.
  keys x y z. lia.
Qed.

Lemma SFltb_eqb_trans : forall x y z,
  SFltb x y = true -> SFeqb y z = true -> SFltb x z = true.
Proof.
  intros x y z. rewrite !SFltb_lt3, SFeqb_key.
  intros [Hx [Hy H1]] [_ [Hz H2]]. repeat split; try assumption.
  now rewrite <- H2.
Qed.

Lemma SFeqb_ltb_trans : forall x y z,
  SFeqb x y = true -> SFltb y z = true -> SFltb x z = true.
Proof.
  intros x y z. rewrite !SFltb_lt3, SFeqb_key.
  intros [Hx [Hy H1]] [_ [Hz H2]]. repeat split; try assumption.
  now rewrite H1.
Qed.

Lemma SFeqb_trans : forall x y z,
  SFeqb x y = true -> SFeqb y z = true -> SFeqb x z = true.
Proof.
  intros x y z. rewrite !SFeqb_key.
  intros [Hx [Hy H1]] [_ [Hz H2]]. repeat split; try assumption. congruence.
Qed.

Lemma SFeqb_sym : forall x y, SFeqb x y = true -> SFeqb y x = true.
Proof.
  intros x y. rewrite !SFeqb_key. intros [Hx [Hy H]]. auto.
Qed.

Lemma SFltb_irrefl : forall x y,
  SFltb x y = true -> SFeqb x y = false /\ SFltb y x = false.
Proof.
  intros x y H. split; apply not_true_iff_false; intros H';
    revert H H'; rewrite ?SFltb_lt3, ?SFeqb_key; unfold lt3;
    intros [_ [_ H1]] [_ [_ H2]].
  - rewrite H2 in H1. destruct (sf_key y) as [[b1 b2] b3].
    cbn [fst snd] in *. lia.
  - keys x y x. lia.
Qed.

Lemma SFltb_total : forall x y,
  x <> S754_nan -> y <> S754_nan ->
  SFltb x y = true \/ SFeqb x y = true \/ SFltb y x = true.
Proof.
  intros x y Hx Hy. rewrite !SFltb_lt3, SFeqb_key. unfold lt3.
  destruct (sf_key x) as [[a1 a2] a3] eqn:Ex.
  destruct (sf_key y) as [[b1 b2] b3] eqn:Ey. cbn [fst snd].
  destruct (Z.lt_total a1 b1) as [H|[H|H]]; try (left; repeat split; auto; lia);
    try (right; right; repeat split; auto; lia).
  destruct (Z.lt_total a2 b2) as [H'|[H'|H']];
    try (left; repeat split; auto; lia);
    try (right; right; repeat split; auto; lia).
  destruct (Z.lt_total a3 b3) as [H''|[H''|H'']];
    try (left; repeat split; auto; lia);
    try (right; right; repeat split; auto; lia).
  right. left. repeat split; auto. congruence.
Qed.

(** [operator<] on strings is a strict total order. *)
Lemma str_ltb_irrefl : forall a, str_ltb a a = false.
Proof.
  induction a as [|x a IH]; simpl; [reflexivity|].
  now rewrite N.ltb_irrefl.
Qed.

Lemma str_ltb_trans : forall a b c,
  str_ltb a b = true -> str_ltb b c = true -> str_ltb a c = true.
Proof.
  induction a as [|x a IH]; intros [|y b] [|z c]; simpl; try discriminate;
    try reflexivity.
  destruct (N.ltb_spec (N_of_ascii x) (N_of_ascii y));
    destruct (N.ltb_spec (N_of_ascii y) (N_of_ascii x));
    destruct (N.ltb_spec (N_of_ascii y) (N_of_ascii z));
    destruct (N.ltb_spec (N_of_ascii z) (N_of_ascii y));
    destruct (N.ltb_spec (N_of_ascii x) (N_of_ascii z));
    destruct (N.ltb_spec (N_of_ascii z) (N_of_ascii x));
    try discriminate; try reflexivity; try lia.
  apply IH.
Qed.

Lemma str_ltb_asym : forall a b, str_ltb a b = true -> str_ltb b a = false.
Proof.
  intros a b H. apply not_true_iff_false. intros H'.
  pose proof (str_ltb_trans _ _ _ H H') as E.
  rewrite str_ltb_irrefl in E. discriminate.
Qed.

Lemma str_ltb_total : forall a b,
  a <> b -> str_ltb a b = true \/ str_ltb b a = true.
Proof.
  induction a as [|x a IH]; intros [|y b] Hne; simpl; auto; try congruence.
  destruct (N.ltb_spec (N_of_ascii x) (N_of_ascii y)); [now left|].
  destruct (N.ltb_spec (N_of_ascii y) (N_of_ascii x)); [now right|].
  assert (E : N_of_ascii x = N_of_ascii y) by lia.
  apply (f_equal ascii_of_N) in E. rewrite !ascii_N_embedding in E. subst y.
  apply IH. congruence.
Qed.

(** The comparator is a strict order, whatever the scores are. *)
Lemma ranked_before_cases : forall a b,
  ranked_before a b = true <->
  SFltb (Prim2SF (score b)) (Prim2SF (score a)) = true \/
  SFeqb (Prim2SF (score a)) (Prim2SF (score b)) = true /\
  str_ltb (word a) (word b) = true.
Proof.
  intros a b. unfold ranked_before.
  rewrite FloatAxioms.eqb_spec, FloatAxioms.ltb_spec.
  destruct (SFeqb (Prim2SF (score a)) (Prim2SF (score b))) eqn:E; simpl.
  - split; [auto | intros [H|[_ H]]; [|exact H]].
    apply SFltb_irrefl in H. apply SFeqb_sym in E. destruct H; congruence.
  - split; [auto | intros [H|[H _]]; [exact H | discriminate]].
Qed.

Lemma ranked_before_trans : forall a b c,
  ranked_before a b = true -> ranked_before b c = true ->
  ranked_before a c = true.
Proof.
  intros a b c. rewrite !ranked_before_cases.
  intros [H1|[H1 W1]] [H2|[H2 W2]].
  - left. eapply SFltb_trans; eassumption.
  - left. eapply SFeqb_ltb_trans; [apply SFeqb_sym|]; eassumption.
  - left. eapply SFltb_eqb_trans; [|apply SFeqb_sym]; eassumption.
  - right. split; [eapply SFeqb_trans | eapply str_ltb_trans]; eassumption.
Qed.

Lemma ranked_before_asym : forall a b,
  ranked_before a b = true -> ranked_before b a = false.
Proof.
  intros a b H. apply not_true_iff_false. intros H'.
  revert H H'. rewrite !ranked_before_cases.
  intros [H1|[H1 W1]] [H2|[H2 W2]].
  - apply SFltb_irrefl in H1. destruct H1; congruence.
  - apply SFltb_irrefl in H1. destruct H1; congruence.
  - apply SFltb_irrefl in H2. destruct H2; congruence.
  - apply str_ltb_asym in W1. congruence.
Qed.

(** "Not ranked before" is the order of the ranking read from the left. *)
Lemma in_rank_order_iff : forall a b,
  ranked_before b a = false <-> in_rank_order a b.
Proof.
  intros a b. unfold in_rank_order. rewrite <- not_true_iff_false.
  rewrite ranked_before_cases, !FloatAxioms.eqb_spec, !FloatAxioms.ltb_spec.
  split.
  - intros H. split.
    + apply not_true_iff_false. tauto.
    + intros E. apply not_true_iff_false. intros W. apply H. right.
      split; [now apply SFeqb_sym | exact W].
  - intros [H1 H2] [H|[E W]]; [congruence|].
    apply SFeqb_sym in E. rewrite (H2 E) in W. discriminate.
Qed.

Lemma outranks_iff : forall a b, ranked_before a b = true <-> outranks a b.
Proof.
  intros a b. unfold outranks.
  now rewrite ranked_before_cases, !FloatAxioms.eqb_spec, !FloatAxioms.ltb_spec.
Qed.

End RankOrder.

(** ** Sorting *)

Section Sorting.

Variable comp : ScoredWord -> ScoredWord -> bool.
Hypothesis comp_trans : forall a b c,
  comp a b = true -> comp b c = true -> comp a c = true.
Hypothesis comp_asym : forall a b, comp a b = true -> comp b a = false.

Lemma sort_insert_perm : forall x l, Permutation (sort_insert comp x l) (x :: l).
Proof.
  induction l as [|y l IH]; simpl; [reflexivity|].
  destruct (comp x y); [reflexivity|].
  eapply Permutation_trans; [apply perm_skip, IH | apply perm_swap].
Qed.

Lemma std_sort_perm : forall l, Permutation (std_sort comp l) l.
Proof.
  induction l as [|x l IH]; simpl; [constructor|].
  eapply Permutation_trans; [apply sort_insert_perm | now apply perm_skip].
Qed.

Lemma sort_insert_sorted : forall x l,
  StronglySorted (fun a b => comp b a = false) l ->
  StronglySorted (fun a b => comp b a = false) (sort_insert comp x l).
Proof.
  intros x l H. induction H as [|y l Hs IH Hy]; simpl.
  - repeat constructor.
  - destruct (comp x y) eqn:E.
    + constructor; [now constructor|]. constructor; [now apply comp_asym|].
      rewrite Forall_forall in *. intros z Hz.
      apply not_true_iff_false. intros Hzx.
      pose proof (comp_trans _ _ _ Hzx E) as Hzy.
      rewrite (Hy z Hz) in Hzy. discriminate.
    + constructor; [exact IH|]. rewrite Forall_forall in *. intros z Hz.
      apply (Permutation_in _ (sort_insert_perm x l)) in Hz.
      destruct Hz as [<-|Hz]; [exact E | now apply Hy].
Qed.

(** The result of the sort has no inversion. *)
Lemma std_sort_sorted : forall l,
  StronglySorted (fun a b => comp b a = false) (std_sort comp l).
Proof.
  induction l as [|x l IH]; simpl; [constructor | now apply sort_insert_sorted].
Qed.

(** Where any two elements are comparable, a sequence without inversion
    is strictly sorted, and there is one such arrangement only. *)
Lemma sorted_strictly : forall l,
  (forall a b, In a l -> In b l -> a <> b ->
               comp a b = true \/ comp b a = true) ->
  NoDup l ->
  StronglySorted (fun a b => comp b a = false) l ->
  StronglySorted (fun a b => comp a b = true) l.
Proof.
  intros l Htot ND H. induction H as [|x l Hs IH Hx]; [constructor|].
  inversion ND as [|? ? Hnin ND']; subst. constructor.
  - apply IH; [|exact ND']. intros a b Ha Hb. apply Htot; now right.
  - rewrite Forall_forall in *. intros z Hz.
    destruct (Htot x z) as [H|H]; auto; [now left | now right | |].
    + intros ->. contradiction.
    + rewrite (Hx z Hz) in H. discriminate.
Qed.

Lemma strictly_sorted_unique : forall l1 l2,
  Permutation l1 l2 ->
  StronglySorted (fun a b => comp a b = true) l1 ->
  StronglySorted (fun a b => comp a b = true) l2 ->
  l1 = l2.
Proof.
  induction l1 as [|a l1 IH]; intros l2 HP H1 H2.
  - apply Permutation_nil in HP. now subst.
  - destruct l2 as [|b l2].
    { apply Permutation_sym, Permutation_nil in HP. discriminate. }
    inversion H1 as [|? ? S1 F1]; inversion H2 as [|? ? S2 F2]; subst.
    rewrite Forall_forall in F1, F2.
    assert (E : a = b).
    { assert (Ha : In a (b :: l2)).
      { eapply Permutation_in; [exact HP | now left]. }
      assert (Hb : In b (a :: l1)).
      { eapply Permutation_in; [apply Permutation_sym, HP | now left]. }
      destruct Ha as [Ha|Ha]; [now symmetry|].
      destruct Hb as [Hb|Hb]; [exact Hb|].
      pose proof (F1 b Hb) as Hab. pose proof (F2 a Ha) as Hba.
      apply comp_asym in Hab. congruence. }
    subst b. f_equal. apply IH; try assumption.
    eapply Permutation_cons_inv, HP.
Qed.

End Sorting.

(** ** The scan of [search_ranked] *)

Section Scan.

Lemma for_children_scored : forall query current kids,
  Forall (fun kv => forall current out,
            collect_scored (snd kv) current out query =
            out ++ map (score_entry query) (all_entries (snd kv) current))
         kids ->
  forall out,
    for_children
      (fun k child out => collect_scored child (current ++ [k]) out query)
      (fun _ => false) kids out =
    out ++ map (score_entry query)
             (flat_map (fun kv => all_entries (snd kv) (current ++ [fst kv]))
                       kids).
Proof.
  intros query current kids H.
  induction H as [|[k child] kids Hc Hk IH]; intros out; simpl.
  - now rewrite app_nil_r.
  - simpl in Hc. rewrite Hc, IH, map_app, app_assoc. reflexivity.
Qed.

(** [collect_scored] appends every stored word below [node], scored with
    the counter of its node. *)
Lemma collect_scored_entries : forall node current out query,
  collect_scored node current out query =
  out ++ map (score_entry query) (all_entries node current).
Proof.
  intros node current out query. revert current out.
  induction node as [kids terminal freq IH] using TrieNode_nested_ind.
  intros current out. simpl.
  rewrite for_children_scored by exact IH.
  destruct terminal; simpl; [|reflexivity].
  now rewrite <- app_assoc.
Qed.

Lemma all_entries_words : forall node current,
  map fst (all_entries node current) = all_words node current.
Proof.
  intros node. induction node as [kids terminal freq IH] using TrieNode_nested_ind.
  intros current. simpl. rewrite map_app. f_equal.
  - now destruct terminal.
  - induction IH as [|[k child] kids Hc Hk IHk]; simpl; [reflexivity|].
    simpl in Hc. now rewrite map_app, Hc, IHk.
Qed.

Lemma in_all_entries : forall node current w f,
  wf node ->
  In (w, f) (all_entries node current) ->
  exists p, w = current ++ p /\ frequency_at p node = f.
Proof.
  intros node. induction node as [kids terminal freq IH] using TrieNode_nested_ind.
  intros current w f Hwf. inversion Hwf as [? ? ? ND Hall Hf Ht]; subst.
  rewrite Forall_forall in IH, Hall.
  simpl. rewrite in_app_iff, in_flat_map.
  intros [H|[[k child] [Hin H]]].
  - destruct terminal; [|contradiction]. destruct H as [[= <- <-]|[]].
    exists []. now rewrite app_nil_r.
  - simpl in H. apply (IH _ Hin) in H; [|exact (Hall _ Hin)].
    destruct H as [p [-> Hp]]. exists (k :: p). split.
    + now rewrite <- app_assoc.
    + unfold frequency_at in *. simpl.
      now rewrite (@in_find_some k child kids ND Hin).
Qed.

Context {layout : MapLayout}.

(** The entries of a trie built by insertions: every inserted word once,
    with the number of its insertions modulo [2^32]. *)
Lemma all_entries_build : forall ws,
  Permutation
    (all_entries (build ws) [])
    (map (fun w => (w, wrap_u32 (Z.of_nat (occurrences w ws))))
         (nodup str_eq_dec ws)).
Proof.
  intros ws. pose proof (wf_build ws) as Hwf.
  assert (Hfreq : forall w f,
            In (w, f) (all_entries (build ws) []) ->
            f = wrap_u32 (Z.of_nat (occurrences w ws))).
  { intros w f H. apply in_all_entries in H; [|exact Hwf].
    destruct H as [p [-> <-]]. simpl. apply frequency_at_build. }
  assert (Hwords : forall w,
            In w (map fst (all_entries (build ws) [])) <-> In w ws).
  { intros w. rewrite all_entries_words, in_all_words by exact Hwf.
    rewrite <- contains_build. simpl. split.
    - now intros [p [-> H]].
    - intros H. now exists w. }
  apply NoDup_Permutation.
  - apply (NoDup_map_inv fst). rewrite all_entries_words.
    now apply NoDup_all_words.
  - apply (NoDup_map_inv fst). rewrite map_map. simpl. rewrite map_id.
    apply NoDup_nodup.
  - intros [w f]. rewrite in_map_iff. split.
    + intros H. exists w. split.
      * f_equal. symmetry. now apply Hfreq.
      * apply nodup_In, Hwords. change w with (fst (w, f)). now apply in_map.
    + intros [w' [[= <- <-] Hw]]. apply nodup_In, Hwords in Hw.
      apply in_map_iff in Hw. destruct Hw as [[w'' f] [Hfst Hin]].
      simpl in Hfst. subst w''. now rewrite <- (Hfreq _ _ Hin).
Qed.

Lemma StronglySorted_in_rank_order : forall l,
  StronglySorted (fun a b => ranked_before b a = false) l ->
  StronglySorted in_rank_order l.
Proof.
  intros l H. induction H as [|x l Hs IH Hx]; constructor; [exact IH|].
  eapply Forall_impl; [|exact Hx]. intros b. apply in_rank_order_iff.
Qed.

End Scan.

(** ** Scores are numbers *)

Section FloatSigns.

Open Scope Z_scope.

Lemma shr_1_nonneg : forall mrs, 0 <= shr_m mrs -> 0 <= shr_m (shr_1 mrs).
Proof.
  intros [m r s] H. simpl in *. destruct m as [|[p|p|]|p]; simpl; lia.
Qed.

Lemma iter_pos_shr_1_nonneg : forall p mrs,
  0 <= shr_m mrs -> 0 <= shr_m (SpecFloat.iter_pos shr_1 p mrs).
Proof.
  induction p as [p IH|p IH|]; intros mrs H; simpl.
  - apply IH, IH, shr_1_nonneg, H.
  - apply IH, IH, H.
  - apply shr_1_nonneg, H.
Qed.

Lemma shr_fexp_nonneg : forall m e l,
  0 <= m -> 0 <= shr_m (fst (shr_fexp prec emax m e l)).
Proof.
  intros m e l H. unfold shr_fexp, shr.
  assert (H0 : 0 <= shr_m (shr_record_of_loc m l)).
  { destruct l as [|[| |]]; exact H. }
  destruct (fexp prec emax (Zdigits2 m + e) - e); simpl; auto.
  now apply iter_pos_shr_1_nonneg.
Qed.

Lemma round_nearest_even_nonneg : forall m l,
  0 <= m -> 0 <= round_nearest_even m l.
Proof.
  intros m [|[| |]] H; simpl; try lia. destruct (Z.even m); lia.
Qed.

Lemma binary_round_aux_signed : forall sx mx ex lx,
  0 <= mx -> sf_signed sx (binary_round_aux prec emax sx mx ex lx).
Proof.
  intros sx mx ex lx H. unfold binary_round_aux.
  pose proof (shr_fexp_nonneg mx ex lx H) as H1.
  destruct (shr_fexp prec emax mx ex lx) as [mrs' e']. simpl in H1.
  pose proof (shr_fexp_nonneg _ e' loc_Exact
                (round_nearest_even_nonneg _ (loc_of_shr_record mrs') H1)) as H2.
  destruct (shr_fexp prec emax _ e' loc_Exact) as [mrs'' e'']. simpl in H2.
  destruct (shr_m mrs'') as [|m|m]; [reflexivity| |lia].
  destruct (e'' <=? emax - prec); reflexivity.
Qed.

Lemma binary_normalize_signed : forall m e,
  0 <= m -> sf_signed false (binary_normalize prec emax m e false).
Proof.
  intros [|m|m] e H; [reflexivity| |lia]. simpl.
  unfold binary_round. destruct (shl_align _ _ _) as [mz ez].
  now apply binary_round_aux_signed.
Qed.

Lemma SFadd_signed : forall x y,
  sf_signed false x -> sf_signed false y -> sf_signed false (SF64add x y).
Proof.
  intros [sx|sx| |sx mx ex] [sy|sy| |sy my ey]; simpl; intros Hx Hy;
    subst; try contradiction; try reflexivity.
  apply binary_normalize_signed. simpl. lia.
Qed.

Lemma SFmul_signed : forall x my ey,
  sf_signed false x ->
  sf_signed false (SF64mul x (S754_finite false my ey)).
Proof.
  intros [sx|sx| |sx mx ex] my ey; simpl; intros Hx; subst;
    try contradiction; try reflexivity.
  apply binary_round_aux_signed. lia.
Qed.

Lemma SFdiv_signed : forall mx ex y,
  sf_signed false y ->
  sf_signed false (SF64div (S754_finite false mx ex) y).
Proof.
  intros mx ex [sy|sy| |sy my ey]; simpl; intros Hy; subst;
    try contradiction; try reflexivity.
  unfold SFdiv_core_binary.
  set (s := _ - _ - _).
  set (m' := match s with Z.pos _ => Z.shiftl (Z.pos mx) s | 0 => Z.pos mx | Z.neg _ => 0 end).
  assert (Hm : 0 <= m').
  { subst m'. destruct s; try lia. apply Z.shiftl_nonneg. lia. }
  pose proof (Z.div_pos m' (Z.pos my) Hm (Pos2Z.is_pos my)) as Hq.
  unfold Z.div in Hq. destruct (Z.div_eucl m' (Z.pos my)) as [q r].
  simpl in Hq. now apply binary_round_aux_signed.
Qed.

Lemma of_uint63_signed : forall n, sf_signed false (Prim2SF (of_uint63 n)).
Proof.
  intros n. rewrite of_uint63_spec. apply binary_normalize_signed.
  apply Uint63.to_Z_bounded.
Qed.

(** The score of a word whose distance is not negative is a number that
    is not negative (possibly infinite): it is not a NaN. *)
Lemma score_word_signed : forall query w frequency,
  0 <= levenshtein_distance query w ->
  sf_signed false (Prim2SF (score_word query w frequency)).
Proof.
  intros query w frequency Hd. unfold score_word, double_of_int.
  destruct (levenshtein_distance query w <? 0) eqn:E;
    [apply Z.ltb_lt in E; lia|].
  rewrite !FloatAxioms.add_spec, FloatAxioms.div_spec, !FloatAxioms.mul_spec,
    FloatAxioms.add_spec.
  change (Prim2SF 1) with (S754_finite false 4503599627370496 (-52)).
  change (Prim2SF 0.02) with (S754_finite false 5764607523034235 (-58)).
  change (Prim2SF 0.050000000000000003)
    with (S754_finite false 7205759403792794 (-57)).
  apply SFadd_signed; [apply SFadd_signed|].
  - apply SFdiv_signed, SFadd_signed; [reflexivity | apply of_uint63_signed].
  - apply SFmul_signed, of_uint63_signed.
  - apply SFmul_signed, of_uint63_signed.
Qed.

Lemma signed_not_nan : forall s x, sf_signed s x -> x <> S754_nan.
Proof. intros s x H ->. exact H. Qed.

End FloatSigns.

(** ** The ranking of [search_ranked] *)

Section Ranking.

Context {layout : MapLayout}.

Lemma ranked_before_total : forall a b,
  Prim2SF (score a) <> S754_nan -> Prim2SF (score b) <> S754_nan ->
  word a <> word b ->
  ranked_before a b = true \/ ranked_before b a = true.
Proof.
  intros a b Ha Hb Hw. rewrite !ranked_before_cases.
  destruct (@SFltb_total _ _ Ha Hb) as [H|[H|H]]; [now right; left | | now left; left].
  destruct (@str_ltb_total _ _ Hw) as [W|W]; [left | right]; right.
  - now split.
  - split; [now apply SFeqb_sym | exact W].
Qed.

Lemma NoDup_map_eq : forall (A B : Type) (f : A -> B) (l : list A) a b,
  NoDup (map f l) -> In a l -> In b l -> f a = f b -> a = b.
Proof.
  intros A B f l a b. induction l as [|x l IH]; simpl; [tauto|].
  intros ND Ha Hb E. inversion ND as [|? ? Hx ND']; subst.
  destruct Ha as [->|Ha]; destruct Hb as [->|Hb]; auto.
  - exfalso. apply Hx. rewrite E. now apply in_map.
  - exfalso. apply Hx. rewrite <- E. now apply in_map.
Qed.

Lemma StronglySorted_weaken : forall (R R' : ScoredWord -> ScoredWord -> Prop) l,
  (forall a b, R a b -> R' a b) ->
  StronglySorted R l -> StronglySorted R' l.
Proof.
  intros R R' l HR H. induction H as [|x l Hs IH Hx]; constructor; [exact IH|].
  eapply Forall_impl; [|exact Hx]. intros b. apply HR.
Qed.

Lemma scored_words : forall root q,
  map word (collect_scored root [] [] q) = all_words root [].
Proof.
  intros root q. rewrite collect_scored_entries. simpl.
  rewrite map_map. simpl. apply all_entries_words.
Qed.

(** Below the range of [int] every score is a number, so any two scored
    words are comparable: the ranking is strict, and it is the only
    arrangement of the scored words without inversion (what [std::sort]
    returns does not depend on how it sorts). *)
Lemma ranking_strict_unique : forall cs q,
  (Z.of_nat (length q) < int_max)%Z ->
  (forall w, In w (inserted cs) -> (Z.of_nat (length w) < int_max)%Z) ->
  let ranked :=
    std_sort ranked_before (collect_scored (build (inserted cs)) [] [] q) in
  StronglySorted outranks ranked /\
  forall l, Permutation l ranked -> StronglySorted in_rank_order l ->
            l = ranked.
Proof.
  intros cs q Hq Hws ranked.
  set (root := build (inserted cs)) in *.
  set (scored := collect_scored root [] [] q) in *.
  assert (HP : Permutation ranked scored) by apply std_sort_perm.
  assert (NDw : NoDup (map word scored)).
  { unfold scored. rewrite scored_words. apply NoDup_all_words, wf_build. }
  assert (ND : NoDup scored) by exact (NoDup_map_inv _ _ NDw).
  assert (Hnum : forall a, In a scored -> Prim2SF (score a) <> S754_nan).
  { intros a Ha. unfold scored in Ha. rewrite collect_scored_entries in Ha.
    simpl in Ha. apply in_map_iff in Ha. destruct Ha as [[w f] [<- Hin]].
    apply (@signed_not_nan false). apply score_word_signed. simpl.
    rewrite levenshtein_distance_cell; [apply cell_bounds | exact Hq |].
    apply Hws. apply (Permutation_in _ (all_entries_build (inserted cs))) in Hin.
    apply in_map_iff in Hin. destruct Hin as [w' [[= <- _] Hw]].
    now apply nodup_In in Hw. }
  assert (Htot : forall a b, In a scored -> In b scored -> a <> b ->
                   ranked_before a b = true \/ ranked_before b a = true).
  { intros a b Ha Hb Hne. apply ranked_before_total; auto.
    intros E. apply Hne. exact (@NoDup_map_eq _ _ word scored a b NDw Ha Hb E). }
  assert (Hstrict : forall l, Permutation l scored ->
            StronglySorted (fun a b => ranked_before b a = false) l ->
            StronglySorted (fun a b => ranked_before a b = true) l).
  { intros l Hl Hs. apply sorted_strictly; [| |exact Hs].
    - intros a b Ha Hb. apply Htot; eapply Permutation_in; eassumption.
    - eapply Permutation_NoDup; [apply Permutation_sym, Hl | exact ND]. }
  assert (Hranked : StronglySorted (fun a b => ranked_before a b = true) ranked).
  { apply Hstrict; [exact HP|].
    apply std_sort_sorted; [exact ranked_before_trans | exact ranked_before_asym]. }
  split.
  - eapply StronglySorted_weaken; [|exact Hranked].
    intros a b. apply outranks_iff.
  - intros l Hl Hs.
    apply (@strictly_sorted_unique ranked_before ranked_before_asym l ranked Hl);
      [|exact Hranked].
    apply Hstrict; [eapply Permutation_trans; eassumption|].
    eapply StronglySorted_weaken; [|exact Hs].
    intros a b. apply in_rank_order_iff.
Qed.

(** C3, as the code has it. On the trie reached by any calls, for a query
    and stored words shorter than [2^31 - 1] (so that the distance the code
    computes in [int] is the edit distance), [search_ranked(q, L)] scores
    every stored word [w] as
    [1/(1 + edit_distance(q, w)) + length(w)*0.02 + f*0.05] evaluated in
    binary64, where [f] is the word's counter (the number of its
    insertions modulo [2^32]); it sorts the scored words by descending
    score, and by ascending word among equal scores: the ranking is strict
    and is the only arrangement of the scored words without inversion; and
    it returns the words of the first [min(L, count)] of them, all of them
    when [L = 0]. *)
Theorem search_ranked_ranks_all_words : forall ts cs q L t rs,
  run cs (Trie_new ts) = Some (t, rs) ->
  (Z.of_nat (length q) < int_max)%Z ->
  (forall w, In w (inserted cs) -> (Z.of_nat (length w) < int_max)%Z) ->
  exists ranked,
    search_ranked q L t =
      Some (t, map word
                 (firstn (if Nat.eqb L 0 then length ranked
                          else Nat.min L (length ranked)) ranked)) /\
    Permutation ranked
      (map (fun w =>
              mkScoredWord w
                (formula_score q w
                   (wrap_u32 (Z.of_nat (occurrences w (inserted cs))))))
           (nodup str_eq_dec (inserted cs))) /\
    StronglySorted in_rank_order ranked /\
    StronglySorted outranks ranked /\
    (forall l, Permutation l ranked -> StronglySorted in_rank_order l ->
               l = ranked).
Proof.
  intros ts cs q L t rs H Hq Hws. apply run_new_inv in H. subst t.
  set (root := build (inserted cs)).
  exists (std_sort ranked_before (collect_scored root [] [] q)).
  split; [apply search_ranked_free|]. split; [|split].
  - eapply Permutation_trans; [apply std_sort_perm|].
    rewrite collect_scored_entries. simpl.
    eapply Permutation_trans.
    + apply Permutation_map, all_entries_build.
    + rewrite map_map. apply Permutation_refl'. apply map_ext_in.
      intros w Hw. apply nodup_In in Hw. unfold score_entry. simpl.
      f_equal. apply score_word_formula_score; [exact Hq | now apply Hws].
  - apply StronglySorted_in_rank_order, std_sort_sorted.
    + exact ranked_before_trans.
    + exact ranked_before_asym.
  - now apply ranking_strict_unique.
Qed.

End Ranking.

(** [test_search_ranked]: of hello, hallo, hullo and world,
    [search_ranked("helo", 3)] returns three words. *)
Lemma search_ranked_ranks_all_words_witness :
  exists t rs out,
    run (layout := front_layout)
        [Insert (lit "hello"); Insert (lit "hallo"); Insert (lit "hullo");
         Insert (lit "world")]
        (Trie_new false) = Some (t, rs) /\
    search_ranked (lit "helo") 3 t = Some (t, out) /\
    length out = 3.
Proof.
  eexists. eexists.
  destruct (search_ranked_ranks_all_words (layout := front_layout) false
              [Insert (lit "hello"); Insert (lit "hallo");
               Insert (lit "hullo"); Insert (lit "world")]
              (lit "helo") 3 _ _ eq_refl)
    as [ranked [Hs [HP _]]].
  - vm_compute. reflexivity.
  - intros w [<-|[<-|[<-|[<-|[]]]]]; vm_compute; reflexivity.
  - eexists. split; [vm_compute; reflexivity|]. split; [exact Hs|].
    rewrite length_map, length_firstn, (Permutation_length HP), length_map.
    vm_compute. reflexivity.
Defined.

(** C3, as stated, fails: against a query of [2^31] bytes the stored empty
    word, whose edit distance is [2^31], is scored with the distance
    [-2^31] the code computes in [int]; its score is below the score of
    the formula (about 0.0499999995 instead of 0.0500000005). *)
Lemma search_ranked_long_query_counterexample :
  run (layout := front_layout) [Insert []] (Trie_new false) =
    Some (mkTrie (mkTrieNode [] true 1) false false, [Done]) /\
  collect_scored (mkTrieNode [] true 1) [] []
      (repeat "a"%char (Z.to_nat 2147483648)) =
    [mkScoredWord []
       (score_word (repeat "a"%char (Z.to_nat 2147483648)) [] 1)] /\
  levenshtein_distance (repeat "a"%char (Z.to_nat 2147483648)) [] =
    (-2147483648)%Z /\
  edit_distance (repeat "a"%char (Z.to_nat 2147483648)) [] =
    2147483648%Z /\
  (score_word (repeat "a"%char (Z.to_nat 2147483648)) [] 1
     <? formula_score (repeat "a"%char (Z.to_nat 2147483648)) [] 1)%float
    = true.
Proof.
  assert (Hd : levenshtein_distance
                 (repeat "a"%char (Z.to_nat 2147483648)) [] =
               (-2147483648)%Z).
  { rewrite levenshtein_distance_nil_r, repeat_length, Z2Nat.id by lia.
    reflexivity. }
  assert (He : edit_distance (repeat "a"%char (Z.to_nat 2147483648)) [] =
               2147483648%Z).
  { unfold edit_distance.
    change (length (@nil ascii)) with 0.
    rewrite cell_n_0, repeat_length, Z2Nat.id by lia. reflexivity. }
  split; [reflexivity|]. split; [reflexivity|].
  split; [exact Hd|]. split; [exact He|].
  unfold score_word, formula_score. rewrite Hd, He.
  change (length (@nil ascii)) with 0.
  vm_compute. reflexivity.
Qed.


(** ** Rounding to nearest *)

Section Rounding.

Open Scope Z_scope.

(** [digits2_pos p] is the number of bits of [p]. *)
Lemma digits2_pos_bounds : forall p,
  2 ^ (Z.pos (digits2_pos p) - 1) <= Z.pos p < 2 ^ Z.pos (digits2_pos p).
Proof.
  assert (P : forall d, 0 < d ->
            2 ^ (Z.succ d - 1) = 2 * 2 ^ (d - 1) /\ 2 ^ Z.succ d = 2 * 2 ^ d).
  { intros d Hd. split.
    - replace (Z.succ d - 1) with (Z.succ (d - 1)) by lia.
      apply Z.pow_succ_r. lia.
    - apply Z.pow_succ_r. lia. }
  induction p as [p IH|p IH|]; simpl digits2_pos.
  - rewrite Pos2Z.inj_succ, (Pos2Z.inj_xI p).
    destruct (P (Z.pos (digits2_pos p))) as [E1 E2]; [lia|].
    rewrite E1, E2. lia.
  - rewrite Pos2Z.inj_succ, (Pos2Z.inj_xO p).
    destruct (P (Z.pos (digits2_pos p))) as [E1 E2]; [lia|].
    rewrite E1, E2. lia.
  - simpl. lia.
Qed.

Lemma digits2_pos_unique : forall p k,
  2 ^ (k - 1) <= Z.pos p < 2 ^ k -> Z.pos (digits2_pos p) = k.
Proof.
  intros p k [Hlo Hhi]. pose proof (digits2_pos_bounds p) as [Dlo Dhi].
  set (d := Z.pos (digits2_pos p)) in *.
  assert (Hk : 0 < k).
  { destruct (Z.lt_total 0 k) as [H|[H|H]]; auto.
    - subst k. simpl in Hhi. lia.
    - rewrite Z.pow_neg_r in Hhi by lia. lia. }
  destruct (Z.lt_total d k) as [H|[H|H]]; [|exact H|].
  - assert (2 ^ d <= 2 ^ (k - 1)) by (apply Z.pow_le_mono_r; lia). lia.
  - assert (2 ^ k <= 2 ^ (d - 1)) by (apply Z.pow_le_mono_r; lia). lia.
Qed.

(** One shift to the right: the mantissa is halved, its last bit becomes
    the round bit, and the old round bit goes into the sticky bit. *)
Lemma shr_1_spec : forall m r s,
  0 <= m ->
  shr_1 (Build_shr_record m r s) =
  Build_shr_record (Z.div2 m) (Z.odd m) (r || s).
Proof.
  intros [|[p|p|]|p] r s H; try reflexivity. lia.
Qed.

Lemma shr_inv_step : forall k twoM mrs,
  0 <= k -> shr_inv k twoM mrs -> shr_inv (k + 1) twoM (shr_1 mrs).
Proof.
  intros k twoM [m r s] Hk [t [E [Ht [Hs Hm]]]]. cbn [shr_m shr_r shr_s] in *.
  rewrite shr_1_spec by exact Hm. unfold shr_inv. cbn [shr_m shr_r shr_s].
  assert (P1 : 2 ^ (k + 1) = 2 * 2 ^ k) by (rewrite Z.pow_add_r; lia).
  assert (P2 : 2 ^ (k + 1 + 1) = 4 * 2 ^ k) by (rewrite !Z.pow_add_r; lia).
  assert (P0 : 0 < 2 ^ k) by (apply Z.pow_pos_nonneg; lia).
  rewrite P1 in *. rewrite P2. set (P := 2 ^ k) in *.
  pose proof (Z.div2_odd m) as Hd. set (m' := Z.div2 m) in *.
  assert (Hm' : 0 <= m') by (apply Z.div2_nonneg; exact Hm).
  exists (P * Z.b2z r + t).
  destruct (Z.odd m); destruct r; cbn [Z.b2z orb] in *.
  - split; [rewrite E, Hd; ring|]. split; [lia|]. split; [|exact Hm'].
    split; [intros _; lia | reflexivity].
  - split; [rewrite E, Hd; ring|]. split; [lia|]. split; [|exact Hm'].
    rewrite Hs. split; intros; lia.
  - split; [rewrite E, Hd; ring|]. split; [lia|]. split; [|exact Hm'].
    split; [intros _; lia | reflexivity].
  - split; [rewrite E, Hd; ring|]. split; [lia|]. split; [|exact Hm'].
    rewrite Hs. split; intros; lia.
Qed.

(** [p] shifts to the right keep the record faithful. *)
Lemma shr_inv_iter : forall p k twoM mrs,
  0 <= k -> shr_inv k twoM mrs ->
  shr_inv (k + Z.pos p) twoM (SpecFloat.iter_pos shr_1 p mrs).
Proof.
  induction p as [p IH|p IH|]; intros k twoM mrs Hk H; simpl.
  - rewrite Pos2Z.inj_xI.
    replace (k + (2 * Z.pos p + 1)) with (k + 1 + Z.pos p + Z.pos p) by lia.
    apply IH; [lia|]. apply IH; [lia|]. now apply shr_inv_step.
  - rewrite Pos2Z.inj_xO.
    replace (k + 2 * Z.pos p) with (k + Z.pos p + Z.pos p) by lia.
    apply IH; [lia|]. now apply IH.
  - now apply shr_inv_step.
Qed.

Lemma shr_inv_start : forall M, 0 <= M ->
  shr_inv 0 (2 * M) (Build_shr_record M false false).
Proof.
  intros M HM. exists 0. simpl. repeat split; try lia; discriminate.
Qed.

(** Rounding to nearest even of a shifted number is within half a unit. *)
Lemma round_nearest_even_inv : forall k twoM mrs,
  0 <= k -> shr_inv k twoM mrs ->
  let m1 := round_nearest_even (shr_m mrs) (loc_of_shr_record mrs) in
  (m1 = shr_m mrs \/ m1 = shr_m mrs + 1) /\
  Z.abs (2 ^ (k + 1) * m1 - twoM) <= 2 ^ k /\
  2 ^ (k + 1) * shr_m mrs <= twoM < 2 ^ (k + 1) * (shr_m mrs + 1).
Proof.
  intros k twoM [m r s] Hk [t [E [Ht [Hs Hm]]]] m1. subst m1.
  cbn [shr_m shr_r shr_s] in *.
  assert (P1 : 2 ^ (k + 1) = 2 * 2 ^ k) by (rewrite Z.pow_add_r; lia).
  assert (P0 : 0 < 2 ^ k) by (apply Z.pow_pos_nonneg; lia).
  rewrite P1 in *. set (P := 2 ^ k) in *.
  assert (Ht' : s = false -> t = 0).
  { intros ->. destruct (Z.eq_dec t 0) as [|N]; [assumption|].
    assert (H : false = true) by (apply Hs; lia). discriminate. }
  assert (Ht'' : s = true -> 0 < t) by apply Hs.
  clear Hs.
  destruct r, s; cbn [Z.b2z loc_of_shr_record round_nearest_even] in *.
  - specialize (Ht'' eq_refl). split; [now right|]. split; nia.
  - specialize (Ht' eq_refl). subst t.
    destruct (Z.even m); (split; [auto|]); split; nia.
  - specialize (Ht'' eq_refl). split; [now left|]. split; nia.
  - specialize (Ht' eq_refl). subst t. split; [now left|]. split; nia.
Qed.

Lemma fexp_normal : forall x, -1074 <= x - 53 -> fexp prec emax x = x - 53.
Proof. intros x H. unfold fexp, emin, prec, emax. lia. Qed.

Lemma shr_fexp_noshift : forall m e l,
  fexp prec emax (Zdigits2 m + e) - e <= 0 ->
  shr_fexp prec emax m e l = (shr_record_of_loc m l, e).
Proof.
  intros m e l H. unfold shr_fexp, shr.
  destruct (fexp prec emax (Zdigits2 m + e) - e); try reflexivity. lia.
Qed.

Lemma shr_fexp_shift : forall m e l p,
  fexp prec emax (Zdigits2 m + e) - e = Z.pos p ->
  shr_fexp prec emax m e l =
  (SpecFloat.iter_pos shr_1 p (shr_record_of_loc m l), e + Z.pos p).
Proof. intros m e l p H. unfold shr_fexp, shr. now rewrite H. Qed.

(** Rounding a positive number [M * 2^e] of at least 53 bits, in the range
    of the normal numbers: the result is a normal number within a relative
    distance of [2^-53]. *)
Lemma binary_round_aux_normal : forall M e,
  let k := Z.pos (digits2_pos M) - 53 in
  0 <= k -> -1074 <= e + k -> e + k + 1 <= 971 ->
  exists m'' e'',
    binary_round_aux prec emax false (Z.pos M) e loc_Exact =
      S754_finite false m'' e'' /\
    mant53 m'' /\
    (e'' = e + k \/ e'' = e + k + 1) /\
    Z.abs (Z.pos m'' * 2 ^ (e'' - e) - Z.pos M) * 2 ^ 53 <= Z.pos M.
Proof.
  intros M e k Hk Hlo Hhi.
  pose proof (digits2_pos_bounds M) as [Dlo Dhi].
  replace (Z.pos (digits2_pos M)) with (53 + k) in Dlo, Dhi by (unfold k; lia).
  replace (53 + k - 1) with (52 + k) in Dlo by lia.
  rewrite Z.pow_add_r in Dlo, Dhi by lia.
  assert (P0 : 0 < 2 ^ k) by (apply Z.pow_pos_nonneg; lia).
  assert (Hfexp : fexp prec emax (Zdigits2 (Z.pos M) + e) - e = k).
  { cbn [Zdigits2]. rewrite fexp_normal; unfold k; lia. }
  unfold binary_round_aux, mant53.
  destruct (Z.eq_dec k 0) as [K0|K0].
  - (* exactly 53 bits: nothing is shifted out *)
    rewrite shr_fexp_noshift by lia. cbn [shr_record_of_loc shr_m loc_of_shr_record
      round_nearest_even].
    rewrite shr_fexp_noshift by lia. cbn [shr_record_of_loc shr_m].
    assert (E : (e <=? emax - prec) = true).
    { apply Z.leb_le. unfold emax, prec. lia. }
    rewrite E. exists M, e. rewrite K0 in *. change (2 ^ 0) with 1 in *.
    split; [reflexivity|]. split; [lia|]. split; [left; lia|].
    replace (e - e) with 0 by lia. change (2 ^ 0) with 1.
    rewrite Z.mul_1_r, Z.sub_diag. simpl. lia.
  - destruct k as [|p|p] eqn:Ek; [congruence| |lia]. rewrite <- Ek in *. clear K0.
    rewrite (shr_fexp_shift _ _ _ p) by (rewrite Hfexp; exact Ek).
    assert (Inv : shr_inv k (2 * Z.pos M)
              (SpecFloat.iter_pos shr_1 p (shr_record_of_loc (Z.pos M) loc_Exact))).
    { replace k with (0 + Z.pos p) by lia.
      apply shr_inv_iter; [lia|]. apply shr_inv_start. lia. }
    set (mrs' := SpecFloat.iter_pos shr_1 p _) in *.
    destruct (round_nearest_even_inv k _ mrs' Hk Inv) as [Hm1 [Habs Hq]].
    set (m1 := round_nearest_even (shr_m mrs') (loc_of_shr_record mrs')) in *.
    set (q := shr_m mrs') in *.
    assert (P1 : 2 ^ (k + 1) = 2 * 2 ^ k) by (rewrite Z.pow_add_r; lia).
    rewrite P1 in *. set (P := 2 ^ k) in *.
    assert (Hq52 : 2 ^ 52 <= q < 2 ^ 53) by (split; nia).
    assert (Hm52 : 2 ^ 52 <= m1 <= 2 ^ 53) by lia.
    assert (HR : Z.abs (m1 * P - Z.pos M) * 2 ^ 53 <= Z.pos M).
    { assert (Z.abs (m1 * P - Z.pos M) * 2 <= P) by lia.
      change (2 ^ 53) with (2 * 2 ^ 52). nia. }
    rewrite <- Ek.
    destruct m1 as [|pm1|pm1] eqn:Em1; try (change (2 ^ 52) with 4503599627370496 in Hm52; lia).
    destruct (Z.eq_dec (Z.pos pm1) (2 ^ 53)) as [Top|NTop].
    + (* the rounding carried into a 54th bit *)
      injection Top as ->.
      assert (E : shr_fexp prec emax (Z.pos 9007199254740992) (e + k) loc_Exact =
                  (Build_shr_record (2 ^ 52) false false, e + k + 1)).
      { rewrite (shr_fexp_shift _ _ _ 1).
        - reflexivity.
        - cbn [Zdigits2]. change (Z.pos (digits2_pos 9007199254740992)) with 54.
          rewrite fexp_normal; lia. }
      rewrite E. cbn [shr_m]. change (2 ^ 52) with (Z.pos 4503599627370496).
      cbv iota.
      assert (E' : (e + k + 1 <=? emax - prec) = true).
      { apply Z.leb_le. unfold emax, prec. lia. }
      rewrite E'. exists 4503599627370496%positive, (e + k + 1).
      split; [reflexivity|]. split; [change (2 ^ 52) with 4503599627370496;
        change (2 ^ 53) with 9007199254740992; lia|].
      split; [right; reflexivity|].
      replace (e + k + 1 - e) with (k + 1) by lia. rewrite Z.pow_add_r by lia.
      fold P. change (2 ^ 1) with 2.
      replace (Z.pos 4503599627370496 * (P * 2)) with (9007199254740992 * P) by ring.
      exact HR.
    + assert (D53 : Z.pos (digits2_pos pm1) = 53).
      { apply digits2_pos_unique. change (53 - 1) with 52. lia. }
      rewrite shr_fexp_noshift
        by (cbn [Zdigits2]; rewrite D53, fexp_normal; lia).
      cbn [shr_record_of_loc shr_m].
      assert (E' : (e + k <=? emax - prec) = true).
      { apply Z.leb_le. unfold emax, prec. lia. }
      rewrite E'. exists pm1, (e + k).
      split; [reflexivity|]. split; [lia|]. split; [left; reflexivity|].
      replace (e + k - e) with k by lia. fold P. exact HR.
Qed.

(** A number of exactly 53 bits in the normal range is not rounded. *)
Lemma binary_round_aux_exact : forall M e,
  Z.pos (digits2_pos M) = 53 -> -1074 <= e <= 971 ->
  binary_round_aux prec emax false (Z.pos M) e loc_Exact =
  S754_finite false M e.
Proof.
  intros M e D He. unfold binary_round_aux.
  assert (Hfexp : fexp prec emax (Zdigits2 (Z.pos M) + e) - e <= 0).
  { cbn [Zdigits2]. rewrite D, fexp_normal; lia. }
  rewrite shr_fexp_noshift by exact Hfexp.
  cbn [shr_record_of_loc shr_m loc_of_shr_record
       round_nearest_even].
  rewrite shr_fexp_noshift by exact Hfexp. cbn [shr_record_of_loc shr_m].
  assert (E : (e <=? emax - prec) = true).
  { apply Z.leb_le. unfold emax, prec. lia. }
  now rewrite E.
Qed.

(** Aligning to a smaller exponent shifts the mantissa to the left. *)
Lemma shl_align_fst : forall mx ex ez,
  ez <= ex -> Z.pos (fst (shl_align mx ex ez)) = Z.pos mx * 2 ^ (ex - ez).
Proof.
  intros mx ex ez H. unfold shl_align.
  destruct (ez - ex) as [|d|d] eqn:E; try lia.
  - replace (ex - ez) with 0 by lia. cbn [fst]. lia.
  - cbn [fst]. replace (ex - ez) with (Z.pos d) by lia.
    change (Pos.iter xO mx d) with (shift_pos d mx).
    rewrite shift_pos_correct, Zpower_pos_nat, Zpower_nat_Z.
    rewrite positive_nat_Z. ring.
Qed.

Lemma shl_align_snd : forall mx ex ez,
  ez <= ex -> snd (shl_align mx ex ez) = ez.
Proof.
  intros mx ex ez H. unfold shl_align.
  destruct (ez - ex) as [|d|d] eqn:E; cbn [snd]; lia.
Qed.

Lemma shl_align_id : forall mx ex ez,
  ex <= ez -> shl_align mx ex ez = (mx, ex).
Proof.
  intros mx ex ez H. unfold shl_align.
  destruct (ez - ex) as [|d|d] eqn:E; try reflexivity. lia.
Qed.

End Rounding.

(** ** The error of one operation *)

Section RoundingError.

Open Scope Q_scope.

Lemma pow2_pos : forall e : Z, 0 < 2 ^ e.
Proof. intros e. apply Qpower_0_lt. reflexivity. Qed.

Lemma pow2_add : forall a b : Z, 2 ^ (a + b) == 2 ^ a * 2 ^ b.
Proof. intros a b. apply Qpower_plus. discriminate. Qed.

Lemma pow2_inject : forall k : Z, (0 <= k)%Z -> inject_Z (2 ^ k) == 2 ^ k.
Proof. intros k H. exact (Zpower_Qpower 2 k H). Qed.

Lemma sf_val_pos : forall m e, 0 < sf_val m e.
Proof.
  intros m e. unfold sf_val. apply Qmult_lt_0_compat; [reflexivity | apply pow2_pos].
Qed.

Lemma sf_val_shift : forall m e e0,
  (e0 <= e)%Z -> sf_val m e == inject_Z (Z.pos m * 2 ^ (e - e0)) * 2 ^ e0.
Proof.
  intros m e e0 H. unfold sf_val.
  replace e with ((e - e0) + e0)%Z at 1 by lia.
  rewrite pow2_add, inject_Z_mult, pow2_inject by lia. ring.
Qed.

(** A rounded mantissa within [M / 2^53] of [M] is within a relative
    distance of [2^-53]. *)
Lemma near_from_Z : forall (R M e : Z),
  (Z.abs (R - M) * 2 ^ 53 <= M)%Z ->
  inject_Z M * 2 ^ e * (1 - unit_roundoff) <= inject_Z R * 2 ^ e /\
  inject_Z R * 2 ^ e <= inject_Z M * 2 ^ e * (1 + unit_roundoff).
Proof.
  intros R M e H. change (2 ^ 53)%Z with 9007199254740992%Z in H.
  assert (Ha : (- M <= (R - M) * 9007199254740992)%Z) by lia.
  assert (Hb : ((R - M) * 9007199254740992 <= M)%Z) by lia.
  rewrite Zle_Qle in Ha, Hb.
  unfold Z.sub in Ha, Hb.
  rewrite ?inject_Z_mult, ?inject_Z_plus, ?inject_Z_opp in Ha, Hb.
  change (inject_Z 9007199254740992) with (9007199254740992 # 1) in Ha, Hb.
  assert (P : 0 <= 2 ^ e) by apply Qlt_le_weak, pow2_pos.
  assert (H1 : inject_Z M * (1 - unit_roundoff) <= inject_Z R) by (unfold unit_roundoff; lra).
  assert (H2 : inject_Z R <= inject_Z M * (1 + unit_roundoff)) by (unfold unit_roundoff; lra).
  split.
  - setoid_replace (inject_Z M * 2 ^ e * (1 - unit_roundoff))
      with (inject_Z M * (1 - unit_roundoff) * 2 ^ e) by ring.
    now apply Qmult_le_compat_r.
  - setoid_replace (inject_Z M * 2 ^ e * (1 + unit_roundoff))
      with (inject_Z M * (1 + unit_roundoff) * 2 ^ e) by ring.
    now apply Qmult_le_compat_r.
Qed.

Lemma binary_round_aux_near : forall M e,
  let k := (Z.pos (digits2_pos M) - 53)%Z in
  (0 <= k)%Z -> (-1074 <= e + k)%Z -> (e + k + 1 <= 971)%Z ->
  exists m e',
    binary_round_aux prec emax false (Z.pos M) e loc_Exact =
      S754_finite false m e' /\
    mant53 m /\ (e + k <= e' <= e + k + 1)%Z /\
    near (inject_Z (Z.pos M) * 2 ^ e) (sf_val m e').
Proof.
  intros M e k Hk Hlo Hhi.
  destruct (binary_round_aux_normal M e Hk Hlo Hhi) as [m [e' [E [Hm [He H]]]]].
  exists m, e'. split; [exact E|]. split; [exact Hm|]. split; [fold k; lia|].
  unfold near. rewrite (sf_val_shift m e' e) by (fold k in He; lia).
  now apply near_from_Z.
Qed.

(** The product of two normal numbers, away from overflow and underflow,
    is a normal number within [2^-53] of the exact product. *)
Lemma SFmul_near : forall mx ex my ey,
  mant53 mx -> mant53 my -> (-900 <= ex + ey <= 800)%Z ->
  exists m e,
    SF64mul (S754_finite false mx ex) (S754_finite false my ey) =
      S754_finite false m e /\
    mant53 m /\ (ex + ey + 52 <= e <= ex + ey + 54)%Z /\
    near (sf_val mx ex * sf_val my ey) (sf_val m e).
Proof.
  intros mx ex my ey Hx Hy He. unfold SF64mul, SFmul. cbn [xorb].
  unfold mant53 in Hx, Hy.
  change (2 ^ 52)%Z with 4503599627370496%Z in Hx, Hy.
  change (2 ^ 53)%Z with 9007199254740992%Z in Hx, Hy.
  assert (Hp : (2 ^ 104 <= Z.pos (mx * my) < 2 ^ 106)%Z).
  { rewrite Pos2Z.inj_mul.
    change (2 ^ 104)%Z with (4503599627370496 * 4503599627370496)%Z.
    change (2 ^ 106)%Z with (9007199254740992 * 9007199254740992)%Z.
    split; nia. }
  assert (D : (Z.pos (digits2_pos (mx * my)) = 105 \/
               Z.pos (digits2_pos (mx * my)) = 106)%Z).
  { destruct (Z_lt_dec (Z.pos (mx * my)) (2 ^ 105)) as [H|H].
    - left. apply digits2_pos_unique. change (105 - 1)%Z with 104%Z. lia.
    - right. apply digits2_pos_unique. change (106 - 1)%Z with 105%Z. lia. }
  destruct (binary_round_aux_near (mx * my) (ex + ey)) as [m [e [E [Hm [Hb H]]]]];
    try lia.
  exists m, e. split; [exact E|]. split; [exact Hm|]. split; [lia|].
  unfold near in *. unfold sf_val at 1 2 4 5.
  setoid_replace (inject_Z (Z.pos mx) * 2 ^ ex * (inject_Z (Z.pos my) * 2 ^ ey))
    with (inject_Z (Z.pos (mx * my)) * 2 ^ (ex + ey)); [exact H|].
  rewrite Pos2Z.inj_mul, inject_Z_mult, pow2_add. ring.
Qed.

(** Normalizing a sum of two aligned mantissas whose exponents differ by
    [delta]. *)
Lemma binary_normalize_near : forall s ez delta,
  (0 <= delta)%Z ->
  (2 ^ (52 + delta) <= Z.pos s < 2 ^ (54 + delta))%Z ->
  (-1000 <= ez)%Z -> (ez + delta <= 900)%Z ->
  exists m e,
    binary_normalize prec emax (Z.pos s) ez false = S754_finite false m e /\
    mant53 m /\ (ez + delta <= e <= ez + delta + 2)%Z /\
    near (inject_Z (Z.pos s) * 2 ^ ez) (sf_val m e).
Proof.
  intros s ez delta Hd Hs Hlo Hhi. cbn [binary_normalize]. unfold binary_round.
  assert (D : (Z.pos (digits2_pos s) = 53 + delta \/
               Z.pos (digits2_pos s) = 54 + delta)%Z).
  { destruct (Z_lt_dec (Z.pos s) (2 ^ (53 + delta))) as [H|H].
    - left. apply digits2_pos_unique.
      replace (53 + delta - 1)%Z with (52 + delta)%Z by lia. lia.
    - right. apply digits2_pos_unique.
      replace (54 + delta - 1)%Z with (53 + delta)%Z by lia. lia. }
  rewrite shl_align_id by (rewrite fexp_normal; lia).
  destruct (binary_round_aux_near s ez) as [m [e [E [Hm [Hb H]]]]]; try lia.
  exists m, e. split; [exact E|]. split; [exact Hm|]. split; [lia | exact H].
Qed.

Lemma near_eq : forall x x' v, x == x' -> near x v -> near x' v.
Proof. unfold near. intros x x' v E [H1 H2]. rewrite <- E. now split. Qed.

Lemma near_pos : forall x v, 0 <= x -> near x v -> 0 <= v.
Proof.
  unfold near, unit_roundoff. intros x v Hx [H1 _].
  assert (0 <= x * (1 - (1 # 9007199254740992))).
  { apply Qmult_le_0_compat; [exact Hx | discriminate]. }
  lra.
Qed.

(** The sum of two positive normal numbers, away from overflow, is a
    normal number within [2^-53] of the exact sum. *)
Lemma SFadd_near : forall mx ex my ey,
  mant53 mx -> mant53 my ->
  (-900 <= ex <= 800)%Z -> (-900 <= ey <= 800)%Z ->
  exists m e,
    SF64add (S754_finite false mx ex) (S754_finite false my ey) =
      S754_finite false m e /\
    mant53 m /\ (Z.max ex ey <= e <= Z.max ex ey + 2)%Z /\
    near (sf_val mx ex + sf_val my ey) (sf_val m e).
Proof.
  intros mx ex my ey Hx Hy Hex Hey. unfold SF64add, SFadd. cbn [cond_Zopp].
  set (ez := Z.min ex ey). cbn [Z.add].
  set (delta := (Z.max ex ey - ez)%Z).
  assert (Hsum : (Z.pos (fst (shl_align mx ex ez) + fst (shl_align my ey ez)) =
                  Z.pos mx * 2 ^ (ex - ez) + Z.pos my * 2 ^ (ey - ez))%Z).
  { rewrite Pos2Z.inj_add, !shl_align_fst by (unfold ez; lia). reflexivity. }
  unfold mant53 in Hx, Hy.
  change (2 ^ 52)%Z with 4503599627370496%Z in Hx, Hy.
  change (2 ^ 53)%Z with 9007199254740992%Z in Hx, Hy.
  assert (Hb : (2 ^ (52 + delta) <=
                Z.pos (fst (shl_align mx ex ez) + fst (shl_align my ey ez)) <
                2 ^ (54 + delta))%Z).
  { rewrite Hsum, !Z.pow_add_r by (unfold delta, ez; lia).
    change (2 ^ 52)%Z with 4503599627370496%Z.
    change (2 ^ 54)%Z with 18014398509481984%Z.
    assert (P : (1 <= 2 ^ delta)%Z).
    { change 1%Z with (2 ^ 0)%Z. apply Z.pow_le_mono_r; unfold delta, ez; lia. }
    destruct (Z_le_dec ex ey) as [L|L].
    - replace (ex - ez)%Z with 0%Z by (unfold ez; lia).
      replace (ey - ez)%Z with delta by (unfold delta, ez; lia).
      change (2 ^ 0)%Z with 1%Z. nia.
    - replace (ey - ez)%Z with 0%Z by (unfold ez; lia).
      replace (ex - ez)%Z with delta by (unfold delta, ez; lia).
      change (2 ^ 0)%Z with 1%Z. nia. }
  destruct (binary_normalize_near
              (fst (shl_align mx ex ez) + fst (shl_align my ey ez)) ez delta)
    as [m [e [E [Hm [He H]]]]];
    [unfold delta, ez; lia | exact Hb | unfold ez; lia | unfold delta, ez; lia |].
  exists m, e. split; [exact E|]. split; [exact Hm|].
  split; [unfold delta in He; lia|].
  eapply near_eq; [|exact H].
  rewrite Hsum, inject_Z_plus.
  rewrite (sf_val_shift mx ex ez), (sf_val_shift my ey ez) by (unfold ez; lia). ring.
Qed.

(** Converting a positive integer below [2^52] is exact. *)
Lemma of_uint63_exact : forall n,
  (0 < n < 2 ^ 52)%Z ->
  exists m e,
    Prim2SF (of_uint63 (Uint63.of_Z n)) = S754_finite false m e /\
    mant53 m /\ (-52 <= e <= 0)%Z /\ sf_val m e == inject_Z n.
Proof.
  intros n Hn. rewrite of_uint63_spec, Uint63.of_Z_spec.
  rewrite Z.mod_small
    by (change wB with (2 ^ 63)%Z; change (2 ^ 63)%Z with 9223372036854775808%Z;
        change (2 ^ 52)%Z with 4503599627370496%Z in Hn; lia).
  destruct n as [|pn|pn]; try lia. cbn [binary_normalize]. unfold binary_round.
  pose proof (digits2_pos_bounds pn) as [Dlo Dhi].
  set (d := Z.pos (digits2_pos pn)) in *.
  assert (Hd : (1 <= d <= 52)%Z).
  { split; [unfold d; lia|].
    destruct (Z_le_dec d 52) as [L|L]; [exact L|].
    assert (2 ^ 52 <= 2 ^ (d - 1))%Z by (apply Z.pow_le_mono_r; lia). lia. }
  rewrite fexp_normal by lia.
  assert (Hf : Z.pos (fst (shl_align pn 0 (d + 0 - 53))) =
               (Z.pos pn * 2 ^ (53 - d))%Z).
  { rewrite shl_align_fst by lia. f_equal. f_equal. lia. }
  assert (Hs : snd (shl_align pn 0 (d + 0 - 53)) = (d - 53)%Z).
  { rewrite shl_align_snd by lia. lia. }
  destruct (shl_align pn 0 (d + 0 - 53)) as [mz ez]. cbn [fst snd] in Hf, Hs.
  subst ez.
  assert (P1 : (2 ^ (d - 1) * 2 ^ (53 - d) = 2 ^ 52)%Z).
  { rewrite <- Z.pow_add_r by lia. f_equal. lia. }
  assert (P2 : (2 ^ d * 2 ^ (53 - d) = 2 ^ 53)%Z).
  { rewrite <- Z.pow_add_r by lia. f_equal. lia. }
  assert (P0 : (0 < 2 ^ (53 - d))%Z) by (apply Z.pow_pos_nonneg; lia).
  assert (Hm : mant53 mz).
  { unfold mant53. rewrite Hf, <- P1, <- P2. split; nia. }
  exists mz, (d - 53)%Z. split.
  - apply binary_round_aux_exact; [|lia].
    apply digits2_pos_unique. change (53 - 1)%Z with 52%Z. exact Hm.
  - split; [exact Hm|]. split; [lia|].
    unfold sf_val. rewrite Hf, inject_Z_mult, pow2_inject by lia.
    rewrite <- Qmult_assoc, <- pow2_add.
    replace (53 - d + (d - 53))%Z with 0%Z by lia.
    change (2 ^ 0) with 1. ring.
Qed.

(** The order of positive normal numbers is the order of their values. *)
Lemma SFltb_val : forall m1 e1 m2 e2,
  mant53 m1 -> mant53 m2 -> sf_val m1 e1 < sf_val m2 e2 ->
  SFltb (S754_finite false m1 e1) (S754_finite false m2 e2) = true.
Proof.
  intros m1 e1 m2 e2 H1 H2 H. unfold SFltb. cbn [SFcompare].
  unfold mant53 in *.
  change (2 ^ 52)%Z with 4503599627370496%Z in *.
  change (2 ^ 53)%Z with 9007199254740992%Z in *.
  destruct (Z.compare_spec e1 e2) as [E|E|E]; [|reflexivity|].
  - subst e2. unfold sf_val in H.
    apply Qmult_lt_r in H; [|apply pow2_pos].
    rewrite <- Zlt_Qlt in H. rewrite Pos.compare_cont_spec. cbn [Pos.switch_Eq].
    apply Pos2Z.pos_lt_pos in H. now rewrite (proj2 (Pos.compare_lt_iff _ _) H).
  - exfalso. rewrite (sf_val_shift m1 e1 e2) in H by lia. unfold sf_val in H.
    apply Qmult_lt_r in H; [|apply pow2_pos].
    rewrite <- Zlt_Qlt in H.
    assert (2 ^ 1 <= 2 ^ (e1 - e2))%Z by (apply Z.pow_le_mono_r; lia).
    change (2 ^ 1)%Z with 2%Z in *. nia.
Qed.

Lemma mant53_dec : forall m,
  ((4503599627370496 <=? Z.pos m) && (Z.pos m <? 9007199254740992))%Z = true ->
  mant53 m.
Proof.
  intros m H. apply andb_prop in H. destruct H as [H1 H2].
  apply Z.leb_le in H1. apply Z.ltb_lt in H2. split; assumption.
Qed.

(** [1.0 + len_bonus] for a size below [2^31] is a normal number between
    [1 - 2^-53] and [2^26]. *)
Lemma size_part_bounds : forall n,
  (0 <= n < 2147483648)%Z ->
  exists m e,
    size_part n = S754_finite false m e /\ mant53 m /\ (-52 <= e <= 0)%Z /\
    1 - unit_roundoff <= sf_val m e /\ sf_val m e <= 67108864.
Proof.
  intros n Hn. unfold size_part.
  destruct (Z.eq_dec n 0) as [->|Hz].
  - exists 4503599627370496%positive, (-52)%Z.
    split; [vm_compute; reflexivity|].
    split; [apply mant53_dec; reflexivity|]. split; [lia|].
    split; vm_compute; discriminate.
  - destruct (of_uint63_exact n) as [mN [eN [EN [HmN [HeN VN]]]]].
    { change (2 ^ 52)%Z with 4503599627370496%Z. lia. }
    rewrite EN. unfold sf_len_weight.
    destruct (SFmul_near mN eN 5764607523034235 (-58))
      as [mL [eL [EL [HmL [HeL NL]]]]];
      [exact HmN | apply mant53_dec; reflexivity | lia |].
    rewrite EL. unfold sf_one.
    destruct (SFadd_near 4503599627370496 (-52) mL eL)
      as [mA [eA [EA [HmA [HeA NA]]]]];
      [apply mant53_dec; reflexivity | exact HmL | lia | lia |].
    exists mA, eA. split; [exact EA|]. split; [exact HmA|]. split; [lia|].
    assert (V1 : sf_val 4503599627370496 (-52) == 1) by (vm_compute; reflexivity).
    assert (V2 : sf_val 5764607523034235 (-58) ==
                 5764607523034235 # 288230376151711744)
      by (vm_compute; reflexivity).
    apply (near_eq _ (inject_Z n * (5764607523034235 # 288230376151711744)))
      in NL; [|rewrite VN, V2; reflexivity].
    apply (near_eq _ (1 + sf_val mL eL)) in NA; [|rewrite V1; reflexivity].
    assert (Q0 : 0 <= inject_Z n).
    { change 0 with (inject_Z 0). rewrite <- Zle_Qle. lia. }
    assert (Q1 : inject_Z n <= 2147483648).
    { change 2147483648 with (inject_Z 2147483648). rewrite <- Zle_Qle. lia. }
    unfold near, unit_roundoff in *. destruct NL as [L1 L2], NA as [A1 A2].
    split; lra.
Qed.

(** [freq_bonus] for a positive counter is within [2^-53] of the counter
    times the binary64 value of [0.05]. *)
Lemma freq_part_near : forall f,
  (0 < f < 4294967296)%Z ->
  exists m e,
    freq_part f = S754_finite false m e /\ mant53 m /\ (-57 <= e <= 0)%Z /\
    near (inject_Z f * (7205759403792794 # 144115188075855872)) (sf_val m e).
Proof.
  intros f Hf. unfold freq_part.
  destruct (of_uint63_exact f) as [mF [eF [EF [HmF [HeF VF]]]]].
  { change (2 ^ 52)%Z with 4503599627370496%Z. lia. }
  rewrite EF. unfold sf_freq_weight.
  destruct (SFmul_near mF eF 7205759403792794 (-57))
    as [mB [eB [EB [HmB [HeB NB]]]]];
    [exact HmF | apply mant53_dec; reflexivity | lia |].
  exists mB, eB. split; [exact EB|]. split; [exact HmB|]. split; [lia|].
  eapply near_eq; [|exact NB].
  rewrite VF. apply Qmult_comp; [reflexivity | vm_compute; reflexivity].
Qed.

(** The sum grows with the counter: the three rounding errors together
    are far smaller than one step of [freq_bonus]. *)
Lemma score_parts_increase : forall n f,
  (0 <= n < 2147483648)%Z -> (0 <= f < 4294967295)%Z ->
  SFltb (SF64add (size_part n) (freq_part f))
        (SF64add (size_part n) (freq_part (f + 1))) = true.
Proof.
  intros n f Hn Hf.
  destruct (size_part_bounds n Hn) as [mA [eA [EA [HmA [HeA [A1 A2]]]]]].
  destruct (freq_part_near (f + 1)) as [mB' [eB' [EB' [HmB' [HeB' NB']]]]];
    [lia|].
  rewrite EA, EB'.
  destruct (SFadd_near mA eA mB' eB') as [mS' [eS' [ES' [HmS' [HeS' NS']]]]];
    [exact HmA | exact HmB' | lia | lia |].
  rewrite ES'.
  apply (near_eq _ ((inject_Z f + 1) *
                    (7205759403792794 # 144115188075855872))) in NB';
    [|rewrite inject_Z_plus; reflexivity].
  assert (Q0 : 0 <= inject_Z f).
  { change 0 with (inject_Z 0). rewrite <- Zle_Qle. lia. }
  assert (Q1 : inject_Z f <= 4294967296).
  { change 4294967296 with (inject_Z 4294967296). rewrite <- Zle_Qle. lia. }
  destruct (Z.eq_dec f 0) as [->|Hz].
  - replace (freq_part 0) with (S754_zero false) by (vm_compute; reflexivity).
    replace (SF64add (S754_finite false mA eA) (S754_zero false))
      with (S754_finite false mA eA) by reflexivity.
    apply SFltb_val; [exact HmA | exact HmS' |].
    unfold near, unit_roundoff in *. destruct NB' as [B1 B2], NS' as [S1 S2].
    change (inject_Z 0) with 0 in *. lra.
  - destruct (freq_part_near f) as [mB [eB [EB [HmB [HeB NB]]]]]; [lia|].
    rewrite EB.
    destruct (SFadd_near mA eA mB eB) as [mS [eS [ES [HmS [HeS NS]]]]];
      [exact HmA | exact HmB | lia | lia |].
    rewrite ES.
    apply SFltb_val; [exact HmS | exact HmS' |].
    unfold near, unit_roundoff in *.
    destruct NB' as [B1' B2'], NS' as [S1' S2'], NB as [B1 B2], NS as [S1 S2].
    lra.
Qed.

End RoundingError.

(** ** Inserting a word again *)

Section Reinsertion.

Context {layout : MapLayout}.

Lemma map_shape_update : forall c g m v,
  find c m = Some v -> shape (g v) = shape v ->
  map (fun kv => (fst kv, shape (snd kv))) (update c g m) =
  map (fun kv => (fst kv, shape (snd kv))) m.
Proof.
  induction m as [|[k x] m IH]; intros v Hf Hg; simpl in *; [discriminate|].
  destruct (Ascii.eqb k c) eqn:E; simpl.
  - injection Hf as ->. now rewrite Hg.
  - f_equal. eapply IH; eassumption.
Qed.

(** Inserting a word the trie contains leaves its structure as it is. *)
Lemma shape_insert_again : forall w node,
  contains_node w node = true -> shape (insert_node w node) = shape node.
Proof.
  induction w as [|c rest IH]; intros [kids terminal freq] H; simpl in *.
  - now subst terminal.
  - unfold ensured. destruct (find c kids) as [next|] eqn:E; [|discriminate].
    f_equal. eapply map_shape_update; [exact E | now apply IH].
Qed.

Lemma build_snoc : forall ws w,
  build (ws ++ [w]) = insert_node w (build ws).
Proof. intros ws w. unfold build. now rewrite fold_left_app. Qed.

(** Every inserted word is scored once, with the counter of its node. *)
Lemma scored_entry_of_word : forall ws q w,
  In w ws ->
  In (mkScoredWord w (score_word q w (frequency_at w (build ws))))
     (collect_scored (build ws) [] [] q).
Proof.
  intros ws q w Hin. rewrite collect_scored_entries. simpl.
  apply (in_map (score_entry q) _ (w, frequency_at w (build ws))).
  eapply Permutation_in; [symmetry; apply all_entries_build|].
  rewrite frequency_at_build.
  apply (in_map (fun w => (w, wrap_u32 (Z.of_nat (occurrences w ws))))).
  now apply nodup_In.
Qed.

Lemma levenshtein_distance_same : forall w,
  (Z.of_nat (length w) < int_max)%Z -> levenshtein_distance w w = 0%Z.
Proof.
  intros w H. rewrite levenshtein_distance_cell by exact H. apply cell_diag.
Qed.

(** The score of a word against itself. *)
Lemma score_word_self : forall w f,
  (Z.of_nat (length w) < int_max)%Z ->
  score_word w w f =
  (1.0 + double_of_size (length w) * 0.02 + double_of_u32 f * 0.05)%float.
Proof.
  intros w f H. unfold score_word.
  rewrite levenshtein_distance_same by exact H. reflexivity.
Qed.

Lemma score_word_self_parts : forall w f,
  (Z.of_nat (length w) < int_max)%Z ->
  Prim2SF (score_word w w f) =
  SF64add (size_part (Z.of_nat (length w))) (freq_part f).
Proof.
  intros w f H. rewrite score_word_self by exact H.
  rewrite !FloatAxioms.add_spec, !FloatAxioms.mul_spec. reflexivity.
Qed.

(** One more insertion raises the score of a word against itself, as long
    as the counter does not wrap: the rounding errors of the three
    operations stay far below the [0.05] the counter adds. *)
Lemma score_word_self_increases : forall w f,
  (Z.of_nat (length w) < int_max)%Z ->
  (0 <= f < uint32_max)%Z ->
  (score_word w w f <? score_word w w (f + 1))%float = true.
Proof.
  intros w f Hw Hf.
  rewrite FloatAxioms.ltb_spec, !score_word_self_parts by exact Hw.
  apply score_parts_increase; unfold int_max, uint32_max in *; lia.
Qed.

(** C6, as the code has it. On the trie [t] reached from a new trie by
    calls that inserted [W] at least once, for [W] shorter than [2^31 - 1]
    and with a counter below [2^32 - 1]: inserting [W] again returns and
    leaves the node structure unchanged, increments the counter of [W] by
    one and leaves the counter of every other word; [search_ranked(W, L)]
    scores [W] before and after with these counters, the score being
    [1.0 + size * 0.02 + frequency * 0.05] in binary64 arithmetic, and the
    score after is strictly higher than the score before. *)
Theorem reinsertion_raises_score : forall ts cs W t rs,
  run cs (Trie_new ts) = Some (t, rs) ->
  In W (inserted cs) ->
  (Z.of_nat (length W) < int_max)%Z ->
  (frequency_at W (root_ t) < uint32_max)%Z ->
  exists t',
    insert W t = Some (t', tt) /\
    shape (root_ t') = shape (root_ t) /\
    frequency_at W (root_ t') = (frequency_at W (root_ t) + 1)%Z /\
    (forall V, V <> W ->
       frequency_at V (root_ t') = frequency_at V (root_ t)) /\
    In (mkScoredWord W (score_word W W (frequency_at W (root_ t))))
       (collect_scored (root_ t) [] [] W) /\
    In (mkScoredWord W (score_word W W (frequency_at W (root_ t'))))
       (collect_scored (root_ t') [] [] W) /\
    (forall f,
       score_word W W f =
       (1.0 + double_of_size (length W) * 0.02
            + double_of_u32 f * 0.05)%float) /\
    (score_word W W (frequency_at W (root_ t))
       <? score_word W W (frequency_at W (root_ t')))%float = true.
Proof.
  intros ts cs W t rs Hrun Hin Hlen Hf.
  apply run_new_inv in Hrun. subst t. simpl in *.
  set (ws := inserted cs) in *.
  pose proof (frequency_at_range W _ (wf_build ws)) as Hr.
  assert (Hnext : frequency_at W (insert_node W (build ws)) =
                  (frequency_at W (build ws) + 1)%Z).
  { rewrite frequency_at_insert_node by apply wf_build.
    destruct (str_eq_dec W W) as [_|N]; [|congruence].
    apply Z.mod_small. unfold uint32_modulus, uint32_max in *. lia. }
  exists (mkTrie (insert_node W (build ws)) ts false).
  split; [apply insert_free|]. simpl.
  split; [apply shape_insert_again; now apply contains_build|].
  split; [exact Hnext|].
  split.
  { intros V HV. rewrite frequency_at_insert_node by apply wf_build.
    destruct (str_eq_dec V W) as [E|_]; [contradiction|reflexivity]. }
  split; [now apply scored_entry_of_word|].
  split.
  { rewrite <- build_snoc. apply scored_entry_of_word.
    apply in_or_app. right. now left. }
  split; [intros f; now apply score_word_self|].
  rewrite Hnext. apply score_word_self_increases; [exact Hlen | lia].
Qed.

End Reinsertion.

(** [hello] inserted once, then again: the counter goes from 1 to 2 and
    the score of [hello] against itself rises. *)
Lemma reinsertion_raises_score_witness :
  exists t t',
    run (layout := front_layout) [Insert (lit "hello")] (Trie_new false) =
      Some (t, [Done]) /\
    insert (layout := front_layout) (lit "hello") t = Some (t', tt) /\
    frequency_at (lit "hello") (root_ t) = 1%Z /\
    frequency_at (lit "hello") (root_ t') = 2%Z /\
    (score_word (lit "hello") (lit "hello") 1
       <? score_word (lit "hello") (lit "hello") 2)%float = true.
Proof.
  eexists.
  destruct (reinsertion_raises_score (layout := front_layout) false
              [Insert (lit "hello")] (lit "hello") _ _ eq_refl)
    as [t' [Hi [_ [Hf [_ [_ [_ [_ Hs]]]]]]]].
  - left. reflexivity.
  - vm_compute. reflexivity.
  - vm_compute. reflexivity.
  - exists t'. split; [reflexivity|]. split; [exact Hi|].
    split; [vm_compute; reflexivity|].
    split; [rewrite Hf; vm_compute; reflexivity|].
    rewrite Hf in Hs. exact Hs.
Defined.

(** C6, as stated, fails: the empty word inserted [2^32 - 1] times has
    the counter [2^32 - 1]; inserted once more it has the counter [0], and
    its score against itself falls from about [214748365.75] to [1.0]. *)
Lemma reinsertion_wraps_counterexample :
  exists rs,
    run (layout := front_layout)
        (repeat (Insert []) (Z.to_nat 4294967295)) (Trie_new false) =
      Some (mkTrie (mkTrieNode [] true 4294967295) false false, rs) /\
    insert (layout := front_layout) []
        (mkTrie (mkTrieNode [] true 4294967295) false false) =
      Some (mkTrie (mkTrieNode [] true 0) false false, tt) /\
    collect_scored (mkTrieNode [] true 4294967295) [] [] [] =
      [mkScoredWord [] (score_word [] [] 4294967295)] /\
    collect_scored (mkTrieNode [] true 0) [] [] [] =
      [mkScoredWord [] (score_word [] [] 0)] /\
    (score_word [] [] 4294967295 <? score_word [] [] 0)%float = false /\
    (score_word [] [] 0 <? score_word [] [] 4294967295)%float = true.
Proof.
  exists (answers (layout := front_layout)
            (repeat (Insert []) (Z.to_nat 4294967295)) new_node).
  split.
  { rewrite run_new, inserted_repeat.
    rewrite build_repeat_empty_word by lia.
    rewrite Z2Nat.id by lia.
    replace (wrap_u32 4294967295) with 4294967295%Z by reflexivity.
    reflexivity. }
  split; [reflexivity|]. split; [reflexivity|]. split; [reflexivity|].
  split; vm_compute; reflexivity.
Qed.

(** ** The order and the limits of [suggest] *)

Section Suggestions.

Context {layout : MapLayout}.

Lemma filter_all : forall (f : str -> bool) l,
  (forall x, In x l -> f x = true) -> filter f l = l.
Proof.
  intros f. induction l as [|x l IH]; intros H; simpl; [reflexivity|].
  rewrite (H x) by now left. f_equal. apply IH. intros y Hy. apply H. now right.
Qed.

Lemma filter_none : forall (f : str -> bool) l,
  (forall x, In x l -> f x = false) -> filter f l = [].
Proof.
  intros f. induction l as [|x l IH]; intros H; simpl; [reflexivity|].
  rewrite (H x) by now left. apply IH. intros y Hy. apply H. now right.
Qed.

Lemma filter_cons_split : forall (f : str -> bool) l x r,
  filter f l = x :: r ->
  exists l1 l', l = l1 ++ x :: l' /\ filter f l' = r.
Proof.
  intros f. induction l as [|y l IH]; intros x r H; simpl in H; [discriminate|].
  destruct (f y) eqn:E.
  - injection H as -> <-. now exists [], l.
  - destruct (IH _ _ H) as [l1 [l' [-> Hr]]]. now exists (y :: l1), l'.
Qed.

Lemma descend_app : forall p q node,
  descend (p ++ q) node =
  match descend p node with Some x => descend q x | None => None end.
Proof.
  induction p as [|c p IH]; intros q node; simpl; [reflexivity|].
  destruct (find c (children node)); [apply IH | reflexivity].
Qed.

Lemma contains_descend : forall p node,
  contains_node p node = true <->
  exists x, descend p node = Some x /\ is_terminal x = true.
Proof.
  intros p node. destruct (descend p node) as [x|] eqn:E.
  - pose proof (@descend_contains p node x [] E) as H.
    rewrite app_nil_r in H. rewrite H. simpl. split.
    + intros Ht. now exists x.
    + now intros [y [[= <-] Ht]].
  - pose proof (@descend_none_contains p node [] E) as H.
    rewrite app_nil_r in H. rewrite H.
    split; [discriminate | now intros [y [[=] _]]].
Qed.

Lemma is_prefix_longer : forall cur c q, is_prefix (cur ++ c :: q) cur = false.
Proof.
  intros cur c q. apply not_true_iff_false. intros H.
  apply is_prefix_app in H. destruct H as [r H].
  apply (f_equal (@length ascii)) in H. rewrite !length_app in H.
  simpl in H. lia.
Qed.

(** The words below the children other than [c] do not continue with
    [c]. *)
Lemma filter_other_children : forall cur c q kids,
  ~ In c (keys kids) ->
  filter (is_prefix (cur ++ c :: q))
    (flat_map (fun kv => all_words (snd kv) (cur ++ [fst kv])) kids) = [].
Proof.
  intros cur c q kids Hc. apply filter_none. intros w Hw.
  apply in_flat_map in Hw. destruct Hw as [[k child] [Hin Hw]]. simpl in Hw.
  apply all_words_extend in Hw. destruct Hw as [p ->].
  apply not_true_iff_false. intros H. apply is_prefix_app in H.
  destruct H as [r H]. rewrite <- !app_assoc in H. apply app_inv_head in H.
  simpl in H. injection H as -> _. apply Hc.
  change c with (fst (c, child)). now apply in_map.
Qed.

(** Below a node, the words that continue the current string with [Q] are
    the words below the node [Q] leads to, in the same order. *)
Lemma all_words_narrow : forall Q node cur,
  wf node ->
  filter (is_prefix (cur ++ Q)) (all_words node cur) =
  match descend Q node with
  | Some x => all_words x (cur ++ Q)
  | None => []
  end.
Proof.
  induction Q as [|c Q IH]; intros node cur Hwf.
  - simpl. rewrite app_nil_r. apply filter_all. intros w Hw.
    apply all_words_extend in Hw. apply is_prefix_app. exact Hw.
  - destruct node as [kids terminal freq].
    inversion Hwf as [? ? ? ND Hall Hf Ht]; subst.
    cbn [all_words descend children]. rewrite filter_app.
    match goal with
    | |- filter ?f ?h ++ _ = _ =>
        assert (Hh : filter f h = []);
        [destruct terminal; simpl;
         [now rewrite is_prefix_longer | reflexivity] | rewrite Hh; clear Hh]
    end.
    simpl app. clear Hf Ht Hwf.
    induction kids as [|[k child] kids IHk]; [reflexivity|].
    inversion ND as [|? ? Hk ND']; inversion Hall as [|? ? Hc Hall']; subst.
    cbn [flat_map find fst snd]. rewrite filter_app.
    destruct (Ascii.eqb k c) eqn:E.
    + apply Ascii.eqb_eq in E. subst k.
      rewrite filter_other_children by exact Hk. rewrite app_nil_r.
      replace (cur ++ c :: Q) with ((cur ++ [c]) ++ Q)
        by now rewrite <- app_assoc.
      apply IH. exact Hc.
    + apply Ascii.eqb_neq in E.
      rewrite (IHk ND' Hall').
      pose proof (filter_other_children cur c Q [(k, child)]) as H.
      cbn [flat_map fst snd keys map] in H. rewrite app_nil_r in H.
      rewrite H; [reflexivity|]. intros [H'|[]]. congruence.
Qed.

Lemma completions_narrow : forall P Q root,
  wf root ->
  completions (P ++ Q) root =
  filter (is_prefix (P ++ Q)) (completions P root).
Proof.
  intros P Q root Hwf. unfold completions. rewrite descend_app.
  destruct (descend P root) as [node|] eqn:E; [|reflexivity].
  symmetry. apply all_words_narrow. eapply wf_descend; eassumption.
Qed.

(** X3. A limit cuts the unlimited result short and does nothing else: the
    traversal that stops early has collected the first [L] words of the
    traversal that does not stop. *)
Theorem suggest_limit_truncates : forall root ts P,
  let t := mkTrie root ts false in
  exists all,
    suggest P 0 t = Some (t, all) /\
    forall L, 0 < L -> suggest P L t = Some (t, firstn L all).
Proof.
  intros root ts P t. subst t. exists (completions P root). split.
  - rewrite suggest_free, suggest_node_take. reflexivity.
  - intros L HL. rewrite suggest_free, suggest_node_take.
    destruct L; [lia | reflexivity].
Qed.

(** X4. A prefix that is itself a stored word is the first suggestion. *)
Theorem suggest_starts_with_stored_prefix : forall t P L,
  mtx_ t = false ->
  contains P t = Some (t, true) ->
  exists rest, suggest P L t = Some (t, P :: rest).
Proof.
  intros [root ts m] P L Hm Hc. simpl in Hm. subst m.
  rewrite contains_free in Hc. injection Hc as Hc.
  apply contains_descend in Hc. destruct Hc as [[kids terminal freq] [E Ht]].
  simpl in Ht. subst terminal.
  rewrite suggest_free, suggest_node_take. unfold completions. rewrite E.
  cbn [all_words]. destruct L as [|k]; simpl; eexists; reflexivity.
Qed.

(** X5. Extending the prefix filters the suggestions and keeps their order. *)
Theorem suggest_narrows : forall ts cs P Q t rs,
  run cs (Trie_new ts) = Some (t, rs) ->
  exists out,
    suggest P 0 t = Some (t, out) /\
    suggest (P ++ Q) 0 t = Some (t, filter (is_prefix (P ++ Q)) out) /\
    forall L, 0 < L ->
      suggest (P ++ Q) L t =
      Some (t, firstn L (filter (is_prefix (P ++ Q)) out)).
Proof.
  intros ts cs P Q t rs H. apply run_new_inv in H. subst t.
  exists (completions P (build (inserted cs))).
  rewrite !suggest_free, !suggest_node_take.
  rewrite completions_narrow by apply wf_build.
  split; [reflexivity|]. split; [reflexivity|].
  intros L HL. rewrite suggest_free, suggest_node_take.
  rewrite completions_narrow by apply wf_build.
  destruct L; [lia | reflexivity].
Qed.

(** X6. A stored word is suggested before every word that extends it, and
    whenever one of those is suggested. *)
Theorem suggest_word_before_extensions :
  forall ts cs P L t rs out w1 w2,
  run cs (Trie_new ts) = Some (t, rs) ->
  suggest P L t = Some (t, out) ->
  In w1 (inserted cs) ->
  is_prefix P w1 = true ->
  is_prefix w1 w2 = true ->
  w1 <> w2 ->
  In w2 out ->
  exists l1 l2 l3, out = l1 ++ w1 :: l2 ++ w2 :: l3.
Proof.
  intros ts cs P L t rs out w1 w2 Hrun Hs H1 HP H12 Hne H2.
  apply run_new_inv in Hrun. subst t.
  rewrite suggest_free, suggest_node_take in Hs. injection Hs as <-.
  set (root := build (inserted cs)) in *.
  assert (Hwf : wf root) by apply wf_build.
  set (l := completions P root) in *.
  assert (ND : NoDup l) by (apply NoDup_completions, Hwf).
  assert (Hl2 : In w2 l) by (eapply take_incl; exact H2).
  assert (Hsplit : exists l1 l2 l3, l = l1 ++ w1 :: l2 ++ w2 :: l3).
  { apply is_prefix_app in HP. destruct HP as [Q ->].
    pose proof (completions_narrow P Q root Hwf) as HF. fold l in HF.
    assert (Hc : contains_node (P ++ Q) root = true)
      by (apply contains_build; exact H1).
    apply contains_descend in Hc.
    destruct Hc as [[kids terminal freq] [E Ht]]. simpl in Ht. subst terminal.
    unfold completions in HF at 1. rewrite E in HF. cbn [all_words] in HF.
    simpl app in HF. symmetry in HF.
    destruct (filter_cons_split _ _ _ _ HF) as [l1 [l' [El Hr]]].
    assert (Hin : In w2 (filter (is_prefix (P ++ Q)) l))
      by (apply filter_In; split; assumption).
    rewrite HF in Hin. destruct Hin as [Hin|Hin]; [congruence|].
    rewrite <- Hr in Hin. apply filter_In in Hin. destruct Hin as [Hin _].
    apply in_split in Hin. destruct Hin as [l2 [l3 ->]].
    now exists l1, l2, l3. }
  destruct Hsplit as [l1 [l2 [l3 El]]].
  destruct L as [|k]; [simpl in *; now exists l1, l2, l3|].
  unfold take in *. 
  set (A := l1 ++ w1 :: l2).
  assert (ElA : l = A ++ w2 :: l3)
    by (unfold A; rewrite El, <- app_assoc; reflexivity).
  assert (HnA : ~ In w2 A).
  { rewrite ElA in ND. apply NoDup_remove_2 in ND.
    intros HA. apply ND. apply in_or_app. now left. }
  rewrite ElA in H2 |- *. rewrite firstn_app in H2 |- *.
  destruct (Nat.le_gt_cases (S k) (length A)) as [Hle|Hgt].
  - exfalso. replace (S k - length A) with 0 in H2 by lia.
    simpl in H2. rewrite app_nil_r in H2. apply HnA.
    rewrite <- (firstn_skipn (S k) A). apply in_or_app. now left.
  - rewrite firstn_all2 by lia.
    destruct (S k - length A) as [|d] eqn:Ed; [lia|]. simpl.
    exists l1, l2, (firstn d l3). unfold A. now rewrite <- app_assoc.
Qed.

End Suggestions.

(** ** More on [search_ranked] *)

Section RankedSearch.

Lemma firstn_min_length : forall (A : Type) n (l : list A),
  firstn (Nat.min n (length l)) l = firstn n l.
Proof.
  intros A n l. destruct (Nat.le_gt_cases n (length l)) as [H|H].
  - now rewrite Nat.min_l by exact H.
  - rewrite Nat.min_r by lia. now rewrite !firstn_all2 by lia.
Qed.

Lemma search_ranked_node_all : forall q root,
  search_ranked_node q 0 root =
  map word (std_sort ranked_before (collect_scored root [] [] q)).
Proof.
  intros q root. unfold search_ranked_node. simpl. now rewrite firstn_all.
Qed.

Lemma search_ranked_node_firstn : forall q L root,
  0 < L ->
  search_ranked_node q L root = firstn L (search_ranked_node q 0 root).
Proof.
  intros q L root HL. rewrite search_ranked_node_all. unfold search_ranked_node.
  destruct L as [|k]; [lia|]. cbn [Nat.eqb].
  now rewrite firstn_min_length, firstn_map.
Qed.

(** X7. Without a limit the ranked search returns the words [suggest] returns
    for the empty prefix, each once, whatever the query is: ranking
    reorders the stored words and drops none. *)
Theorem search_ranked_lists_every_word : forall root ts q,
  let t := mkTrie root ts false in
  exists ranked all,
    search_ranked q 0 t = Some (t, ranked) /\
    suggest [] 0 t = Some (t, all) /\
    Permutation ranked all.
Proof.
  intros root ts q t. subst t.
  exists (search_ranked_node q 0 root), (suggest_node [] 0 root).
  split; [apply search_ranked_free|]. split; [apply suggest_free|].
  rewrite search_ranked_node_all, suggest_node_take. unfold completions.
  simpl. rewrite <- (scored_words root q).
  apply Permutation_map, std_sort_perm.
Qed.

(** X8. A limit cuts the full ranking short: [search_ranked(q, L)] is the
    first [L] words of [search_ranked(q, 0)]. *)
Theorem search_ranked_limit_truncates : forall root ts q,
  let t := mkTrie root ts false in
  exists ranked,
    search_ranked q 0 t = Some (t, ranked) /\
    forall L, 0 < L -> search_ranked q L t = Some (t, firstn L ranked).
Proof.
  intros root ts q t. subst t. exists (search_ranked_node q 0 root).
  split; [apply search_ranked_free|].
  intros L HL. rewrite search_ranked_free.
  now rewrite search_ranked_node_firstn by exact HL.
Qed.

Lemma nodup_permutation : forall l1 l2 : list str,
  Permutation l1 l2 ->
  Permutation (nodup str_eq_dec l1) (nodup str_eq_dec l2).
Proof.
  intros l1 l2 H. apply NoDup_Permutation; try apply NoDup_nodup.
  intros w. rewrite !nodup_In. split; apply Permutation_in;
    [exact H | apply Permutation_sym, H].
Qed.

(** X9. The result of the ranked search does not depend on the iteration
    order of the [children] maps nor on the order of the insertions: two
    tries with the same insertions, made in any order under any layout,
    answer alike. *)
Theorem search_ranked_ignores_layout :
  forall (l1 l2 : MapLayout) ts1 ts2 cs1 cs2 q L t1 rs1 t2 rs2,
  run (layout := l1) cs1 (Trie_new ts1) = Some (t1, rs1) ->
  run (layout := l2) cs2 (Trie_new ts2) = Some (t2, rs2) ->
  Permutation (inserted cs1) (inserted cs2) ->
  (Z.of_nat (length q) < int_max)%Z ->
  (forall w, In w (inserted cs1) -> (Z.of_nat (length w) < int_max)%Z) ->
  exists out,
    search_ranked q L t1 = Some (t1, out) /\
    search_ranked q L t2 = Some (t2, out).
Proof.
  intros l1 l2 ts1 ts2 cs1 cs2 q L t1 rs1 t2 rs2 H1 H2 HP Hq Hws.
  apply run_new_inv in H1. apply run_new_inv in H2. subst t1 t2.
  rewrite !search_ranked_free.
  set (root1 := build (layout := l1) (inserted cs1)).
  set (root2 := build (layout := l2) (inserted cs2)).
  set (r1 := std_sort ranked_before (collect_scored root1 [] [] q)).
  set (r2 := std_sort ranked_before (collect_scored root2 [] [] q)).
  assert (E : r2 = r1).
  { apply (ranking_strict_unique (layout := l1) cs1 q Hq Hws).
    - unfold r1, r2.
      eapply Permutation_trans; [apply std_sort_perm|].
      eapply Permutation_trans; [|apply Permutation_sym, std_sort_perm].
      unfold root1, root2. rewrite !collect_scored_entries. simpl.
      apply Permutation_map.
      eapply Permutation_trans; [apply all_entries_build|].
      eapply Permutation_trans; [|apply Permutation_sym, all_entries_build].
      eapply Permutation_trans.
      + apply Permutation_map, nodup_permutation, Permutation_sym, HP.
      + apply Permutation_refl'. apply map_ext. intros w. f_equal.
        unfold occurrences. f_equal. f_equal.
        apply Permutation_count_occ. apply Permutation_sym, HP.
    - apply StronglySorted_in_rank_order, std_sort_sorted.
      + exact ranked_before_trans.
      + exact ranked_before_asym. }
  exists (search_ranked_node q L root1). split; [reflexivity|].
  do 2 f_equal. unfold search_ranked_node. fold r1 r2. now rewrite E.
Qed.

(** X10. The comparator [search_ranked] hands to [std::sort] is a strict order
    on all scored words, NaN scores included; on scores that are numbers
    two words neither of which comes before the other have the same score
    and are the same word. *)
Theorem ranked_before_strict_weak_order :
  (forall a, ranked_before a a = false) /\
  (forall a b, ranked_before a b = true -> ranked_before b a = false) /\
  (forall a b c,
      ranked_before a b = true -> ranked_before b c = true ->
      ranked_before a c = true) /\
  (forall a b,
      Prim2SF (score a) <> S754_nan -> Prim2SF (score b) <> S754_nan ->
      ranked_before a b = false -> ranked_before b a = false ->
      (score a =? score b)%float = true /\ word a = word b).
Proof.
  split; [|split; [|split]].
  - intros a. destruct (ranked_before a a) eqn:E; [|reflexivity].
    pose proof (ranked_before_asym _ _ E). congruence.
  - exact ranked_before_asym.
  - exact ranked_before_trans.
  - intros a b Ha Hb Hab Hba. split.
    + rewrite FloatAxioms.eqb_spec.
      destruct (SFeqb (Prim2SF (score a)) (Prim2SF (score b))) eqn:E;
        [reflexivity|].
      destruct (@SFltb_total _ _ Ha Hb) as [H|[H|H]]; [|congruence|].
      * assert (ranked_before b a = true)
          by (apply ranked_before_cases; now left).
        congruence.
      * assert (ranked_before a b = true)
          by (apply ranked_before_cases; now left).
        congruence.
    + destruct (str_eq_dec (word a) (word b)) as [E|N]; [exact E|].
      destruct (ranked_before_total a b Ha Hb N); congruence.
Qed.

(** X11. Between a query and a word both shorter than [2^31 - 1] the score is a
    number and is not negative. *)
Theorem score_word_is_a_number : forall q w f,
  (Z.of_nat (length q) < int_max)%Z ->
  (Z.of_nat (length w) < int_max)%Z ->
  Prim2SF (score_word q w f) <> S754_nan /\
  (score_word q w f <? 0)%float = false.
Proof.
  intros q w f Hq Hw.
  assert (H : sf_signed false (Prim2SF (score_word q w f))).
  { apply score_word_signed.
    rewrite levenshtein_distance_cell by assumption. apply cell_bounds. }
  split; [exact (signed_not_nan _ _ H)|].
  rewrite FloatAxioms.ltb_spec.
  change (Prim2SF 0) with (S754_zero false).
  destruct (Prim2SF (score_word q w f)) as [s|s| |s m e]; simpl in H;
    try contradiction; subst s; reflexivity.
Qed.

End RankedSearch.

(** ** The edit distance as a metric *)

Section EditMetric.

Open Scope Z_scope.

Lemma cell_lower : forall a b i j,
  Z.abs (Z.of_nat i - Z.of_nat j) <= cell a b i j.
Proof.
  intros a b. induction i as [|i IHi]; intros j.
  - rewrite cell_0. lia.
  - induction j as [|j IHj].
    + rewrite cell_S_0. lia.
    + rewrite cell_S_S. unfold min3.
      pose proof (IHi (S j)). pose proof (IHi j).
      pose proof (cost_range (char_at a i) (char_at b j)). lia.
Qed.

Lemma cell_step_i : forall a b i j, cell a b (S i) j <= cell a b i j + 1.
Proof.
  intros a b i [|j].
  - rewrite !cell_n_0. lia.
  - rewrite cell_S_S. unfold min3. lia.
Qed.

Lemma cell_step_j : forall a b i j, cell a b i (S j) <= cell a b i j + 1.
Proof.
  intros a b i j. rewrite (cell_sym a b i (S j)), (cell_sym a b i j).
  apply cell_step_i.
Qed.

Lemma cell_ext : forall a a' b b' i j,
  (forall k, (k < i)%nat -> char_at a k = char_at a' k) ->
  (forall k, (k < j)%nat -> char_at b k = char_at b' k) ->
  cell a b i j = cell a' b' i j.
Proof.
  intros a a' b b'. induction i as [|i IHi]; intros j Ha Hb.
  - now rewrite !cell_0.
  - induction j as [|j IHj].
    + now rewrite !cell_S_0.
    + rewrite !cell_S_S.
      rewrite IHj by (intros k Hk; apply Hb; lia).
      rewrite (IHi (S j))
        by (intros k Hk; first [apply Ha; lia | apply Hb; lia]).
      rewrite (IHi j) by (intros k Hk; first [apply Ha; lia | apply Hb; lia]).
      rewrite (Ha i), (Hb j) by lia. reflexivity.
Qed.

Lemma cell_zero : forall a b i j,
  cell a b i j = 0 ->
  i = j /\ forall k, (k < i)%nat -> char_at a k = char_at b k.
Proof.
  intros a b. induction i as [|i IHi]; intros j H.
  - rewrite cell_0 in H. split; [lia | intros k Hk; lia].
  - destruct j as [|j]; [rewrite cell_S_0 in H; lia|].
    rewrite cell_S_S in H. unfold min3 in H.
    pose proof (cell_bounds a b i (S j)). pose proof (cell_bounds a b (S i) j).
    pose proof (cell_bounds a b i j).
    pose proof (cost_range (char_at a i) (char_at b j)).
    assert (Hz : cell a b i j = 0) by lia.
    assert (Hc : cost (char_at a i) (char_at b j) = 0) by lia.
    destruct (IHi j Hz) as [-> Hk]. split; [reflexivity|].
    intros k Hlt. destruct (Nat.eq_dec k j) as [->|N].
    + unfold cost in Hc.
      destruct (Ascii.eqb (char_at a j) (char_at b j)) eqn:E; [|lia].
      now apply Ascii.eqb_eq.
    + apply Hk. lia.
Qed.

Lemma cost_triangle : forall x y z, cost x z <= cost x y + cost y z.
Proof.
  intros x y z. unfold cost.
  destruct (Ascii.eqb x y) eqn:E1; destruct (Ascii.eqb y z) eqn:E2;
    destruct (Ascii.eqb x z) eqn:E3; try lia.
  apply Ascii.eqb_eq in E1, E2. subst. rewrite Ascii.eqb_refl in E3.
  discriminate.
Qed.

Lemma cell_triangle : forall a b c n i j k,
  (i + j + k <= n)%nat ->
  cell a c i k <= cell a b i j + cell b c j k.
Proof.
  intros a b c. induction n as [|n IH]; intros i j k H.
  - assert (i = 0 /\ j = 0 /\ k = 0)%nat as [-> [-> ->]] by lia.
    rewrite !cell_0. lia.
  - destruct i as [|i].
    { rewrite !cell_0. pose proof (cell_lower b c j k). lia. }
    destruct k as [|k].
    { rewrite !cell_n_0. pose proof (cell_lower a b (S i) j). lia. }
    destruct j as [|j].
    { rewrite cell_n_0, cell_0. pose proof (cell_bounds a c (S i) (S k)). lia. }
    pose proof (IH i (S j) (S k) ltac:(lia)) as T1.
    pose proof (IH (S i) (S j) k ltac:(lia)) as T2.
    pose proof (IH (S i) j (S k) ltac:(lia)) as T3.
    pose proof (IH (S i) j k ltac:(lia)) as T4.
    pose proof (IH i j (S k) ltac:(lia)) as T5.
    pose proof (IH i j k ltac:(lia)) as T6.
    clear IH H.
    pose proof (cell_S_S a b i j) as Eab. pose proof (cell_S_S b c j k) as Ebc.
    pose proof (cell_S_S a c i k) as Eac.
    pose proof (cost_triangle (char_at a i) (char_at b j) (char_at c k)).
    pose proof (cost_range (char_at a i) (char_at b j)).
    pose proof (cost_range (char_at b j) (char_at c k)).
    unfold min3 in *. lia.
Qed.

Lemma nth_char_eq : forall x y : str,
  length x = length y ->
  (forall k, (k < length x)%nat -> char_at x k = char_at y k) ->
  x = y.
Proof.
  intros x y Hl Hk. apply (nth_ext x y Ascii.zero Ascii.zero Hl). exact Hk.
Qed.

(** X12. The distance is zero between a sequence and itself only. *)
Theorem levenshtein_distance_zero_iff_equal : forall x y,
  Z.of_nat (length x) < int_max ->
  Z.of_nat (length y) < int_max ->
  (levenshtein_distance x y = 0 <-> x = y).
Proof.
  intros x y Hx Hy. rewrite levenshtein_distance_cell by assumption. split.
  - intros H. apply cell_zero in H. destruct H as [Hl Hk].
    now apply nth_char_eq.
  - intros ->. apply cell_diag.
Qed.

(** X13. The distance is at least the difference of the lengths and at most
    the greater length. *)
Theorem levenshtein_distance_bounds : forall x y,
  Z.of_nat (length x) < int_max ->
  Z.of_nat (length y) < int_max ->
  Z.abs (Z.of_nat (length x) - Z.of_nat (length y))
    <= levenshtein_distance x y
    <= Z.max (Z.of_nat (length x)) (Z.of_nat (length y)).
Proof.
  intros x y Hx Hy. rewrite levenshtein_distance_cell by assumption.
  split; [apply cell_lower | apply cell_bounds].
Qed.

(** X14. The triangle inequality. *)
Theorem levenshtein_distance_triangle : forall x y z,
  Z.of_nat (length x) < int_max ->
  Z.of_nat (length y) < int_max ->
  Z.of_nat (length z) < int_max ->
  levenshtein_distance x z
    <= levenshtein_distance x y + levenshtein_distance y z.
Proof.
  intros x y z Hx Hy Hz. rewrite !levenshtein_distance_cell by assumption.
  eapply cell_triangle. apply Nat.le_refl.
Qed.

(** X15. From a prefix to the whole word the distance is the number of units
    that are missing. *)
Theorem levenshtein_distance_of_prefix : forall x s,
  Z.of_nat (length (x ++ s)) < int_max ->
  levenshtein_distance x (x ++ s) = Z.of_nat (length s).
Proof.
  intros x s H.
  assert (Hx : Z.of_nat (length x) < int_max)
    by (rewrite length_app in H; lia).
  rewrite levenshtein_distance_cell by assumption.
  rewrite length_app. set (n := length x).
  assert (Hd : cell x (x ++ s) n n = 0).
  { rewrite <- (cell_diag x n). apply cell_ext; [reflexivity|].
    intros k Hk. unfold char_at. now apply app_nth1. }
  assert (Hup : forall k, cell x (x ++ s) n (n + k) <= Z.of_nat k).
  { induction k as [|k IHk].
    - rewrite Nat.add_0_r, Hd. lia.
    - rewrite Nat.add_succ_r.
      pose proof (cell_step_j x (x ++ s) n (n + k)). lia. }
  pose proof (Hup (length s)).
  pose proof (cell_lower x (x ++ s) n (n + length s)).
  lia.
Qed.

(** X16. One more unit at the end of one sequence changes the distance by one
    at most. *)
Theorem levenshtein_distance_one_more_unit : forall x y c,
  Z.of_nat (length (x ++ [c])) < int_max ->
  Z.of_nat (length y) < int_max ->
  Z.abs (levenshtein_distance (x ++ [c]) y - levenshtein_distance x y) <= 1.
Proof.
  intros x y c Hxc Hy.
  assert (Hx : Z.of_nat (length x) < int_max)
    by (rewrite length_app in Hxc; lia).
  rewrite !levenshtein_distance_cell by assumption.
  rewrite length_app. simpl length. rewrite Nat.add_1_r.
  set (n := length x). set (m := length y). set (a := x ++ [c]).
  assert (E : cell x y n m = cell a y n m).
  { apply cell_ext; [|reflexivity].
    intros k Hk. unfold char_at, a. symmetry. now apply app_nth1. }
  rewrite E.
  pose proof (cell_step_i a y n m).
  pose proof (cell_triangle a a y (n + S n + m) n (S n) m (Nat.le_refl _)).
  pose proof (cell_step_j a a n n). rewrite cell_diag in *.
  lia.
Qed.

End EditMetric.

(** ** The node store as a whole *)

Section NodeStore.

Context {layout : MapLayout}.

Lemma list_sum_permutation : forall l l',
  Permutation l l' -> list_sum l = list_sum l'.
Proof.
  induction 1 as [|x l l' HP IH|x y l|l l' l'' H1 IH1 H2 IH2]; simpl; lia.
Qed.

Lemma node_count_update : forall c f m v,
  find c m = Some v ->
  list_sum (map (fun kv => node_count (snd kv)) (update c f m))
    + node_count v =
  list_sum (map (fun kv => node_count (snd kv)) m) + node_count (f v).
Proof.
  induction m as [|[k x] m IH]; intros v H; simpl in *; [discriminate|].
  destruct (Ascii.eqb k c); simpl.
  - injection H as ->. lia.
  - specialize (IH v H). lia.
Qed.

Lemma missing_new_node : forall w, missing w new_node = length w.
Proof. destruct w; reflexivity. Qed.

Lemma missing_le : forall w node, missing w node <= length w.
Proof.
  induction w as [|c rest IH]; intros node; simpl; [lia|].
  destruct (find c (children node)) as [next|]; [|lia].
  specialize (IH next). lia.
Qed.

Lemma missing_descend : forall w node x,
  descend w node = Some x -> missing w node = 0.
Proof.
  induction w as [|c rest IH]; intros node x; simpl; [reflexivity|].
  destruct (find c (children node)) as [next|]; [apply IH | discriminate].
Qed.

(** [insert] creates one node for each code unit that had no path. *)
Lemma node_count_insert_node : forall w node,
  wf node ->
  node_count (insert_node w node) = node_count node + missing w node.
Proof.
  induction w as [|c rest IH]; intros node Hwf.
  - destruct node. simpl. lia.
  - inversion Hwf as [kids t f ND Hall Hf Ht]; subst.
    cbn [insert_node node_count missing children is_terminal frequency].
    assert (E : find c (ensured c kids) =
                Some (match find c kids with
                      | Some v => v | None => new_node end))
      by (apply find_ensured_same; exact ND).
    pose proof (node_count_update c (insert_node rest) _ _ E) as Hu.
    destruct (find c kids) as [next|] eqn:F.
    + rewrite IH in Hu by (eapply wf_find; [exact Hwf | exact F]).
      unfold ensured in Hu |- *. rewrite F in Hu |- *. lia.
    + rewrite IH, missing_new_node in Hu by exact wf_new_node.
      unfold ensured in Hu |- *. rewrite F in Hu |- *.
      assert (Hl : list_sum (map (fun kv => node_count (snd kv)) (link c kids))
                   = S (list_sum (map (fun kv => node_count (snd kv)) kids))).
      { rewrite (list_sum_permutation _ _
                   (Permutation_map _ (link_perm c kids))). reflexivity. }
      simpl in Hu |- *. lia.
Qed.

Lemma node_count_fold_insert : forall ws node,
  wf node ->
  node_count (fold_left (fun n w => insert_node w n) ws node) <=
  node_count node + list_sum (map (@length ascii) ws).
Proof.
  induction ws as [|w ws IH]; intros node Hwf; simpl; [lia|].
  specialize (IH (insert_node w node) (wf_insert_node w node Hwf)).
  rewrite node_count_insert_node in IH by exact Hwf.
  pose proof (missing_le w node). lia.
Qed.

(** X1. The memory an insertion takes: [insert(W)] adds one node for each
    code unit of [W] beyond the longest prefix of [W] that has a path, and
    none when [W] was inserted before; the store never has more nodes than
    the root and one node for each code unit inserted. *)
Theorem insert_adds_missing_nodes : forall ts cs W t rs,
  run cs (Trie_new ts) = Some (t, rs) ->
  exists t',
    insert W t = Some (t', tt) /\
    node_count (root_ t') = node_count (root_ t) + missing W (root_ t) /\
    missing W (root_ t) <= length W /\
    (In W (inserted cs) -> node_count (root_ t') = node_count (root_ t)) /\
    node_count (root_ t) <= 1 + list_sum (map (@length ascii) (inserted cs)).
Proof.
  intros ts cs W t rs H. apply run_new_inv in H. subst t.
  exists (mkTrie (insert_node W (build (inserted cs))) ts false).
  split; [apply insert_free|]. simpl.
  rewrite node_count_insert_node by apply wf_build.
  split; [reflexivity|]. split; [apply missing_le|]. split.
  - intros Hin. apply contains_build in Hin. apply contains_descend in Hin.
    destruct Hin as [x [E _]]. rewrite (missing_descend _ _ _ E). lia.
  - unfold build.
    pose proof (node_count_fold_insert (inserted cs) new_node wf_new_node)
      as Hb.
    simpl in Hb. lia.
Qed.

Lemma descend_new_node_iff : forall p,
  (exists x, descend p new_node = Some x) <-> p = [].
Proof.
  intros [|c p]; simpl.
  - split; [reflexivity | intros _; now eexists].
  - split; [intros [x [=]] | discriminate].
Qed.

Lemma descend_insert_node_iff : forall p w node,
  wf node ->
  ((exists x, descend p (insert_node w node) = Some x) <->
   is_prefix p w = true \/ exists x, descend p node = Some x).
Proof.
  intros p w node Hwf. rewrite descend_insert_node by exact Hwf.
  destruct (strip_prefix p w) as [rest|] eqn:S.
  - apply strip_prefix_app in S. split.
    + intros _. left. apply is_prefix_app. now exists rest.
    + intros _. now eexists.
  - split; [now right | intros [H|H]; [|exact H]].
    apply is_prefix_app in H. destruct H as [q H].
    apply strip_prefix_app in H. congruence.
Qed.

Lemma descend_fold_insert : forall ws p node,
  wf node ->
  ((exists x, descend p (fold_left (fun n w => insert_node w n) ws node)
              = Some x) <->
   (exists x, descend p node = Some x) \/
   exists w, In w ws /\ is_prefix p w = true).
Proof.
  induction ws as [|w ws IH]; intros p node Hwf; simpl.
  - split; [now left | intros [H|[w [[] _]]]; exact H].
  - rewrite IH by (apply wf_insert_node, Hwf).
    rewrite descend_insert_node_iff by exact Hwf. split.
    + intros [[H|H]|[v [Hv Hp]]].
      * right. exists w. split; [now left | exact H].
      * now left.
      * right. exists v. split; [now right | exact Hp].
    + intros [H|[v [[<-|Hv] Hp]]].
      * left. now right.
      * left. now left.
      * right. now exists v.
Qed.

(** X2. The store has no dead branch: a path exists exactly for the empty
    string and for the prefixes of the inserted words, so below every node
    but an empty root there is a stored word. *)
Theorem every_path_leads_to_a_word : forall ts cs t rs p,
  run cs (Trie_new ts) = Some (t, rs) ->
  ((exists node, descend p (root_ t) = Some node) <->
   p = [] \/ exists w, In w (inserted cs) /\ is_prefix p w = true) /\
  (forall node, descend p (root_ t) = Some node -> p <> [] ->
     exists s, contains_node s node = true).
Proof.
  intros ts cs t rs p H. apply run_new_inv in H. subst t. simpl.
  assert (Hiff : (exists node, descend p (build (inserted cs)) = Some node) <->
                 p = [] \/
                 exists w, In w (inserted cs) /\ is_prefix p w = true).
  { unfold build. rewrite descend_fold_insert by exact wf_new_node.
    now rewrite descend_new_node_iff. }
  split; [exact Hiff|].
  intros node E Hp.
  destruct (proj1 Hiff (ex_intro _ node E)) as [->|[w [Hw Hpw]]];
    [congruence|].
  apply is_prefix_app in Hpw. destruct Hpw as [s ->]. exists s.
  rewrite <- (@descend_contains p _ node s E). now apply contains_build.
Qed.

(** X18. A new trie holds no word: every lookup fails and every query returns
    the empty sequence. *)
Theorem new_trie_is_empty : forall ts w L,
  contains w (Trie_new ts) = Some (Trie_new ts, false) /\
  suggest w L (Trie_new ts) = Some (Trie_new ts, []) /\
  search_ranked w L (Trie_new ts) = Some (Trie_new ts, []).
Proof.
  intros ts w L. unfold Trie_new.
  rewrite contains_free, suggest_free, search_ranked_free.
  rewrite contains_new_node. split; [reflexivity|]. split.
  - do 2 f_equal. destruct w; [|reflexivity]. now destruct L.
  - do 2 f_equal. now destruct L.
Qed.

End NodeStore.

(** ** The operations on the node store and the functions of their
    results *)

Section StoreOperations.

Context {layout : MapLayout}.

Lemma descend_snoc : forall p c s node,
  descend p s = Some node ->
  descend (p ++ [c]) s = find c (children node).
Proof.
  intros p c s node H. rewrite descend_app, H. simpl.
  now destruct (find c (children node)).
Qed.

Lemma contains_node_descend : forall w s,
  contains_node w s =
  match descend w s with Some node => is_terminal node | None => false end.
Proof.
  induction w as [|c rest IH]; intros s; simpl; [reflexivity|].
  destruct (find c (children s)); [apply IH | reflexivity].
Qed.

(** The walk along the edges of [w] reads only. *)
Lemma find_walk_spec : forall w p s node,
  descend p s = Some node ->
  find_walk w p s =
  (s, match descend w node with Some _ => Some (p ++ w) | None => None end).
Proof.
  induction w as [|c rest IH]; intros p s node H; simpl.
  - unfold store_ret. now rewrite app_nil_r.
  - unfold store_bind, children_find, deref. rewrite H.
    destruct (find c (children node)) as [next|] eqn:F; [|reflexivity].
    rewrite (IH (p ++ [c]) s next)
      by (rewrite (descend_snoc _ c _ _ H); exact F).
    now rewrite <- app_assoc.
Qed.

Lemma contains_store_spec : forall w s,
  contains_store w s = (s, contains_node w s).
Proof.
  intros w s. unfold contains_store, store_bind.
  rewrite (find_walk_spec w [] s s eq_refl), contains_node_descend.
  change ([] ++ w) with w.
  destruct (descend w s) as [node|] eqn:E; [|reflexivity].
  unfold get_is_terminal, deref. now rewrite E.
Qed.

Lemma height_child : forall (k : ascii) child kids,
  In (k, child) kids ->
  height child <= list_max (map (fun kv => height (snd kv)) kids).
Proof.
  intros k child kids Hin.
  pose proof (proj1 (list_max_le
                       (map (fun kv : ascii * TrieNode => height (snd kv))
                            kids) _)
                (Nat.le_refl _)) as H.
  rewrite Forall_forall in H. apply H.
  apply (in_map (fun kv : ascii * TrieNode => height (snd kv)) _ _ Hin).
Qed.

Lemma height_descend : forall p s node,
  descend p s = Some node -> height node <= height s.
Proof.
  induction p as [|c p IH]; intros s node; simpl.
  - intros [= ->]. apply Nat.le_refl.
  - destruct (find c (children s)) as [next|] eqn:F; [|discriminate].
    intros H. apply IH in H. apply find_some_in in F.
    pose proof (height_child _ _ _ F). destruct s. simpl in *. lia.
Qed.

(** The loop over the entries, given what the calls in its body do. *)
Lemma for_entries_spec : forall (A : Type)
    (bodym : ascii -> node_ptr -> A -> Store (option A))
    (body : ascii -> TrieNode -> A -> A) stop p s kvs,
  Forall (fun kv => forall out,
            bodym (fst kv) (p ++ [fst kv]) out s =
            (s, Some (body (fst kv) (snd kv) out))) kvs ->
  forall out,
    for_entries bodym stop (map (fun kv => (fst kv, p ++ [fst kv])) kvs) out s
    = (s, Some (for_children body stop kvs out)).
Proof.
  intros A bodym body stop p s kvs H.
  induction H as [|[k child] kvs Hk Hkvs IH]; intros out; simpl.
  - reflexivity.
  - unfold store_bind. simpl in Hk. rewrite Hk.
    destruct (stop (body k child out)); [reflexivity | apply IH].
Qed.

(** What the entries of a well-formed node stand for. *)
Lemma entries_of_node : forall p s kids terminal freq,
  wf (mkTrieNode kids terminal freq) ->
  descend p s = Some (mkTrieNode kids terminal freq) ->
  forall k child, In (k, child) kids ->
    descend (p ++ [k]) s = Some child /\ wf child /\
    height child < height (mkTrieNode kids terminal freq).
Proof.
  intros p s kids terminal freq Hwf Hd k child Hin.
  inversion Hwf as [? ? ? ND Hall Hf Ht]; subst.
  rewrite Forall_forall in Hall. split; [|split].
  - rewrite (descend_snoc _ k _ _ Hd). simpl. now apply in_find_some.
  - exact (Hall _ Hin).
  - pose proof (height_child _ _ _ Hin). simpl. lia.
Qed.

Lemma collect_suggestions_store_spec : forall depth node p current out limit s,
  wf node -> descend p s = Some node -> height node <= depth ->
  collect_suggestions_store depth p current out limit s =
  (s, Some (collect_suggestions node current out limit)).
Proof.
  induction depth as [|depth IH];
    intros [kids terminal freq] p current out limit s Hwf Hd Hh.
  - simpl in Hh. lia.
  - cbn [collect_suggestions_store collect_suggestions].
    unfold store_bind, get_is_terminal, children_entries, deref.
    rewrite Hd. cbn [is_terminal children].
    destruct (terminal &&
              reached limit (if terminal then out ++ [current] else out));
      [reflexivity|].
    rewrite ?Hd. cbn [children].
    apply for_entries_spec. apply Forall_forall. intros [k child] Hin out'.
    destruct (entries_of_node _ _ _ _ _ Hwf Hd k child Hin) as [Hc [Hw Hlt]].
    simpl. apply IH; [exact Hw | exact Hc | lia].
Qed.

Lemma collect_scored_store_spec : forall depth node p current out query s,
  wf node -> descend p s = Some node -> height node <= depth ->
  collect_scored_store depth p current out query s =
  (s, Some (collect_scored node current out query)).
Proof.
  induction depth as [|depth IH];
    intros [kids terminal freq] p current out query s Hwf Hd Hh.
  - simpl in Hh. lia.
  - cbn [collect_scored_store collect_scored].
    unfold store_bind, get_is_terminal, get_frequency, children_entries,
      deref, store_ret.
    rewrite Hd. cbn [is_terminal].
    destruct terminal; rewrite ?Hd; cbn [frequency children].
    + apply for_entries_spec. apply Forall_forall.
      intros [k child] Hin out'.
      destruct (entries_of_node _ _ _ _ _ Hwf Hd k child Hin)
        as [Hc [Hw Hlt]].
      simpl. apply IH; [exact Hw | exact Hc | lia].
    + apply for_entries_spec. apply Forall_forall.
      intros [k child] Hin out'.
      destruct (entries_of_node _ _ _ _ _ Hwf Hd k child Hin)
        as [Hc [Hw Hlt]].
      simpl. apply IH; [exact Hw | exact Hc | lia].
Qed.

Lemma suggest_store_spec : forall depth prefix limit s,
  wf s -> height s <= depth ->
  suggest_store depth prefix limit s =
  (s, Some (suggest_node prefix limit s)).
Proof.
  intros depth prefix limit s Hwf Hh. unfold suggest_store, store_bind.
  rewrite (find_walk_spec prefix [] s s eq_refl). unfold suggest_node.
  change ([] ++ prefix) with prefix. destruct (descend prefix s) as [node|] eqn:E; [|reflexivity].
  apply collect_suggestions_store_spec.
  - eapply wf_descend; eassumption.
  - exact E.
  - pose proof (height_descend _ _ _ E). lia.
Qed.

Lemma search_ranked_store_spec : forall depth query limit s,
  wf s -> height s <= depth ->
  search_ranked_store depth query limit s =
  (s, Some (search_ranked_node query limit s)).
Proof.
  intros depth query limit s Hwf Hh. unfold search_ranked_store, store_bind.
  rewrite (collect_scored_store_spec depth s [] [] [] query s Hwf eq_refl Hh).
  reflexivity.
Qed.

Lemma update_ext : forall c (f g : TrieNode -> TrieNode) m,
  (forall v, f v = g v) -> update c f m = update c g m.
Proof.
  intros c f g m H. induction m as [|[k v] m IH]; simpl; [reflexivity|].
  destruct (Ascii.eqb k c); [now rewrite H | now rewrite IH].
Qed.

Lemma update_update : forall c (f g : TrieNode -> TrieNode) m,
  update c f (update c g m) = update c (fun v => f (g v)) m.
Proof.
  intros c f g m. induction m as [|[k v] m IH]; simpl; [reflexivity|].
  destruct (Ascii.eqb k c) eqn:E; simpl; rewrite E; [reflexivity|].
  now rewrite IH.
Qed.

Lemma update_same : forall c m, update c (fun v => v) m = m.
Proof.
  intros c m. induction m as [|[k v] m IH]; simpl; [reflexivity|].
  destruct (Ascii.eqb k c); [reflexivity | now rewrite IH].
Qed.

Lemma modify_at_ext : forall p (f g : TrieNode -> TrieNode) s,
  (forall n, f n = g n) -> modify_at p f s = modify_at p g s.
Proof.
  induction p as [|c p IH]; intros f g s H; simpl; [apply H|].
  f_equal. apply update_ext. intros v. now apply IH.
Qed.

Lemma modify_at_same : forall p s, modify_at p (fun n => n) s = s.
Proof.
  induction p as [|c p IH]; intros s; simpl; [reflexivity|].
  rewrite (update_ext c _ (fun v => v)) by exact IH.
  rewrite update_same. now destruct s.
Qed.

Lemma modify_at_twice : forall p (f g : TrieNode -> TrieNode) s,
  modify_at p f (modify_at p g s) = modify_at p (fun n => f (g n)) s.
Proof.
  induction p as [|c p IH]; intros f g s; simpl; [reflexivity|].
  f_equal. rewrite update_update. apply update_ext. intros v. apply IH.
Qed.

Lemma modify_at_app : forall p q (f : TrieNode -> TrieNode) s,
  modify_at (p ++ q) f s = modify_at p (modify_at q f) s.
Proof.
  induction p as [|c p IH]; intros q f s; simpl; [reflexivity|].
  f_equal. apply update_ext. intros v. apply IH.
Qed.

(** The walk of [insert] links the missing edges of [w] below [p]. *)
Lemma insert_walk_spec : forall w p s,
  insert_walk w p s = (modify_at p (ensure_path w) s, p ++ w).
Proof.
  induction w as [|c rest IH]; intros p s; simpl.
  - unfold store_ret. now rewrite modify_at_same, app_nil_r.
  - unfold store_bind, children_index. rewrite IH, <- app_assoc. simpl.
    f_equal. rewrite modify_at_app, modify_at_twice.
    apply modify_at_ext. intros n. reflexivity.
Qed.

Lemma insert_node_ensure_path : forall w node,
  modify_at w
    (fun n => mkTrieNode (children n) true (wrap_u32 (frequency n + 1)%Z))
    (ensure_path w node) =
  insert_node w node.
Proof.
  induction w as [|c rest IH]; intros node; simpl; [reflexivity|].
  f_equal. rewrite update_update. apply update_ext. exact IH.
Qed.

(** [insert], run against the store, leaves the store [insert_node]
    gives: the operation that writes does change the store. *)
Lemma insert_store_spec : forall w s,
  insert_store w s = (insert_node w s, tt).
Proof.
  intros w s. unfold insert_store, store_bind.
  rewrite insert_walk_spec. simpl.
  unfold set_is_terminal, increment_frequency. f_equal.
  rewrite modify_at_twice. simpl. apply insert_node_ensure_path.
Qed.

(** C9. On the trie reached by any calls, [contains], [suggest] and
    [search_ranked], run statement by statement against the node store
    (where [insert] adds nodes and raises counters), return and leave the
    node store as it was: the same root with every node, edge, flag and
    counter below it; what they return is the value of the functions of
    the node store ([depth] is any bound on the nesting of the recursive
    calls that is at least the height of the store). *)
Theorem queries_leave_the_store : forall ts cs t rs w limit depth,
  run cs (Trie_new ts) = Some (t, rs) ->
  height (root_ t) <= depth ->
  guarded_store (contains_store w) t = Some (t, contains_node w (root_ t)) /\
  guarded_store (suggest_store depth w limit) t =
    Some (t, Some (suggest_node w limit (root_ t))) /\
  guarded_store (search_ranked_store depth w limit) t =
    Some (t, Some (search_ranked_node w limit (root_ t))) /\
  contains w t = Some (t, contains_node w (root_ t)) /\
  suggest w limit t = Some (t, suggest_node w limit (root_ t)) /\
  search_ranked w limit t = Some (t, search_ranked_node w limit (root_ t)).
Proof.
  intros ts cs t rs w limit depth H Hh. apply run_new_inv in H. subst t.
  simpl in Hh. set (root := build (inserted cs)) in *.
  assert (Hwf : wf root) by apply wf_build.
  unfold guarded_store.
  split; [|split; [|split; [|split; [|split]]]].
  - destruct ts; unfold guarded; simpl;
      now rewrite contains_store_spec.
  - destruct ts; unfold guarded; simpl;
      now rewrite suggest_store_spec.
  - destruct ts; unfold guarded; simpl;
      now rewrite search_ranked_store_spec.
  - apply contains_free.
  - apply suggest_free.
  - apply search_ranked_free.
Qed.

End StoreOperations.

(** ** Instances *)

(** On the thread-safe trie of alice and bob, [contains("alice")] and
    [suggest("alice")] run against the node store and leave the trie as
    it was. *)
Lemma queries_leave_the_store_witness :
  exists t rs,
    run (layout := front_layout)
        [Insert (lit "alice"); Insert (lit "bob")] (Trie_new true) =
      Some (t, rs) /\
    guarded_store (contains_store (lit "alice")) t = Some (t, true) /\
    guarded_store (suggest_store 6 (lit "alice") 0) t =
      Some (t, Some [lit "alice"]).
Proof.
  eexists. eexists.
  destruct (queries_leave_the_store (layout := front_layout) true
              [Insert (lit "alice"); Insert (lit "bob")] _ _
              (lit "alice") 0 6 eq_refl)
    as [H1 [H2 _]].
  - vm_compute. lia.
  - split; [reflexivity|]. split; [exact H1 | exact H2].
Defined.

(** Of alice and ali, [suggest("ali", 1)] returns ali. *)
Lemma suggest_starts_with_stored_prefix_witness :
  exists rest,
    suggest (lit "ali") 1
      (mkTrie (build (layout := front_layout) [lit "alice"; lit "ali"])
              false false) =
    Some (mkTrie (build (layout := front_layout) [lit "alice"; lit "ali"])
                 false false,
          lit "ali" :: rest).
Proof.
  apply suggest_starts_with_stored_prefix; vm_compute; reflexivity.
Defined.

(** The words of [examples/autocomplete.cpp]: the suggestions for app are
    the suggestions for a that start with app. *)
Lemma suggest_narrows_witness :
  exists t rs out,
    run (layout := front_layout)
        [Insert (lit "apple"); Insert (lit "app");
         Insert (lit "application"); Insert (lit "banana")]
        (Trie_new false) = Some (t, rs) /\
    suggest (lit "a") 0 t = Some (t, out) /\
    suggest (lit "a" ++ lit "pp") 0 t =
      Some (t, filter (is_prefix (lit "a" ++ lit "pp")) out).
Proof.
  eexists. eexists.
  destruct (suggest_narrows (layout := front_layout) false
              [Insert (lit "apple"); Insert (lit "app");
               Insert (lit "application"); Insert (lit "banana")]
              (lit "a") (lit "pp") _ _ eq_refl)
    as [out [H1 [H2 _]]].
  exists out. split; [reflexivity|]. split; assumption.
Defined.

(** Of apple and app, app is suggested before apple. *)
Lemma suggest_word_before_extensions_witness :
  exists l1 l2 l3,
    [lit "app"; lit "apple"] = l1 ++ lit "app" :: l2 ++ lit "apple" :: l3.
Proof.
  apply (suggest_word_before_extensions (layout := front_layout) false
           [Insert (lit "apple"); Insert (lit "app")] (lit "a") 0 _ _
           [lit "app"; lit "apple"] (lit "app") (lit "apple") eq_refl).
  - vm_compute. reflexivity.
  - right. left. reflexivity.
  - reflexivity.
  - reflexivity.
  - intros H. vm_compute in H. discriminate H.
  - right. left. reflexivity.
Defined.

(** The tries of a and b, inserted in the two orders under two layouts,
    rank alike. *)
Lemma search_ranked_ignores_layout_witness :
  exists t1 rs1 t2 rs2 out,
    run (layout := front_layout) [Insert (lit "a"); Insert (lit "b")]
        (Trie_new false) = Some (t1, rs1) /\
    run (layout := back_layout) [Insert (lit "b"); Insert (lit "a")]
        (Trie_new false) = Some (t2, rs2) /\
    search_ranked (lit "a") 0 t1 = Some (t1, out) /\
    search_ranked (lit "a") 0 t2 = Some (t2, out).
Proof.
  eexists. eexists. eexists. eexists.
  destruct (search_ranked_ignores_layout front_layout back_layout false false
              [Insert (lit "a"); Insert (lit "b")]
              [Insert (lit "b"); Insert (lit "a")]
              (lit "a") 0 _ _ _ _ eq_refl eq_refl)
    as [out [H1 H2]].
  - apply perm_swap.
  - vm_compute. reflexivity.
  - intros w [<-|[<-|[]]]; vm_compute; reflexivity.
  - exists out. split; [reflexivity|]. split; [reflexivity|].
    split; assumption.
Defined.

(** The score of hello against helo. *)
Lemma score_word_is_a_number_witness :
  Prim2SF (score_word (lit "helo") (lit "hello") 1) <> S754_nan /\
  (score_word (lit "helo") (lit "hello") 1 <? 0)%float = false.
Proof.
  apply score_word_is_a_number; vm_compute; reflexivity.
Defined.

Lemma levenshtein_distance_zero_iff_equal_witness :
  levenshtein_distance (lit "kitten") (lit "sitting") = 0%Z <->
  lit "kitten" = lit "sitting".
Proof.
  apply levenshtein_distance_zero_iff_equal; vm_compute; reflexivity.
Defined.

Lemma levenshtein_distance_bounds_witness :
  (Z.abs (Z.of_nat (length (lit "kitten")) - Z.of_nat (length (lit "sitting")))
     <= levenshtein_distance (lit "kitten") (lit "sitting")
     <= Z.max (Z.of_nat (length (lit "kitten")))
              (Z.of_nat (length (lit "sitting"))))%Z.
Proof.
  apply levenshtein_distance_bounds; vm_compute; reflexivity.
Defined.

Lemma levenshtein_distance_triangle_witness :
  (levenshtein_distance (lit "kitten") (lit "sitting")
     <= levenshtein_distance (lit "kitten") (lit "sitten")
        + levenshtein_distance (lit "sitten") (lit "sitting"))%Z.
Proof.
  apply levenshtein_distance_triangle; vm_compute; reflexivity.
Defined.

Lemma levenshtein_distance_of_prefix_witness :
  levenshtein_distance (lit "hel") (lit "hel" ++ lit "lo") =
  Z.of_nat (length (lit "lo")).
Proof.
  apply levenshtein_distance_of_prefix. vm_compute. reflexivity.
Defined.

Lemma levenshtein_distance_one_more_unit_witness :
  (Z.abs (levenshtein_distance (lit "hell" ++ ["o"%char]) (lit "help")
          - levenshtein_distance (lit "hell") (lit "help")) <= 1)%Z.
Proof.
  apply levenshtein_distance_one_more_unit; vm_compute; reflexivity.
Defined.

(** After app, [insert("apple")] adds the two nodes of l and e. *)
Lemma insert_adds_missing_nodes_witness :
  exists t rs t',
    run (layout := front_layout) [Insert (lit "app")] (Trie_new false) =
      Some (t, rs) /\
    insert (layout := front_layout) (lit "apple") t = Some (t', tt) /\
    node_count (root_ t') = node_count (root_ t) + 2.
Proof.
  eexists. eexists.
  destruct (insert_adds_missing_nodes (layout := front_layout) false
              [Insert (lit "app")] (lit "apple") _ _ eq_refl)
    as [t' [Hi [Hc _]]].
  exists t'. split; [reflexivity|]. split; [exact Hi | exact Hc].
Defined.

(** After app, the path ap exists and the path ax does not. *)
Lemma every_path_leads_to_a_word_witness :
  exists t rs,
    run (layout := front_layout) [Insert (lit "app")] (Trie_new false) =
      Some (t, rs) /\
    ((exists node, descend (lit "ap") (root_ t) = Some node) <->
     lit "ap" = [] \/
     exists w, In w [lit "app"] /\ is_prefix (lit "ap") w = true).
Proof.
  eexists. eexists. split; [reflexivity|].
  apply (every_path_leads_to_a_word (layout := front_layout) false
           [Insert (lit "app")] _ _ (lit "ap") eq_refl).
Defined.
